(** * ddu-source-nvim_lsp: diagnostics and locations

    A shallow embedding of the two ddu sources of the repository,
    [denops/@ddu-sources/lsp_diagnostic.ts] and
    [denops/@ddu-sources/nvim_lsp.ts], together with the properties of
    their normalisation, ordering and item-building code.

    JavaScript numbers that hold line numbers, columns, severities and
    buffer handles are integers and are modelled by [Z]; an optional
    property is an [option]; a rejected promise or a thrown [Error] is the
    [Throw] case of [Res].  A JavaScript string is the [string] of the
    bytes of its UTF-8 form: the characters of ASCII, which are all that
    the two sources look for, are one byte each and are never part of the
    bytes of another character. *)

From Stdlib Require Import ZArith Lia Ascii String.
From stdpp Require Import gmap strings list sorting pretty.

Local Open Scope Z_scope.

(** * The array sort of the runtime

    [items.sort(compare)] is executed by V8 (the engine of Deno).  The V8
    of the Deno releases that the sources were written for sorts with
    TimSort ([third_party/v8/builtins/array-sort.tq], a port of the list
    sort of CPython): the array is cut into runs, each at least of the
    minimal run length, and the runs are merged, with galloping.  This
    module embeds [ArrayTimSortImpl] with all that it calls.  What the
    sort returns for a comparator that is not consistent is left to the
    engine by ECMAScript: the properties of such results are properties
    of this engine.  An array is
    the list of its elements, a run the list of the elements of its part
    of the array, and the indices of the source ([low], [dest], the
    cursors) are the lengths of the lists.  Offsets are [nat]: the
    overflow that the source guards against in the galloping loops does
    not arise below 2^29 elements.  [compare a b] is the number that
    [comparefn(a, b)] returns. *)
Module ArraySort.
Section Engine.
Context {A : Type} (compare : A → A → Z).

(** The loop of [CountAndMakeRun]: extends the run while [currentElement]
    keeps the direction with respect to [previousElement]. *)
Fixpoint extendRun (isDescending : bool) (previousElement : A)
    (rest : list A) : list A * list A :=
  match rest with
  | [] => ([], [])
  | currentElement :: rest' =>
      let order := compare currentElement previousElement in
      if (if isDescending then bool_decide (order < 0)
          else bool_decide (0 ≤ order))
      then
        let '(run, remaining) := extendRun isDescending currentElement rest' in
        (currentElement :: run, remaining)
      else ([], rest)
  end.

(** [CountAndMakeRun]: the longest run at the head of the array, which is
    either ascending ([compare next prev >= 0] throughout) or strictly
    descending ([compare next prev < 0] throughout); a descending run is
    reversed in place.  Returns the run and what follows it. *)
Definition countAndMakeRun (work : list A) : list A * list A :=
  match work with
  | [] => ([], [])
  | [elementHigh] => ([elementHigh], [])
  | elementHigh :: elementLow :: rest =>
      let isDescending := bool_decide (compare elementLow elementHigh < 0) in
      let '(run, remaining) := extendRun isDescending elementLow rest in
      let whole := elementHigh :: elementLow :: run in
      (if isDescending then reverse whole else whole, remaining)
  end.

(** The inner loop of [BinaryInsertionSort]: the place of [pivot] in the
    sorted prefix [work], searched in [left, right). *)
Fixpoint binarySearch (fuel : nat) (work : list A) (pivot : A)
    (left right : nat) : nat :=
  match fuel with
  | O => left
  | S fuel' =>
      if decide (left < right)%nat then
        let mid := (left + (right - left) / 2)%nat in
        match work !! mid with
        | Some element =>
            if decide (compare pivot element < 0)
            then binarySearch fuel' work pivot left mid
            else binarySearch fuel' work pivot (S mid) right
        | None => left
        end
      else left
  end.

Definition insertionPoint (work : list A) (pivot : A) : nat :=
  binarySearch (length work) work pivot 0%nat (length work).

(** One round of [BinaryInsertionSort]: the elements from the insertion
    point on move one place to the right and [pivot] takes the place. *)
Definition binaryInsert (work : list A) (pivot : A) : list A :=
  let left := insertionPoint work pivot in
  take left work ++ pivot :: drop left work.

Definition binaryInsertionSort (run remaining : list A) : list A :=
  foldl binaryInsert run remaining.

(** [kMinGallopWins] *)
Definition kMinGallopWins : nat := 7.

(** [ComputeMinRunLength]: [n] is halved while it is 64 or more, and 1 is
    added when a bit that is set was shifted off. *)
Fixpoint computeMinRunLengthLoop (fuel n r : nat) : nat :=
  match fuel with
  | O => (n + r)%nat
  | S fuel' =>
      if decide (64 ≤ n)%nat
      then computeMinRunLengthLoop fuel' (n / 2)%nat (Nat.lor r (Nat.land n 1))
      else (n + r)%nat
  end.

Definition computeMinRunLength (n : nat) : nat :=
  computeMinRunLengthLoop n n 0%nat.

(** The galloping loop of [GallopLeft] and [GallopRight]: [offset] goes
    through 1, 3, 7, ... below [maxOfs] until [found offset]. *)
Fixpoint gallop (fuel : nat) (found : nat → bool) (maxOfs lastOfs offset : nat)
    : nat * nat :=
  match fuel with
  | O => (lastOfs, offset)
  | S fuel' =>
      if decide (offset < maxOfs)%nat then
        if found offset then (lastOfs, offset)
        else gallop fuel' found maxOfs offset (2 * offset + 1)%nat
      else (lastOfs, offset)
  end.

(** The binary search that ends [GallopLeft]. *)
Fixpoint searchLeft (fuel : nat) (array : list A) (key : A)
    (lastOfs offset : nat) : nat :=
  match fuel with
  | O => offset
  | S fuel' =>
      if decide (lastOfs < offset)%nat then
        let m := (lastOfs + (offset - lastOfs) / 2)%nat in
        match array !! m with
        | Some element =>
            if decide (compare element key < 0)
            then searchLeft fuel' array key (S m) offset
            else searchLeft fuel' array key lastOfs m
        | None => offset
        end
      else offset
  end.

(** The binary search that ends [GallopRight]. *)
Fixpoint searchRight (fuel : nat) (array : list A) (key : A)
    (lastOfs offset : nat) : nat :=
  match fuel with
  | O => offset
  | S fuel' =>
      if decide (lastOfs < offset)%nat then
        let m := (lastOfs + (offset - lastOfs) / 2)%nat in
        match array !! m with
        | Some element =>
            if decide (compare key element < 0)
            then searchRight fuel' array key lastOfs m
            else searchRight fuel' array key (S m) offset
        | None => offset
        end
      else offset
  end.

(** [GallopLeft(array, key, base, length, hint)], [array] being the
    [length] elements from [base] on: the number of elements of the sorted
    [array] that are less than [key]. *)
Definition gallopLeft (array : list A) (key : A) (hint : nat) : nat :=
  match array !! hint with
  | None => 0%nat
  | Some baseHintElement =>
      if decide (compare baseHintElement key < 0) then
        let maxOfs := (length array - hint)%nat in
        let '(lastOfs, offset) :=
          gallop maxOfs
            (λ offset,
               match array !! (hint + offset)%nat with
               | Some offsetElement => bool_decide (0 ≤ compare offsetElement key)
               | None => true
               end) maxOfs 0%nat 1%nat in
        let offset := if decide (maxOfs < offset)%nat then maxOfs else offset in
        searchLeft (length array) array key (lastOfs + hint + 1)%nat (offset + hint)%nat
      else
        let maxOfs := (hint + 1)%nat in
        let '(lastOfs, offset) :=
          gallop maxOfs
            (λ offset,
               match array !! (hint - offset)%nat with
               | Some offsetElement => bool_decide (compare offsetElement key < 0)
               | None => true
               end) maxOfs 0%nat 1%nat in
        let offset := if decide (maxOfs < offset)%nat then maxOfs else offset in
        searchLeft (length array) array key (hint + 1 - offset)%nat (hint - lastOfs)%nat
  end.

(** [GallopRight]: the number of elements of the sorted [array] that are
    not greater than [key]. *)
Definition gallopRight (array : list A) (key : A) (hint : nat) : nat :=
  match array !! hint with
  | None => 0%nat
  | Some baseHintElement =>
      if decide (compare key baseHintElement < 0) then
        let maxOfs := (hint + 1)%nat in
        let '(lastOfs, offset) :=
          gallop maxOfs
            (λ offset,
               match array !! (hint - offset)%nat with
               | Some offsetElement => bool_decide (0 ≤ compare key offsetElement)
               | None => true
               end) maxOfs 0%nat 1%nat in
        let offset := if decide (maxOfs < offset)%nat then maxOfs else offset in
        searchRight (length array) array key (hint + 1 - offset)%nat (hint - lastOfs)%nat
      else
        let maxOfs := (length array - hint)%nat in
        let '(lastOfs, offset) :=
          gallop maxOfs
            (λ offset,
               match array !! (hint + offset)%nat with
               | Some offsetElement => bool_decide (compare key offsetElement < 0)
               | None => true
               end) maxOfs 0%nat 1%nat in
        let offset := if decide (maxOfs < offset)%nat then maxOfs else offset in
        searchRight (length array) array key (lastOfs + hint + 1)%nat (offset + hint)%nat
  end.

(** The two modes of the loops of [MergeLow] and [MergeHigh]: one
    comparison for one element, and galloping. *)
Inductive MergeMode := OneByOne | Galloping (firstIteration : bool).

(** The loops of [MergeLow]: [temp] is what is left of the copy of run A,
    [b] what is left of run B, and the result is what the array holds from
    [dest] on at the end, with the [minGallop] stored in the sort state. *)
Fixpoint mergeLowLoop (fuel : nat) (mode : MergeMode) (temp b : list A)
    (minGallop nofWinsA nofWinsB stored : nat) : list A * nat :=
  match fuel with
  | O => (temp ++ b, stored)
  | S fuel' =>
      match mode with
      | OneByOne =>
          match temp, b with
          | elementA :: temp', elementB :: b' =>
              if decide (compare elementB elementA < 0) then
                let '(merged, stored') :=
                  if decide (length b' = 0)%nat then (temp, stored)
                  else if decide (minGallop ≤ S nofWinsB)%nat
                  then mergeLowLoop fuel' (Galloping true) temp b'
                         (S minGallop) 0%nat (S nofWinsB) stored
                  else mergeLowLoop fuel' OneByOne temp b'
                         minGallop 0%nat (S nofWinsB) stored in
                (elementB :: merged, stored')
              else
                let '(merged, stored') :=
                  if decide (length temp' = 1)%nat then (b ++ temp', stored)
                  else if decide (minGallop ≤ S nofWinsA)%nat
                  then mergeLowLoop fuel' (Galloping true) temp' b
                         (S minGallop) (S nofWinsA) 0%nat stored
                  else mergeLowLoop fuel' OneByOne temp' b
                         minGallop (S nofWinsA) 0%nat stored in
                (elementA :: merged, stored')
          | _, _ => (temp ++ b, stored)
          end
      | Galloping firstIteration =>
          if decide (kMinGallopWins ≤ nofWinsA ∨ kMinGallopWins ≤ nofWinsB
                     ∨ firstIteration = true)%nat
          then
            let minGallop := Nat.max 1 (minGallop - 1) in
            let stored := minGallop in
            match b with
            | [] => (temp, stored)
            | elementB :: b' =>
                let nofWinsA := gallopRight temp elementB 0 in
                let wonA := take nofWinsA temp in
                let temp := drop nofWinsA temp in
                if decide (0 < nofWinsA ∧ length temp = 1)%nat
                then (wonA ++ b ++ temp, stored)
                else if decide (0 < nofWinsA ∧ length temp = 0)%nat
                then (wonA ++ b, stored)
                else if decide (length b' = 0)%nat
                then (wonA ++ elementB :: temp, stored)
                else
                  match temp with
                  | [] => (wonA ++ b, stored)
                  | elementA :: temp' =>
                      let nofWinsB := gallopLeft b' elementA 0 in
                      let wonB := take nofWinsB b' in
                      let b'' := drop nofWinsB b' in
                      if decide (0 < nofWinsB ∧ length b'' = 0)%nat
                      then (wonA ++ elementB :: wonB ++ temp, stored)
                      else if decide (length temp' = 1)%nat
                      then (wonA ++ elementB :: wonB ++ elementA :: b'' ++ temp',
                            stored)
                      else
                        let '(merged, stored') :=
                          mergeLowLoop fuel' (Galloping false) temp' b''
                            minGallop nofWinsA nofWinsB stored in
                        (wonA ++ elementB :: wonB ++ elementA :: merged, stored')
                  end
            end
          else
            mergeLowLoop fuel' OneByOne temp b (S minGallop) 0%nat 0%nat
              (S minGallop)
      end
  end.

(** [MergeLow]: merges run A with the run B that follows it, from the
    left, when A is not the longer. *)
Definition mergeLow (a b : list A) (minGallop : nat) : list A * nat :=
  match b with
  | [] => (a, minGallop)
  | elementB :: b' =>
      let '(merged, stored) :=
        if decide (length b' = 0)%nat then (a, minGallop)
        else if decide (length a = 1)%nat then (b' ++ a, minGallop)
        else mergeLowLoop (2 * (length a + length b') + 1) OneByOne a b'
               minGallop 0%nat 0%nat minGallop in
      (elementB :: merged, stored)
  end.

(** The loops of [MergeHigh]: [a] is what is left of run A, [temp] what
    is left of the copy of run B, and the result is what the array holds
    from the start of A up to [dest] at the end. *)
Fixpoint mergeHighLoop (fuel : nat) (mode : MergeMode) (a temp : list A)
    (minGallop nofWinsA nofWinsB stored : nat) : list A * nat :=
  match fuel with
  | O => (a ++ temp, stored)
  | S fuel' =>
      match mode with
      | OneByOne =>
          match last a, last temp with
          | Some elementA, Some elementB =>
              let a' := take (length a - 1) a in
              let temp' := take (length temp - 1) temp in
              if decide (compare elementB elementA < 0) then
                let '(merged, stored') :=
                  if decide (length a' = 0)%nat then (temp, stored)
                  else if decide (minGallop ≤ S nofWinsA)%nat
                  then mergeHighLoop fuel' (Galloping true) a' temp
                         (S minGallop) (S nofWinsA) 0%nat stored
                  else mergeHighLoop fuel' OneByOne a' temp
                         minGallop (S nofWinsA) 0%nat stored in
                (merged ++ [elementA], stored')
              else
                let '(merged, stored') :=
                  if decide (length temp' = 1)%nat then (temp' ++ a, stored)
                  else if decide (minGallop ≤ S nofWinsB)%nat
                  then mergeHighLoop fuel' (Galloping true) a temp'
                         (S minGallop) 0%nat (S nofWinsB) stored
                  else mergeHighLoop fuel' OneByOne a temp'
                         minGallop 0%nat (S nofWinsB) stored in
                (merged ++ [elementB], stored')
          | _, _ => (a ++ temp, stored)
          end
      | Galloping firstIteration =>
          if decide (kMinGallopWins ≤ nofWinsA ∨ kMinGallopWins ≤ nofWinsB
                     ∨ firstIteration = true)%nat
          then
            let minGallop := Nat.max 1 (minGallop - 1) in
            let stored := minGallop in
            match last temp with
            | None => (a, stored)
            | Some elementB =>
                let temp' := take (length temp - 1) temp in
                let k := gallopRight a elementB (length a - 1) in
                let nofWinsA := (length a - k)%nat in
                let wonA := drop k a in
                let a := take k a in
                if decide (0 < nofWinsA ∧ length a = 0)%nat
                then (temp ++ wonA, stored)
                else if decide (length temp' = 1)%nat
                then (temp' ++ a ++ elementB :: wonA, stored)
                else
                  match last a with
                  | None => (temp ++ wonA, stored)
                  | Some elementA =>
                      let a' := take (length a - 1) a in
                      let k := gallopLeft temp' elementA (length temp' - 1) in
                      let nofWinsB := (length temp' - k)%nat in
                      let wonB := drop k temp' in
                      let temp'' := take k temp' in
                      if decide (0 < nofWinsB ∧ length temp'' = 1)%nat
                      then (temp'' ++ a ++ wonB ++ elementB :: wonA, stored)
                      else if decide (0 < nofWinsB ∧ length temp'' = 0)%nat
                      then (a ++ wonB ++ elementB :: wonA, stored)
                      else if decide (length a' = 0)%nat
                      then (temp'' ++ elementA :: wonB ++ elementB :: wonA,
                            stored)
                      else
                        let '(merged, stored') :=
                          mergeHighLoop fuel' (Galloping false) a' temp''
                            minGallop nofWinsA nofWinsB stored in
                        (merged ++ elementA :: wonB ++ elementB :: wonA, stored')
                  end
            end
          else
            mergeHighLoop fuel' OneByOne a temp (S minGallop) 0%nat 0%nat
              (S minGallop)
      end
  end.

(** [MergeHigh]: merges run A with the run B that follows it, from the
    right, when A is the longer. *)
Definition mergeHigh (a b : list A) (minGallop : nat) : list A * nat :=
  match last a with
  | None => (b, minGallop)
  | Some elementA =>
      let a' := take (length a - 1) a in
      let '(merged, stored) :=
        if decide (length a' = 0)%nat then (b, minGallop)
        else if decide (length b = 1)%nat then (b ++ a', minGallop)
        else mergeHighLoop (2 * (length a' + length b) + 1) OneByOne a' b
               minGallop 0%nat 0%nat minGallop in
      (merged ++ [elementA], stored)
  end.

(** [MergeAt] for run A and the run B that follows it: the elements of A
    that are in place already, and those of B, are left where they are. *)
Definition mergeAt (a b : list A) (minGallop : nat) : list A * nat :=
  match b with
  | [] => (a, minGallop)
  | keyRight :: _ =>
      let k := gallopRight a keyRight 0 in
      let a' := drop k a in
      match last a' with
      | None => (a ++ b, minGallop)
      | Some keyLeft =>
          let lengthB := gallopLeft b keyLeft (length b - 1) in
          let b' := take lengthB b in
          if decide (lengthB = 0)%nat then (a ++ b, minGallop)
          else
            let '(merged, stored) :=
              if decide (length a' ≤ lengthB)%nat
              then mergeLow a' b' minGallop
              else mergeHigh a' b' minGallop in
            (take k a ++ merged ++ drop lengthB b, stored)
      end
  end.

(** The part of the sort state that the merges work on: the pending runs,
    the last one first, each with the elements it holds, and [minGallop]. *)
Record SortState := {
    pendingRuns : list (list A);
    minGallop : nat;
  }.

(** The elements of the pending runs, as the array holds them. *)
Definition pendingElements (state : SortState) : list A :=
  concat (reverse (pendingRuns state)).

(** [MergeAt(n)], [n] being the run below the last one. *)
Definition mergeTop (state : SortState) : SortState :=
  match pendingRuns state with
  | runN1 :: runN :: below =>
      let '(merged, stored) := mergeAt runN runN1 (minGallop state) in
      {| pendingRuns := merged :: below; minGallop := stored |}
  | _ => state
  end.

(** [MergeAt(n - 1)]: the last run is left alone. *)
Definition mergeBelowTop (state : SortState) : SortState :=
  match pendingRuns state with
  | runN1 :: runN :: runNM :: below =>
      let '(merged, stored) := mergeAt runNM runN (minGallop state) in
      {| pendingRuns := runN1 :: merged :: below; minGallop := stored |}
  | _ => state
  end.

(** [!RunInvariantEstablished(n + 1) || !RunInvariantEstablished(n)] *)
Definition runInvariantBroken (runs : list (list A)) : bool :=
  match runs with
  | runN1 :: runN :: runNM :: below =>
      negb (bool_decide (length runN + length runN1 < length runNM)%nat)
      || match below with
         | runNMM :: _ =>
             negb (bool_decide (length runNM + length runN < length runNMM)%nat)
         | [] => false
         end
  | _ => false
  end.

(** [MergeCollapse] *)
Fixpoint mergeCollapse (fuel : nat) (state : SortState) : SortState :=
  match fuel with
  | O => state
  | S fuel' =>
      match pendingRuns state with
      | runN1 :: runN :: below =>
          if runInvariantBroken (pendingRuns state) then
            match below with
            | runNM :: _ =>
                if decide (length runNM < length runN1)%nat
                then mergeCollapse fuel' (mergeBelowTop state)
                else mergeCollapse fuel' (mergeTop state)
            | [] => mergeCollapse fuel' (mergeTop state)
            end
          else if decide (length runN ≤ length runN1)%nat
          then mergeCollapse fuel' (mergeTop state)
          else state
      | _ => state
      end
  end.

(** [MergeForceCollapse] *)
Fixpoint mergeForceCollapse (fuel : nat) (state : SortState) : SortState :=
  match fuel with
  | O => state
  | S fuel' =>
      match pendingRuns state with
      | runN1 :: runN :: below =>
          match below with
          | runNM :: _ =>
              if decide (length runNM < length runN1)%nat
              then mergeForceCollapse fuel' (mergeBelowTop state)
              else mergeForceCollapse fuel' (mergeTop state)
          | [] => mergeForceCollapse fuel' (mergeTop state)
          end
      | _ => state
      end
  end.

(** The next run of [ArrayTimSortImpl]: the run that [CountAndMakeRun]
    finds at the head of what remains, extended by [BinaryInsertionSort] to
    the minimal run length, or to all that remains, when it is shorter. *)
Definition nextRun (minRunLength : nat) (remaining : list A)
    : list A * list A :=
  let '(run, rest) := countAndMakeRun remaining in
  if decide (length run < minRunLength)%nat then
    let forcedRunLength := Nat.min minRunLength (length remaining) in
    (binaryInsertionSort run (take (forcedRunLength - length run) rest),
     drop (forcedRunLength - length run) rest)
  else (run, rest).

(** [PushRun] followed by [MergeCollapse]. *)
Definition pushRun (state : SortState) (run : list A) : SortState :=
  mergeCollapse (S (length (pendingRuns state)))
    {| pendingRuns := run :: pendingRuns state; minGallop := minGallop state |}.

(** The loop of [ArrayTimSortImpl]: run after run is pushed on the pending
    runs, which are collapsed each time. *)
Fixpoint makeRuns (fuel minRunLength : nat) (remaining : list A)
    (state : SortState) : SortState :=
  match fuel with
  | O => state
  | S fuel' =>
      if decide (length remaining = 0)%nat then state
      else
        let '(run, rest) := nextRun minRunLength remaining in
        makeRuns fuel' minRunLength rest (pushRun state run)
  end.

(** [ArrayTimSortImpl] *)
Definition sort (work : list A) : list A :=
  if decide (length work < 2)%nat then work
  else
    let state :=
      makeRuns (length work) (computeMinRunLength (length work)) work
        {| pendingRuns := []; minGallop := kMinGallopWins |} in
    pendingElements (mergeForceCollapse (length (pendingRuns state)) state).
End Engine.
End ArraySort.

(** * Results of calls that may throw *)

(** A call that returns [v] or throws (rejects) with an error message. *)
Inductive Res (T : Type) : Type :=
  | Ok (value : T)
  | Throw (message : string).
Arguments Ok {T} value.
Arguments Throw {T} message.

Definition bind {T U : Type} (r : Res T) (f : T → Res U) : Res U :=
  match r with
  | Ok v => f v
  | Throw e => Throw e
  end.

Notation "'let*' x ':=' e 'in' k" := (bind e (λ x, k))
  (at level 10, x name, e at level 100, k at level 200).

(** [values.map(f)] for an [f] that may throw: the first failure is the
    failure of the whole. *)
Fixpoint mapRes {T U : Type} (f : T → Res U) (values : list T) : Res (list U) :=
  match values with
  | [] => Ok []
  | v :: values' =>
      let* u := f v in
      let* us := mapRes f values' in
      Ok (u :: us)
  end.

(** * Values shared by the two sources *)

(** A JSON value carried through without being inspected. *)
#[warnings="-register-all"]
Inductive JsValue : Type :=
  | JsNull
  | JsBool (b : bool)
  | JsNumber (n : Z)
  | JsString (s : string)
  | JsArray (elements : list JsValue)
  | JsObject (properties : list (string * JsValue)).

Module Position.
Record t := mk { line : Z; character : Z }.
End Position.

Module Range.
(** [end_] is the property [end]. *)
Record t := mk { start : Position.t; end_ : Position.t }.
End Range.

Module Location.
Record t := mk { uri : string; range : Range.t }.
End Location.

Definition jsPosition (p : Position.t) : JsValue :=
  JsObject [("line", JsNumber (Position.line p));
            ("character", JsNumber (Position.character p))]%string.

Definition jsRange (r : Range.t) : JsValue :=
  JsObject [("start", jsPosition (Range.start r));
            ("end", jsPosition (Range.end_ r))]%string.

Definition jsLocation (l : Location.t) : JsValue :=
  JsObject [("uri", JsString (Location.uri l));
            ("range", jsRange (Location.range l))]%string.

(** The line feed, the separator of [message.split("\n")]. *)
Definition LF : ascii := ascii_of_nat 10.
Definition CR : ascii := ascii_of_nat 13.

(** The line separator U+2028 and the paragraph separator U+2029, by the
    three bytes of each: E2 80 A8 and E2 80 A9. *)
Definition LS : string :=
  String (ascii_of_nat 226) (String (ascii_of_nat 128)
    (String (ascii_of_nat 168) EmptyString)).
Definition PS : string :=
  String (ascii_of_nat 226) (String (ascii_of_nat 128)
    (String (ascii_of_nat 169) EmptyString)).

(** [s.startsWith(p)] *)
Definition startsWith (s p : string) : bool := String.prefix p s.

(** [s.split("\n")]: the pieces of [s] between line feeds; never empty. *)
Fixpoint split_LF (s : string) : list string :=
  match s with
  | EmptyString => [EmptyString]
  | String c s' =>
      if Ascii.eqb c LF then EmptyString :: split_LF s'
      else
        match split_LF s' with
        | piece :: pieces => String c piece :: pieces
        | [] => [String c EmptyString]
        end
  end.

(** * lsp_diagnostic.ts *)
Module LspDiagnostic.

(** [Diagnostic] of the language server protocol.  [extra] holds the
    properties a client adds on its own. *)
Module Diagnostic.
Record t := mk {
  range : Range.t;
  severity : option Z;
  code : option JsValue;
  codeDescription : option JsValue;
  source : option string;
  message : string;
  tags : option (list Z);
  relatedInformation : option JsValue;
  data : option JsValue;
  extra : gmap string JsValue;
}.
End Diagnostic.

(** [DduDiagnostic = Diagnostic & { bufNr?: number; path?: string }] *)
Module DduDiagnostic.
Record t := mk {
  diagnostic : Diagnostic.t;
  bufNr : option Z;
  path : option string;
}.
Definition range (d : t) : Range.t := Diagnostic.range (diagnostic d).
Definition severity (d : t) : option Z := Diagnostic.severity (diagnostic d).
Definition message (d : t) : string := Diagnostic.message (diagnostic d).
End DduDiagnostic.

(** The keys of the constant [Severity]. *)
Inductive SeverityName := Error | Warning | Info | Hint.

(** [Severity[name]] *)
Definition Severity (name : SeverityName) : Z :=
  match name with
  | Error => 1
  | Warning => 2
  | Info => 3
  | Hint => 4
  end.

Inductive ClientName := nvim_lsp | coc_nvim | vim_lsp.

(** [Params.buffer : number | number[] | null] *)
Inductive BufferParam :=
  | BufferNull
  | BufferOne (buffer : Z)
  | BufferMany (buffers : list Z).

Record Params := {
  clientName : string;
  buffer : BufferParam;
}.

Record Context := { context_bufNr : Z }.

Module NvimLspDiagnostic.
Record t := mk {
  message : string;
  severity : option Z;
  source : option string;
  code : option JsValue;
  lnum : Z;
  end_lnum : Z;
  col : Z;
  end_col : Z;
  bufnr : Z;
  extra : gmap string JsValue;
}.
End NvimLspDiagnostic.

Module CocDiagnostic.
Record t := mk {
  message : string;
  source : option string;
  code : option JsValue;
  file : string;
  location : Location.t;
  severity : SeverityName;
  extra : gmap string JsValue;
}.
End CocDiagnostic.

(** [VimLspDiagnostic = { params: { uri; diagnostics } }] *)
Module VimLspDiagnostic.
Record t := mk {
  params_uri : string;
  params_diagnostics : list Diagnostic.t;
}.
End VimLspDiagnostic.

Module ActionData.
Record t := mk {
  path : option string;
  bufNr : option Z;
  lineNr : Z;
  col : Z;
}.
End ActionData.

Module ItemDiagnostic.
Record t := mk {
  word : string;
  display : option string;
  highlights : list JsValue;
  action : ActionData.t;
  data : DduDiagnostic.t;
}.
End ItemDiagnostic.

Inductive Host := vim | nvim.

(** What the sources obtain from outside: the editor behind [denops],
    the helpers of [ddu_source_lsp/util.ts], [fromFileUrl] of the Deno
    standard library, and the wording of the error of
    [ddu_source_lsp/client.ts].  A JavaScript object used as a dictionary
    ([Record<string, V>]) is the list of its entries in the order of
    [Object.values]. *)
Record Denops := {
  meta_host : Host;
  (** [denops.call("luaeval", "vim.diagnostic.get(bufNr)")] *)
  vim_diagnostic_get : option Z → Res (option (list NvimLspDiagnostic.t));
  (** [denops.call("CocAction", "diagnosticList")] *)
  CocAction_diagnosticList : Res (option (list CocDiagnostic.t));
  (** [..._get_all_diagnostics_grouped_by_server_for_uri] *)
  get_all_diagnostics_grouped_by_server_for_uri :
    string → Res (list (string * VimLspDiagnostic.t));
  (** [..._get_all_diagnostics_grouped_by_uri_and_server] *)
  get_all_diagnostics_grouped_by_uri_and_server :
    Res (list (string * list (string * VimLspDiagnostic.t)));
  bufNrToFileUri : Z → Res string;
  fromFileUrl : string → Res string;
  addIconAndHighlight : ItemDiagnostic.t → Res ItemDiagnostic.t;
  (** the message of the error that [assertClientName] throws for a name
      that is not the name of a client *)
  unknownClientName : string → string;
}.

(** [values.flatMap(f)] for an [f] that may throw. *)
Definition flatMapM {T U : Type} (f : T → Res (list U)) (values : list T)
    : Res (list U) :=
  let* lists := mapRes f values in
  Ok (List.concat lists).

(** The callback of [map] in [getNvimLspDiagnostics]:
    [{ ...diag, range: {...}, bufNr: diag.bufnr }]. *)
Definition nvimLspToDdu (diag : NvimLspDiagnostic.t) : DduDiagnostic.t :=
  DduDiagnostic.mk
    (Diagnostic.mk
       (Range.mk
          (Position.mk (NvimLspDiagnostic.lnum diag) (NvimLspDiagnostic.col diag))
          (Position.mk (NvimLspDiagnostic.end_lnum diag)
                       (NvimLspDiagnostic.end_col diag)))
       (NvimLspDiagnostic.severity diag)
       (NvimLspDiagnostic.code diag)
       None
       (NvimLspDiagnostic.source diag)
       (NvimLspDiagnostic.message diag)
       None None None
       (<["lnum" := JsNumber (NvimLspDiagnostic.lnum diag)]>
        (<["end_lnum" := JsNumber (NvimLspDiagnostic.end_lnum diag)]>
         (<["col" := JsNumber (NvimLspDiagnostic.col diag)]>
          (<["end_col" := JsNumber (NvimLspDiagnostic.end_col diag)]>
           (<["bufnr" := JsNumber (NvimLspDiagnostic.bufnr diag)]>
            (NvimLspDiagnostic.extra diag)))))))
    (Some (NvimLspDiagnostic.bufnr diag))
    None.

Definition getNvimLspDiagnostics (denops : Denops) (bufNr : option Z)
    : Res (option (list DduDiagnostic.t)) :=
  match meta_host denops with
  | vim => Throw "Client 'nvim-lsp' is not available in vim"
  | nvim =>
      let* result := vim_diagnostic_get denops bufNr in
      Ok (option_map (List.map nvimLspToDdu) result)
  end.

(** [bufNr ? await bufNrToFileUri(denops, bufNr) : undefined]: [null] and
    [0] are falsy. *)
Definition scopeUri (denops : Denops) (bufNr : option Z)
    : Res (option string) :=
  match bufNr with
  | Some n =>
      if decide (n = 0) then Ok None
      else let* uri := bufNrToFileUri denops n in Ok (Some uri)
  | None => Ok None
  end.

(** [!uri || diag.location.uri === uri]: [undefined] and the empty string
    are falsy. *)
Definition cocInScope (uri : option string) (diag : CocDiagnostic.t) : bool :=
  match uri with
  | None => true
  | Some u =>
      bool_decide (u = EmptyString)
      || bool_decide (Location.uri (CocDiagnostic.location diag) = u)
  end.

(** The callback of [map] in [getCocDiagnostics]:
    [{ ...diag, path: diag.file, range: diag.location.range,
       severity: Severity[diag.severity] }]. *)
Definition cocToDdu (diag : CocDiagnostic.t) : DduDiagnostic.t :=
  DduDiagnostic.mk
    (Diagnostic.mk
       (Location.range (CocDiagnostic.location diag))
       (Some (Severity (CocDiagnostic.severity diag)))
       (CocDiagnostic.code diag)
       None
       (CocDiagnostic.source diag)
       (CocDiagnostic.message diag)
       None None None
       (<["file" := JsString (CocDiagnostic.file diag)]>
        (<["location" := jsLocation (CocDiagnostic.location diag)]>
         (CocDiagnostic.extra diag))))
    None
    (Some (CocDiagnostic.file diag)).

Definition getCocDiagnostics (denops : Denops) (bufNr : option Z)
    : Res (option (list DduDiagnostic.t)) :=
  let* uri := scopeUri denops bufNr in
  let* result := CocAction_diagnosticList denops in
  Ok (option_map
        (λ diags, List.map cocToDdu (List.filter (cocInScope uri) diags))
        result).

(** The callback of the two [flatMap]s of [getVimLspDiagnostics]: every
    diagnostic of the group gets the path of the group's uri. *)
Definition stampPath (denops : Denops) (vimDiagnostic : VimLspDiagnostic.t)
    : Res (list DduDiagnostic.t) :=
  let* path := fromFileUrl denops (VimLspDiagnostic.params_uri vimDiagnostic) in
  Ok (List.map (λ diag, DduDiagnostic.mk diag None (Some path))
        (VimLspDiagnostic.params_diagnostics vimDiagnostic)).

Definition getVimLspDiagnostics (denops : Denops) (bufNr : option Z)
    : Res (list DduDiagnostic.t) :=
  match bufNr with
  | Some n =>
      if decide (n = 0) then
        let* all := get_all_diagnostics_grouped_by_uri_and_server denops in
        flatMapM (stampPath denops)
          (List.concat (List.map (λ subRecord, List.map snd (snd subRecord)) all))
      else
        let* uri := bufNrToFileUri denops n in
        let* groups := get_all_diagnostics_grouped_by_server_for_uri denops uri in
        flatMapM (stampPath denops) (List.map snd groups)
  | None =>
      let* all := get_all_diagnostics_grouped_by_uri_and_server denops in
      flatMapM (stampPath denops)
        (List.concat (List.map (λ subRecord, List.map snd (snd subRecord)) all))
  end.

Definition getDiagnostic (clientName : ClientName) (denops : Denops)
    (bufNr : option Z) : Res (option (list DduDiagnostic.t)) :=
  match clientName with
  | nvim_lsp => getNvimLspDiagnostics denops bufNr
  | coc_nvim => getCocDiagnostics denops bufNr
  | vim_lsp =>
      let* diagnostics := getVimLspDiagnostics denops bufNr in
      Ok (Some diagnostics)
  end.

(** ** Diagnostics as objects *)

Definition setOptional (key : string) (value : option JsValue)
    (object : gmap string JsValue) : gmap string JsValue :=
  match value with
  | Some v => <[key := v]> object
  | None => object
  end.

(** The own properties of a diagnostic. *)
Definition Diagnostic_object (d : Diagnostic.t) : gmap string JsValue :=
  <["range" := jsRange (Diagnostic.range d)]>
  (setOptional "severity" (JsNumber <$> Diagnostic.severity d)
  (setOptional "code" (Diagnostic.code d)
  (setOptional "codeDescription" (Diagnostic.codeDescription d)
  (setOptional "source" (JsString <$> Diagnostic.source d)
  (<["message" := JsString (Diagnostic.message d)]>
  (setOptional "tags" ((λ ts, JsArray (JsNumber <$> ts)) <$> Diagnostic.tags d)
  (setOptional "relatedInformation" (Diagnostic.relatedInformation d)
  (setOptional "data" (Diagnostic.data d)
  (Diagnostic.extra d))))))))).

Definition DduDiagnostic_object (d : DduDiagnostic.t) : gmap string JsValue :=
  setOptional "bufNr" (JsNumber <$> DduDiagnostic.bufNr d)
  (setOptional "path" (JsString <$> DduDiagnostic.path d)
  (Diagnostic_object (DduDiagnostic.diagnostic d))).

(** Modelled from the spec: [pick] of [ddu_source_lsp/util.ts], which is
    not among the sources.  The result holds the listed properties that
    the object has, with their values, and nothing else. *)
Definition pick (object : gmap string JsValue) (keys : list string)
    : gmap string JsValue :=
  foldr (λ key picked,
           match object !! key with
           | Some v => <[key := v]> picked
           | None => picked
           end) ∅ keys.

Definition properKeys : list string :=
  ["range"; "severity"; "code"; "codeDescription"; "source"; "message";
   "tags"; "relatedInformation"; "data"]%string.

Definition getProperDiagnostics (clientName : ClientName) (denops : Denops)
    (bufNr : option Z) : Res (list (gmap string JsValue)) :=
  let* dduDiagnostics := getDiagnostic clientName denops bufNr in
  Ok (default []
        (option_map
           (List.map (λ diag, pick (DduDiagnostic_object diag) properKeys))
           dduDiagnostics)).

(** ** Items *)

Definition diagnosticToItem (diagnostic : DduDiagnostic.t) : ItemDiagnostic.t :=
  ItemDiagnostic.mk
    (default EmptyString (head (split_LF (DduDiagnostic.message diagnostic))))
    None
    []
    (ActionData.mk
       (DduDiagnostic.path diagnostic)
       (DduDiagnostic.bufNr diagnostic)
       (Position.line (Range.start (DduDiagnostic.range diagnostic)) + 1)
       (Position.character (Range.start (DduDiagnostic.range diagnostic)) + 1))
    diagnostic.

Definition item_bufNr (item : ItemDiagnostic.t) : option Z :=
  ActionData.bufNr (ItemDiagnostic.action item).
Definition item_lineNr (item : ItemDiagnostic.t) : Z :=
  ActionData.lineNr (ItemDiagnostic.action item).
Definition item_severity (item : ItemDiagnostic.t) : option Z :=
  DduDiagnostic.severity (ItemDiagnostic.data item).

(** [a.action.bufNr && a.action.bufNr === b.action.bufNr]: a buffer
    number that is [undefined] or [0] is falsy. *)
Definition sameBuffer (a b : ItemDiagnostic.t) : bool :=
  match item_bufNr a with
  | Some n => bool_decide (n ≠ 0) && bool_decide (item_bufNr b = Some n)
  | None => false
  end.

(** [bufNr === undefined || bufNr === curBufNr] *)
Definition undefinedOrCurrent (curBufNr : Z) (item : ItemDiagnostic.t) : bool :=
  match item_bufNr item with
  | None => true
  | Some n => bool_decide (n = curBufNr)
  end.

(** The comparator that [sortItemDiagnostic] passes to [sort]. *)
Definition compareItems (curBufNr : Z) (a b : ItemDiagnostic.t) : Z :=
  if sameBuffer a b then
    if bool_decide (item_severity a = item_severity b) then
      item_lineNr a - item_lineNr b
    else
      default 1 (item_severity a) - default 1 (item_severity b)
  else
    if undefinedOrCurrent curBufNr a then -1
    else if undefinedOrCurrent curBufNr b then 1
    else default 0 (item_bufNr a) - default 0 (item_bufNr b).

(** The items after [items.sort(...)]. *)
Definition sortItemDiagnostic (items : list ItemDiagnostic.t) (curBufNr : Z)
    : list ItemDiagnostic.t :=
  ArraySort.sort (compareItems curBufNr) items.

(** ** The source *)

(** Modelled from the spec: [assertClientName] of
    [ddu_source_lsp/client.ts], which is not among the sources.  It
    accepts the three supported client names and throws for any other; the
    message of that error is left open. *)
Definition assertClientName (denops : Denops) (clientName : string)
    : Res ClientName :=
  if decide (clientName = "nvim-lsp") then Ok nvim_lsp
  else if decide (clientName = "coc.nvim") then Ok coc_nvim
  else if decide (clientName = "vim-lsp") then Ok vim_lsp
  else Throw (unknownClientName denops clientName).

(** What a reader of the stream returned by [gather] observes: the
    chunks enqueued, the calls of [printError] (error and source name),
    and whether the stream was closed. *)
Record Stream := {
  chunks : list (list ItemDiagnostic.t);
  printError_calls : list (string * string);
  closed : bool;
}.

(** [Array.isArray(buffer) ? buffer : [buffer]] *)
Definition scopeBuffers (buffer : BufferParam) : list (option Z) :=
  match buffer with
  | BufferMany buffers => List.map Some buffers
  | BufferOne n => [Some n]
  | BufferNull => [None]
  end.

(** [buffer === 0 ? context.bufNr : buffer] *)
Definition resolveBuffer (context : Context) (buffer : option Z) : option Z :=
  match buffer with
  | Some n => if decide (n = 0) then Some (context_bufNr context) else Some n
  | None => None
  end.

(** Modelled from the spec: [asyncFlatMap], which [gather] calls and
    which is not among the sources.  The callback is applied to each value,
    the results are concatenated in the order of the values, and a failure
    of a callback is the failure of the whole. *)
Definition asyncFlatMap {T U : Type} (values : list T) (f : T → Res (list U))
    : Res (list U) :=
  flatMapM f values.

(** The body of the [try] block of [gather].  [Promise.all] over the items
    fails when the decoration of one of them fails. *)
Definition gatherItems (denops : Denops) (context : Context)
    (sourceParams : Params) : Res (list ItemDiagnostic.t) :=
  let* clientName := assertClientName denops (clientName sourceParams) in
  let buffers := scopeBuffers (buffer sourceParams) in
  let* diagnostics :=
    asyncFlatMap buffers (λ buffer,
      let bufNr := resolveBuffer context buffer in
      let* found := getDiagnostic clientName denops bufNr in
      Ok (default [] found)) in
  let* items :=
    mapRes (λ diagnostic, addIconAndHighlight denops (diagnosticToItem diagnostic))
      diagnostics in
  Ok (sortItemDiagnostic items (context_bufNr context)).

Definition gather (denops : Denops) (context : Context) (sourceParams : Params)
    : Stream :=
  match gatherItems denops context sourceParams with
  | Ok items =>
      {| chunks := [items]; printError_calls := []; closed := true |}
  | Throw e =>
      {| chunks := []; printError_calls := [(e, "lsp_diagnostic"%string)];
         closed := true |}
  end.

End LspDiagnostic.

(** * nvim_lsp.ts *)
Module NvimLsp.

Definition SUPPORTED_METHODS : list string :=
  ["textDocument/declaration"; "textDocument/definition";
   "textDocument/typeDefinition"; "textDocument/implementation";
   "textDocument/references"]%string.

Definition isSupportedMethod (method : string) : bool :=
  existsb (λ m, bool_decide (method = m)) SUPPORTED_METHODS.

(** An entry of a result, [Location | LocationLink], as the object it is:
    each of the four properties is present or not. *)
Module LocationOrLink.
Record t := mk {
  uri : option string;
  range : option Range.t;
  targetUri : option string;
  targetSelectionRange : option Range.t;
}.
End LocationOrLink.

Definition toLocation (loc : LocationOrLink.t) : LocationOrLink.t :=
  match LocationOrLink.uri loc, LocationOrLink.range loc with
  | Some _, Some _ => loc
  | _, _ =>
      LocationOrLink.mk (LocationOrLink.targetUri loc)
        (LocationOrLink.targetSelectionRange loc) None None
  end.

Module ActionData.
Record t := mk { path : string; lineNr : Z; col : Z }.
End ActionData.

Module Item.
Record t := mk { word : string; display : string; action : ActionData.t }.
End Item.

(** [new URL(uri).pathname] belongs to the runtime and is taken as given;
    it throws for a string that is not a URL. *)
Record Runtime := { URL_pathname : string → Res string }.

Definition locationToItem (runtime : Runtime) (location : LocationOrLink.t)
    : Res Item.t :=
  match LocationOrLink.uri location with
  | None => Throw "TypeError: Cannot read properties of undefined"
  | Some uri =>
      let* path :=
        (if startsWith uri "file:" then URL_pathname runtime uri else Ok uri) in
      match LocationOrLink.range location with
      | None => Throw "TypeError: Cannot read properties of undefined"
      | Some range =>
          let lineNr := Position.line (Range.start range) + 1 in
          let col := Position.character (Range.start range) + 1 in
          Ok (Item.mk path
                (path +:+ ":" +:+ pretty lineNr +:+ ":" +:+ pretty col)
                (ActionData.mk path lineNr col))
      end
  end.

(** [(%5E|%7E|%3C|%3D)] after [%23], at the head of [s]. *)
Definition fragmentAt (s : string) : bool :=
  startsWith s "%23%5E" || startsWith s "%23%7E"
  || startsWith s "%23%3C" || startsWith s "%23%3D".

(** The [.] of a regular expression matches every character but a line
    terminator of ECMAScript: the line feed, the carriage return, U+2028
    and U+2029.  [atLineTerminator s]: the character at the head of [s] is
    one of the four. *)
Definition atLineTerminator (s : string) : bool :=
  startsWith s (String LF EmptyString) || startsWith s (String CR EmptyString)
  || startsWith s LS || startsWith s PS.

(** [.*%23(%5E|%7E|%3C|%3D)] matched from the head of [s].  The [.] is
    tried at every byte: at a byte within a character neither a line
    terminator nor [%23] begins. *)
Fixpoint anyThenFragment (s : string) : bool :=
  fragmentAt s
  || match s with
     | EmptyString => false
     | String _ s' => if atLineTerminator s then false else anyThenFragment s'
     end.

(** [/^deno:.*%23(%5E|%7E|%3C|%3D)/.test(s)] *)
Definition denoFragmentRegExp_test (s : string) : bool :=
  match s with
  | String "d" (String "e" (String "n" (String "o" (String ":" rest)))) =>
      anyThenFragment rest
  | _ => false
  end.

Definition isDenoUriWithFragment (location : LocationOrLink.t) : bool :=
  denoFragmentRegExp_test
    (default "undefined"%string (LocationOrLink.uri location)).

(** The [result] of one client. *)
Inductive Result :=
  | ResultNull
  | ResultOne (location : LocationOrLink.t)
  | ResultMany (locations : list LocationOrLink.t).

Record ResponseEntry := { clientId : Z; result : Result }.

Definition nullEntry : Res (list LocationOrLink.t) :=
  Throw "TypeError: Cannot destructure property 'uri' of null".

(** The locations that [definitionHandler] filters and turns into items:
    a result that is not an array is taken as it is, the entries of an
    array go through [toLocation]. *)
Definition definitionLocations (response : list ResponseEntry)
    : Res (list LocationOrLink.t) :=
  let* flat := mapRes (λ r,
      match result r with
      | ResultNull => nullEntry
      | ResultOne locations => Ok [locations]
      | ResultMany locations => Ok (List.map toLocation locations)
      end) response in
  Ok (List.concat flat).

Definition definitionHandler (runtime : Runtime) (response : list ResponseEntry)
    : Res (list Item.t) :=
  let* locations := definitionLocations response in
  mapRes (locationToItem runtime)
    (List.filter (λ location, negb (isDenoUriWithFragment location)) locations).

Definition referencesLocations (response : list ResponseEntry)
    : Res (list LocationOrLink.t) :=
  let* flat := mapRes (λ r,
      match result r with
      | ResultNull => nullEntry
      | ResultOne locations => Ok [locations]
      | ResultMany locations => Ok locations
      end) response in
  Ok (List.concat flat).

Definition referencesHandler (runtime : Runtime) (response : list ResponseEntry)
    : Res (list Item.t) :=
  let* locations := referencesLocations response in
  mapRes (locationToItem runtime)
    (List.filter (λ location, negb (isDenoUriWithFragment location)) locations).

Record Context := { context_bufNr : Z; context_winId : Z }.

Record Denops := {
  (** [denops.eval] of [require'ddu_nvim_lsp'.request(method, bufNr, winId)] *)
  request : string → Z → Z → Res (option (list ResponseEntry));
}.

(** What a reader of the stream returned by [gather] observes: the chunks
    enqueued, the lines of [console.log], whether the stream was closed,
    and the error it ended with when [start] failed. *)
Record Stream := {
  chunks : list (list Item.t);
  console_log : list string;
  closed : bool;
  errored : option string;
}.

Definition gather (denops : Denops) (runtime : Runtime) (context : Context)
    (method : string) : Stream :=
  if negb (isSupportedMethod method) then
    {| chunks := []; console_log := ["Unsupported method: " +:+ method];
       closed := true; errored := None |}
  else
    match request denops method (context_bufNr context) (context_winId context) with
    | Throw e =>
        {| chunks := []; console_log := []; closed := false; errored := Some e |}
    | Ok None =>
        {| chunks := []; console_log := []; closed := true; errored := None |}
    | Ok (Some response) =>
        match (if bool_decide (method = "textDocument/references")
               then referencesHandler runtime response
               else definitionHandler runtime response) with
        | Ok items =>
            {| chunks := [items]; console_log := []; closed := true;
               errored := None |}
        | Throw e =>
            {| chunks := []; console_log := []; closed := false;
               errored := Some e |}
        end
    end.

End NvimLsp.

(** * Vocabulary of the properties *)

(** The order of the buffers in the sorted items: an item without buffer
    number or of the current buffer comes before any other item, and the
    other items come by ascending buffer number. *)
Definition bufferOrder (curBufNr : Z) (a b : LspDiagnostic.ItemDiagnostic.t) : Prop :=
  match LspDiagnostic.item_bufNr a, LspDiagnostic.item_bufNr b with
  | Some na, Some nb => na = curBufNr ∨ (nb ≠ curBufNr ∧ na ≤ nb)
  | Some na, None => na = curBufNr
  | None, _ => True
  end.

(** A consistent comparator, as ECMAScript defines it for [sort]
    (sec-array.prototype.sort): on the values of [l], [compare a a] is 0,
    being equal is symmetric and transitive, and so are being less and
    being greater transitive.  On such values the result of [sort] is
    the same in every engine; on others it is left to the engine. *)
Definition ConsistentOn {A : Type} (compare : A → A → Z) (l : list A) : Prop :=
  Forall (λ a,
    compare a a = 0
    ∧ Forall (λ b,
        (compare a b = 0 → compare b a = 0)
        ∧ Forall (λ c,
            (compare a b = 0 → compare b c = 0 → compare a c = 0)
            ∧ (compare a b < 0 → compare b c < 0 → compare a c < 0)
            ∧ (0 < compare a b → 0 < compare b c → 0 < compare a c)) l) l) l.

Global Instance ConsistentOn_dec {A : Type} (compare : A → A → Z) (l : list A) :
  Decision (ConsistentOn compare l).
Proof. unfold ConsistentOn. apply _. Defined.

(** The order that a comparator gives to the values of [domain]. *)
Definition orderOn {A : Type} (compare : A → A → Z) (domain : list A)
    (a b : A) : Prop :=
  a ∈ domain ∧ b ∈ domain ∧ compare a b ≤ 0.

(** The reverse of the strict order, which a descending run follows. *)
Definition strictOn {A : Type} (compare : A → A → Z) (domain : list A)
    (a b : A) : Prop :=
  a ∈ domain ∧ b ∈ domain ∧ compare a b < 0.

(** [severity ?? 1] *)
Definition effectiveSeverity (item : LspDiagnostic.ItemDiagnostic.t) : Z :=
  default 1 (LspDiagnostic.item_severity item).

(** The buffer [n] has, among [items], both an item without severity and
    an item of severity 1: two items that the comparator takes for equal
    whatever their lines. *)
Definition mixedSeverity (n : Z) (items : list LspDiagnostic.ItemDiagnostic.t)
    : Prop :=
  Exists (λ item, LspDiagnostic.item_bufNr item = Some n
                  ∧ LspDiagnostic.item_severity item = None) items
  ∧ Exists (λ item, LspDiagnostic.item_bufNr item = Some n
                    ∧ LspDiagnostic.item_severity item = Some 1) items.

(** The sort key of an item with respect to the buffer [n]: the items
    without buffer number or of the current buffer first, then the others
    by buffer number; the items of buffer [n], when [n] is not 0, by
    severity and then by line, the line of an item of severity 1 (or
    without severity) counting only when [lineOfErrors] is set. *)
Definition itemKey (lineOfErrors : bool) (curBufNr n : Z)
    (item : LspDiagnostic.ItemDiagnostic.t) : Z * Z * Z * Z :=
  match LspDiagnostic.item_bufNr item with
  | None => (0, 0, 0, 0)
  | Some m =>
      (if decide (m = curBufNr) then 0 else 1,
       if decide (m = curBufNr) then 0 else m,
       if decide (m = n ∧ m ≠ 0) then effectiveSeverity item else 0,
       if decide (m = n ∧ m ≠ 0)
       then if decide (effectiveSeverity item = 1)
            then if lineOfErrors then LspDiagnostic.item_lineNr item else 0
            else LspDiagnostic.item_lineNr item
       else 0)
  end.

(** What the key asks of an item: a buffer number when the buffer [n] is
    the current one, and, for the line of the items of severity 1, that
    the [severity] of an item of buffer [n] is not [absent] (which is
    either no severity or the severity 1). *)
Definition keyed (lineOfErrors : bool) (absent : option Z) (curBufNr n : Z)
    (item : LspDiagnostic.ItemDiagnostic.t) : Prop :=
  (n = curBufNr → is_Some (LspDiagnostic.item_bufNr item))
  ∧ (lineOfErrors = true → LspDiagnostic.item_bufNr item = Some n →
     LspDiagnostic.item_severity item ≠ absent).

(** The lexicographic order of the keys. *)
Definition keyLe (k1 k2 : Z * Z * Z * Z) : Prop :=
  let '(a1, b1, c1, d1) := k1 in
  let '(a2, b2, c2, d2) := k2 in
  a1 < a2 ∨ (a1 = a2 ∧ (b1 < b2 ∨ (b1 = b2 ∧ (c1 < c2 ∨ (c1 = c2 ∧ d1 ≤ d2))))).

Definition itemKeyLe (lineOfErrors : bool) (curBufNr n : Z)
    (a b : LspDiagnostic.ItemDiagnostic.t) : Prop :=
  keyLe (itemKey lineOfErrors curBufNr n a) (itemKey lineOfErrors curBufNr n b).

(** An item for the examples: word, buffer number, severity and 1-based
    line, with nothing else set. *)
Definition sampleItem (word : string) (bufNr : option Z) (severity : option Z)
    (lineNr : Z) : LspDiagnostic.ItemDiagnostic.t :=
  LspDiagnostic.diagnosticToItem
    (LspDiagnostic.DduDiagnostic.mk
       (LspDiagnostic.Diagnostic.mk
          (Range.mk (Position.mk (lineNr - 1) 0) (Position.mk (lineNr - 1) 0))
          severity None None None word None None None ∅)
       bufNr None).









(** What the canonical record of a coc.nvim record has to carry. *)
Definition cocConverted (raw : LspDiagnostic.CocDiagnostic.t)
    (d : LspDiagnostic.DduDiagnostic.t) : Prop :=
  LspDiagnostic.DduDiagnostic.severity d
    = Some (LspDiagnostic.Severity (LspDiagnostic.CocDiagnostic.severity raw))
  ∧ LspDiagnostic.DduDiagnostic.path d = Some (LspDiagnostic.CocDiagnostic.file raw)
  ∧ LspDiagnostic.DduDiagnostic.range d
    = Location.range (LspDiagnostic.CocDiagnostic.location raw).

(** The groups of vim-lsp, flattened as [getVimLspDiagnostics] does for
    all buffers. *)
Definition vimLspGroups
    (all : list (string * list (string * LspDiagnostic.VimLspDiagnostic.t)))
    : list LspDiagnostic.VimLspDiagnostic.t :=
  List.concat (List.map (λ subRecord, List.map snd (snd subRecord)) all).

(** An editor for the examples: nothing is reported and nothing fails,
    Neovim is the host. *)
Definition quietDenops : LspDiagnostic.Denops :=
  {| LspDiagnostic.meta_host := LspDiagnostic.nvim;
     LspDiagnostic.vim_diagnostic_get := λ _, Ok (Some []);
     LspDiagnostic.CocAction_diagnosticList := Ok (Some []);
     LspDiagnostic.get_all_diagnostics_grouped_by_server_for_uri := λ _, Ok [];
     LspDiagnostic.get_all_diagnostics_grouped_by_uri_and_server := Ok [];
     LspDiagnostic.bufNrToFileUri := λ n, Ok ("file:///buffer/" +:+ pretty n);
     LspDiagnostic.fromFileUrl := λ uri, Ok (String.substring 7 (String.length uri - 7) uri);
     LspDiagnostic.addIconAndHighlight := λ item, Ok item;
     LspDiagnostic.unknownClientName :=
       λ name, "not a client: " +:+ name |}.


Definition sampleNvimRaw : LspDiagnostic.NvimLspDiagnostic.t :=
  LspDiagnostic.NvimLspDiagnostic.mk "M1" (Some 2) (Some "tsserver"%string) None
    2 2 0 4 7 ∅.

Definition sampleCocRaw : LspDiagnostic.CocDiagnostic.t :=
  LspDiagnostic.CocDiagnostic.mk "M1" (Some "tsserver"%string) None "/a"
    (Location.mk "file:///a" (Range.mk (Position.mk 2 0) (Position.mk 2 4)))
    LspDiagnostic.Warning ∅.

Definition sampleVimLspRaw : LspDiagnostic.Diagnostic.t :=
  LspDiagnostic.Diagnostic.mk (Range.mk (Position.mk 2 0) (Position.mk 2 4))
    (Some 2) None None (Some "tsserver"%string) "M1" None None None ∅.

(** An editor in which each of the three backends reports [sampleFixture]
    for the file [/a], which is buffer 7. *)
Definition sampleDenops : LspDiagnostic.Denops :=
  {| LspDiagnostic.meta_host := LspDiagnostic.nvim;
     LspDiagnostic.vim_diagnostic_get := λ _, Ok (Some [sampleNvimRaw]);
     LspDiagnostic.CocAction_diagnosticList := Ok (Some [sampleCocRaw]);
     LspDiagnostic.get_all_diagnostics_grouped_by_server_for_uri := λ _,
       Ok [("tsserver"%string,
            LspDiagnostic.VimLspDiagnostic.mk "file:///a" [sampleVimLspRaw])];
     LspDiagnostic.get_all_diagnostics_grouped_by_uri_and_server :=
       Ok [("file:///a"%string,
            [("tsserver"%string,
              LspDiagnostic.VimLspDiagnostic.mk "file:///a" [sampleVimLspRaw])])];
     LspDiagnostic.bufNrToFileUri := λ n,
       Ok (if decide (n = 7) then "file:///a"%string
           else ("file:///buffer/" +:+ pretty n));
     LspDiagnostic.fromFileUrl := LspDiagnostic.fromFileUrl quietDenops;
     LspDiagnostic.addIconAndHighlight := λ item, Ok item;
     LspDiagnostic.unknownClientName :=
       LspDiagnostic.unknownClientName quietDenops |}.

(** [s] holds the character [c]. *)
Fixpoint containsChar (c : ascii) (s : string) : bool :=
  match s with
  | EmptyString => false
  | String c' s' => Ascii.eqb c' c || containsChar c s'
  end.

(** [s] holds a line terminator: a line feed, a carriage return, U+2028 or
    U+2029 begins at one of its positions. *)
Fixpoint containsLineTerminator (s : string) : bool :=
  match s with
  | EmptyString => false
  | String _ s' => NvimLsp.atLineTerminator s || containsLineTerminator s'
  end.

(** The four percent-encoded characters that the filter looks for after
    [%23]. *)
Definition blockedFragments : list string := ["%5E"; "%7E"; "%3C"; "%3D"]%string.

(** The locations that the handler of [method] works on. *)
Definition locationsOf (method : string) (response : list NvimLsp.ResponseEntry)
    : Res (list NvimLsp.LocationOrLink.t) :=
  if bool_decide (method = "textDocument/references")
  then NvimLsp.referencesLocations response
  else NvimLsp.definitionLocations response.

(** A runtime for the examples: the path of a [file://] URL with an empty
    host whose path needs no escaping is what follows [file://]. *)
(** The value of a hexadecimal digit. *)
Definition hexDigit (c : ascii) : option nat :=
  let n := nat_of_ascii c in
  if (48 <=? n)%nat && (n <=? 57)%nat then Some (n - 48)%nat
  else if (65 <=? n)%nat && (n <=? 70)%nat then Some (n - 55)%nat
  else if (97 <=? n)%nat && (n <=? 102)%nat then Some (n - 87)%nat
  else None.

(** The decoded form of a percent-encoded text: each [%XY] stands for the
    byte of the hexadecimal number XY. *)
Fixpoint percentDecode (s : string) : string :=
  match s with
  | EmptyString => EmptyString
  | String c s1 =>
      match s1 with
      | String x (String y s3) =>
          match Ascii.eqb c "%", hexDigit x, hexDigit y with
          | true, Some high, Some low =>
              String (ascii_of_nat (16 * high + low)) (percentDecode s3)
          | _, _, _ => String c (percentDecode s1)
          end
      | _ => String c (percentDecode s1)
      end
  end.

Definition sampleRuntime : NvimLsp.Runtime :=
  {| NvimLsp.URL_pathname := λ uri,
       if startsWith uri "file:///"
       then Ok (String.substring 7 (String.length uri - 7) uri)
       else Throw "TypeError: Invalid URL" |}.

(** An editor for the examples that answers every request with one client
    and the given result. *)
Definition answering (result : NvimLsp.Result) : NvimLsp.Denops :=
  {| NvimLsp.request := λ _ _ _,
       Ok (Some [{| NvimLsp.clientId := 1; NvimLsp.result := result |}]) |}.

(** An item as the nvim-lsp adapter yields it: with a buffer number, which
    is not 0, and a severity. *)
Definition fullItem (item : LspDiagnostic.ItemDiagnostic.t) : Prop :=
  ∃ n, LspDiagnostic.item_bufNr item = Some n ∧ n ≠ 0
       ∧ ∃ s, LspDiagnostic.item_severity item = Some s.

(** The same editor, except that no file URI is known for any buffer. *)
Definition unnamedDenops : LspDiagnostic.Denops :=
  {| LspDiagnostic.meta_host := LspDiagnostic.meta_host sampleDenops;
     LspDiagnostic.vim_diagnostic_get := LspDiagnostic.vim_diagnostic_get sampleDenops;
     LspDiagnostic.CocAction_diagnosticList :=
       LspDiagnostic.CocAction_diagnosticList sampleDenops;
     LspDiagnostic.get_all_diagnostics_grouped_by_server_for_uri :=
       LspDiagnostic.get_all_diagnostics_grouped_by_server_for_uri sampleDenops;
     LspDiagnostic.get_all_diagnostics_grouped_by_uri_and_server :=
       LspDiagnostic.get_all_diagnostics_grouped_by_uri_and_server sampleDenops;
     LspDiagnostic.bufNrToFileUri := λ _, Ok EmptyString;
     LspDiagnostic.fromFileUrl := LspDiagnostic.fromFileUrl sampleDenops;
     LspDiagnostic.addIconAndHighlight :=
       LspDiagnostic.addIconAndHighlight sampleDenops;
     LspDiagnostic.unknownClientName :=
       LspDiagnostic.unknownClientName sampleDenops |}.

(** The diagnostics that [gather] collects for a scope, in the order of
    the buffers of the scope. *)
Definition scopeDiagnostics (clientName : LspDiagnostic.ClientName)
    (denops : LspDiagnostic.Denops) (context : LspDiagnostic.Context)
    (scope : LspDiagnostic.BufferParam) : Res (list LspDiagnostic.DduDiagnostic.t) :=
  LspDiagnostic.asyncFlatMap (LspDiagnostic.scopeBuffers scope) (λ buffer,
    let* found :=
      LspDiagnostic.getDiagnostic clientName denops
        (LspDiagnostic.resolveBuffer context buffer) in
    Ok (default [] found)).

(** The item of a diagnostic, decorated. *)
Definition decoratedItem (denops : LspDiagnostic.Denops)
    (diagnostic : LspDiagnostic.DduDiagnostic.t) : Res LspDiagnostic.ItemDiagnostic.t :=
  LspDiagnostic.addIconAndHighlight denops
    (LspDiagnostic.diagnosticToItem diagnostic).

(** The stream of a [gather] that enqueued [items] and failed nowhere. *)
Definition oneChunk (items : list LspDiagnostic.ItemDiagnostic.t)
    : LspDiagnostic.Stream :=
  {| LspDiagnostic.chunks := [items];
     LspDiagnostic.printError_calls := [];
     LspDiagnostic.closed := true |}.

(** An entry of a result that is a location: it has [uri] and [range]. *)
Definition isLocation (entry : NvimLsp.LocationOrLink.t) : Prop :=
  is_Some (NvimLsp.LocationOrLink.uri entry)
  ∧ is_Some (NvimLsp.LocationOrLink.range entry).

(** A response in which the entries of every array are locations. *)
Definition arraysOfLocations (response : list NvimLsp.ResponseEntry) : Prop :=
  Forall (λ r, ∀ entries,
            NvimLsp.result r = NvimLsp.ResultMany entries →
            Forall isLocation entries) response.

(** A response in which an array holds an entry without [uri], as a link
    is. *)
Definition holdsLink (response : list NvimLsp.ResponseEntry) : Prop :=
  Exists (λ r, ∃ entries,
            NvimLsp.result r = NvimLsp.ResultMany entries
            ∧ Exists (λ entry, NvimLsp.LocationOrLink.uri entry = None) entries)
    response.

(** The handler that [gather] calls for [method]. *)
Definition handlerOf (method : string) (runtime : NvimLsp.Runtime)
    (response : list NvimLsp.ResponseEntry) : Res (list NvimLsp.Item.t) :=
  if bool_decide (method = "textDocument/references")
  then NvimLsp.referencesHandler runtime response
  else NvimLsp.definitionHandler runtime response.

(** The stream of a [start] that threw [e]. *)
Definition erroredStream (e : string) : NvimLsp.Stream :=
  {| NvimLsp.chunks := []; NvimLsp.console_log := [];
     NvimLsp.closed := false; NvimLsp.errored := Some e |}.

(** [l] is a merge of [l1] and of [l2], which follows it in the array: it
    is built from either end, an element of [l1] goes before the elements
    of [l2] that are left only when [le] allows it, and an element of
    [l2] goes before elements of [l1] that are left only when it is [lt]
    them. *)
Inductive Merged {A : Type} (le lt : relation A)
    : list A → list A → list A → Prop :=
  | Merged_nil : Merged le lt [] [] []
  | Merged_first_a a l1 l2 l :
      Merged le lt l1 l2 l → Forall (le a) l2 →
      Merged le lt (a :: l1) l2 (a :: l)
  | Merged_first_b b l1 l2 l :
      Merged le lt l1 l2 l → Forall (lt b) l1 →
      Merged le lt l1 (b :: l2) (b :: l)
  | Merged_last_a a l1 l2 l :
      Merged le lt l1 l2 l → Forall (λ b, lt b a) l2 →
      Merged le lt (l1 ++ [a]) l2 (l ++ [a])
  | Merged_last_b b l1 l2 l :
      Merged le lt l1 l2 l → Forall (λ a, le a b) l1 →
      Merged le lt l1 (l2 ++ [b]) (l ++ [b]).

(** The pending runs of a sort state are runs: none is empty, and each
    is sorted by [le], with elements that satisfy [P]. *)
Definition PendingSorted {A : Type} (P : A → Prop) (le : relation A)
    (state : ArraySort.SortState (A := A)) : Prop :=
  Forall (λ run, run ≠ [] ∧ Forall P run ∧ StronglySorted le run)
    (ArraySort.pendingRuns state).

(** * Properties of the array sort *)

Section ArraySortFacts.
Context {A : Type} (compare : A → A → Z).

Lemma extendRun_app isDescending previousElement rest run remaining :
  ArraySort.extendRun compare isDescending previousElement rest = (run, remaining) →
  rest = run ++ remaining.
Proof.
  revert previousElement run remaining.
  induction rest as [|x rest IH]; intros prev run remaining; simpl.
  - intros [= <- <-]. done.
  - destruct (if isDescending then _ else _).
    + destruct (ArraySort.extendRun compare isDescending x rest)
        as [run' remaining'] eqn:E.
      intros [= <- <-]. simpl. f_equal. by eapply IH.
    + intros [= <- <-]. done.
Qed.

Lemma countAndMakeRun_perm work run remaining :
  ArraySort.countAndMakeRun compare work = (run, remaining) →
  run ++ remaining ≡ₚ work.
Proof.
  destruct work as [|x0 [|x1 rest]]; simpl.
  - intros [= <- <-]. done.
  - intros [= <- <-]. done.
  - destruct (ArraySort.extendRun compare _ x1 rest) as [run' remaining'] eqn:E.
    apply extendRun_app in E. subst rest.
    intros [= <- <-].
    destruct (bool_decide _).
    + rewrite reverse_Permutation. done.
    + done.
Qed.

Lemma binarySearch_step fuel work pivot left right :
  ArraySort.binarySearch compare (S fuel) work pivot left right =
  if decide (left < right)%nat then
    match work !! (left + (right - left) / 2)%nat with
    | Some element =>
        if decide (compare pivot element < 0)
        then ArraySort.binarySearch compare fuel work pivot left
               (left + (right - left) / 2)
        else ArraySort.binarySearch compare fuel work pivot
               (S (left + (right - left) / 2)) right
    | None => left
    end
  else left.
Proof. reflexivity. Qed.

(** The invariant of the binary search, for any property [L] of what lies
    left of the insertion point and [G] of what lies right of it. *)
Lemma binarySearch_inv (L G : A → Prop) fuel work pivot left right :
  (right - left ≤ fuel)%nat →
  (left ≤ right ≤ length work)%nat →
  (∀ i x, work !! i = Some x → compare pivot x < 0 →
     ∀ j y, (i ≤ j)%nat → work !! j = Some y → G y) →
  (∀ i x, work !! i = Some x → 0 ≤ compare pivot x →
     ∀ j y, (j ≤ i)%nat → work !! j = Some y → L y) →
  (∀ j y, (j < left)%nat → work !! j = Some y → L y) →
  (∀ j y, (right ≤ j)%nat → work !! j = Some y → G y) →
  ∃ pos, ArraySort.binarySearch compare fuel work pivot left right = pos
  ∧ (left ≤ pos ≤ right)%nat
  ∧ (∀ j y, (j < pos)%nat → work !! j = Some y → L y)
  ∧ (∀ j y, (pos ≤ j)%nat → work !! j = Some y → G y).
Proof.
  intros Hfuel Hbounds Hlt Hge. revert left right Hfuel Hbounds.
  induction fuel as [|fuel IH]; intros left right Hfuel Hbounds HL HG;
    [simpl|rewrite binarySearch_step].
  - assert (left = right) as -> by lia.
    exists right. split_and!; [done|lia..|done|done].
  - destruct (decide (left < right)%nat) as [Hlr|Hlr]; last first.
    { assert (left = right) as -> by lia.
      exists right. split_and!; [done|lia..|done|done]. }
    assert (left ≤ left + (right - left) / 2 < right)%nat as Hmid.
    { split; [lia|].
      assert ((right - left) / 2 < right - left)%nat; [|lia].
      apply Nat.div_lt; lia. }
    generalize dependent (left + (right - left) / 2)%nat. intros mid Hmid.
    destruct (lookup_lt_is_Some_2 work mid) as [element Helement]; [lia|].
    rewrite Helement.
    destruct (decide (compare pivot element < 0)) as [Hc|Hc].
    + destruct (IH left mid) as (pos & Heq & Hpos & HL' & HG'); [lia|lia|done| |].
      { intros j y Hj. eapply Hlt; eauto. }
      exists pos. split_and!; [done|lia|lia|done|done].
    + destruct (IH (S mid) right) as (pos & Heq & Hpos & HL' & HG'); [lia|lia| |done|].
      { intros j y Hj. eapply Hge; eauto; lia. }
      exists pos. split_and!; [done|lia|lia|done|done].
Qed.

Lemma insertionPoint_le work pivot :
  (ArraySort.insertionPoint compare work pivot ≤ length work)%nat.
Proof.
  unfold ArraySort.insertionPoint.
  destruct (binarySearch_inv (λ _, True) (λ _, True)
              (length work) work pivot 0%nat (length work))
    as (pos & -> & H & _); [lia|lia|done..|lia].
Qed.

Lemma binaryInsert_perm work pivot :
  ArraySort.binaryInsert compare work pivot ≡ₚ work ++ [pivot].
Proof.
  unfold ArraySort.binaryInsert.
  rewrite <- Permutation_middle, take_drop.
  apply Permutation_cons_append.
Qed.

Lemma binaryInsertionSort_perm remaining run :
  ArraySort.binaryInsertionSort compare run remaining ≡ₚ run ++ remaining.
Proof.
  unfold ArraySort.binaryInsertionSort.
  revert run. induction remaining as [|x remaining IH]; intros run; simpl.
  - by rewrite app_nil_r.
  - rewrite IH, binaryInsert_perm, <- app_assoc. done.
Qed.

Lemma StronglySorted_lookup (R : relation A) l i j x y :
  StronglySorted R l → (i < j)%nat →
  l !! i = Some x → l !! j = Some y → R x y.
Proof.
  intros Hs. revert i j. induction Hs as [|a l Hs IH Hall]; intros i j Hij Hi Hj.
  - done.
  - destruct j as [|j]; [lia|]. simpl in Hj.
    destruct i as [|i]; simpl in Hi.
    + injection Hi as <-. rewrite Forall_forall in Hall.
      apply Hall. by eapply list_elem_of_lookup_2.
    + eapply IH; [|done..]. lia.
Qed.

Lemma StronglySorted_reverse (R : relation A) l :
  StronglySorted (flip R) l → StronglySorted R (reverse l).
Proof.
  induction 1 as [|a l Hs IH Hall].
  - constructor.
  - rewrite reverse_cons. apply StronglySorted_app_2; [|done|].
    + intros x1 x2 Hx1 ->%list_elem_of_singleton.
      rewrite Forall_forall in Hall. apply Hall.
      by apply elem_of_reverse.
    + repeat constructor.
Qed.

Lemma countAndMakeRun_length work run remaining :
  ArraySort.countAndMakeRun compare work = (run, remaining) →
  work ≠ [] → run ≠ [].
Proof.
  destruct work as [|x0 [|x1 rest]]; simpl; [done|by intros [= <- <-]|].
  destruct (ArraySort.extendRun compare _ x1 rest) as [run' remaining'].
  intros [= <- <-] _. destruct (bool_decide _); [|done].
  rewrite !reverse_cons. by destruct (reverse run').
Qed.

Lemma nextRun_perm minRunLength remaining run rest :
  ArraySort.nextRun compare minRunLength remaining = (run, rest) →
  run ++ rest ≡ₚ remaining.
Proof.
  unfold ArraySort.nextRun.
  destruct (ArraySort.countAndMakeRun compare remaining) as [run0 rest0] eqn:E.
  apply countAndMakeRun_perm in E.
  destruct (decide _); intros [= <- <-]; [|done].
  by rewrite binaryInsertionSort_perm, <- app_assoc, take_drop.
Qed.

Lemma nextRun_length minRunLength remaining run rest :
  ArraySort.nextRun compare minRunLength remaining = (run, rest) →
  remaining ≠ [] → run ≠ [] ∧ (length rest < length remaining)%nat.
Proof.
  intros Hnext Hne. pose proof (nextRun_perm _ _ _ _ Hnext) as Hperm.
  assert (run ≠ []) as Hrun.
  { revert Hnext. unfold ArraySort.nextRun.
    destruct (ArraySort.countAndMakeRun compare remaining) as [run0 rest0] eqn:E.
    pose proof (countAndMakeRun_length _ _ _ E Hne) as Hrun0.
    destruct (decide _); intros [= <- <-]; [|done].
    intros Heq.
    pose proof (binaryInsertionSort_perm
                  (take (minRunLength `min` length remaining - length run0) rest0)
                  run0) as Hp.
    rewrite Heq in Hp. symmetry in Hp. apply Permutation_nil_r in Hp.
    by destruct run0. }
  split; [done|].
  apply Permutation_length in Hperm. rewrite length_app in Hperm.
  destruct run; [done|simpl in *; lia].
Qed.
End ArraySortFacts.

(** ** Sorting by a key the comparator respects

    [le] is an order on the elements that satisfy [P], and the comparator
    never contradicts it: a negative answer for [(a, b)] means [le a b], any
    other answer means [le b a].  Nothing is asked of the comparator on two
    elements that [le] relates both ways.  Then the sorted array is ordered
    by [le]. *)
Section KeyOrder.
Context {A : Type} (compare : A → A → Z) (P : A → Prop) (le : relation A).
Hypothesis le_trans : ∀ a b c, le a b → le b c → le a c.
Hypothesis compare_neg : ∀ a b, P a → P b → compare a b < 0 → le a b.
Hypothesis compare_nonneg : ∀ a b, P a → P b → 0 ≤ compare a b → le b a.

Lemma extendRun_ascending previousElement rest run remaining :
  P previousElement → Forall P rest →
  ArraySort.extendRun compare false previousElement rest = (run, remaining) →
  StronglySorted le (previousElement :: run).
Proof.
  revert previousElement run remaining.
  induction rest as [|x rest IH]; intros prev run remaining Hprev Hrest; simpl.
  - intros [= <- <-]. repeat constructor.
  - apply Forall_cons in Hrest as [Hx Hrest].
    case_bool_decide as Hc.
    + destruct (ArraySort.extendRun compare false x rest) as [run' rem'] eqn:E.
      intros [= <- <-].
      specialize (IH x run' rem' Hx Hrest E).
      constructor; [done|].
      assert (le prev x) as Hpx by (by apply compare_nonneg).
      constructor; [done|].
      apply StronglySorted_inv in IH as [_ Hall].
      eapply Forall_impl; [exact Hall|]. intros y Hy. by eapply le_trans.
    + intros [= <- <-]. repeat constructor.
Qed.

Lemma extendRun_descending previousElement rest run remaining :
  P previousElement → Forall P rest →
  ArraySort.extendRun compare true previousElement rest = (run, remaining) →
  StronglySorted (flip le) (previousElement :: run).
Proof.
  revert previousElement run remaining.
  induction rest as [|x rest IH]; intros prev run remaining Hprev Hrest; simpl.
  - intros [= <- <-]. repeat constructor.
  - apply Forall_cons in Hrest as [Hx Hrest].
    case_bool_decide as Hc.
    + destruct (ArraySort.extendRun compare true x rest) as [run' rem'] eqn:E.
      intros [= <- <-].
      specialize (IH x run' rem' Hx Hrest E).
      constructor; [done|].
      assert (le x prev) as Hpx by (by apply compare_neg).
      constructor; [done|].
      apply StronglySorted_inv in IH as [_ Hall].
      eapply Forall_impl; [exact Hall|]. intros y Hy.
      unfold flip in *. by eapply le_trans.
    + intros [= <- <-]. repeat constructor.
Qed.

Lemma countAndMakeRun_sorted work run remaining :
  Forall P work →
  ArraySort.countAndMakeRun compare work = (run, remaining) →
  StronglySorted le run.
Proof.
  destruct work as [|x0 [|x1 rest]]; simpl; intros HP.
  - intros [= <- <-]. constructor.
  - intros [= <- <-]. repeat constructor.
  - apply Forall_cons in HP as [H0 HP]. apply Forall_cons in HP as [H1 HP].
    destruct (ArraySort.extendRun compare _ x1 rest) as [run' rem'] eqn:E.
    intros [= <- <-].
    case_bool_decide as Hc.
    + apply StronglySorted_reverse.
      pose proof (extendRun_descending _ _ _ _ H1 HP E) as Hs.
      assert (le x1 x0) as H10 by (by apply compare_neg).
      constructor; [done|]. constructor; [done|].
      apply StronglySorted_inv in Hs as [_ Hall].
      eapply Forall_impl; [exact Hall|]. intros y Hy.
      unfold flip in *. by eapply le_trans.
    + pose proof (extendRun_ascending _ _ _ _ H1 HP E) as Hs.
      assert (le x0 x1) as H01 by (apply compare_nonneg; [done..|lia]).
      constructor; [done|]. constructor; [done|].
      apply StronglySorted_inv in Hs as [_ Hall].
      eapply Forall_impl; [exact Hall|]. intros y Hy. by eapply le_trans.
Qed.

Lemma insertionPoint_sorted work pivot :
  Forall P work → P pivot → StronglySorted le work →
  Forall (λ x, le x pivot) (take (ArraySort.insertionPoint compare work pivot) work)
  ∧ Forall (le pivot) (drop (ArraySort.insertionPoint compare work pivot) work).
Proof.
  intros HP Hpivot Hs. unfold ArraySort.insertionPoint.
  rewrite Forall_lookup in HP.
  destruct (binarySearch_inv compare (λ x, le x pivot) (le pivot)
              (length work) work pivot 0%nat (length work))
    as (pos & -> & Hpos & HL & HG); [lia|lia| | |intros; lia|..].
  - intros i x Hi Hc j y Hij Hj.
    assert (le pivot x) by (apply compare_neg; eauto).
    destruct (decide (i = j)) as [->|Hne]; [congruence|].
    eapply le_trans; [done|].
    eapply (StronglySorted_lookup le work i j); [done|lia|done..].
  - intros i x Hi Hc j y Hij Hj.
    assert (le x pivot) by (apply compare_nonneg; eauto).
    destruct (decide (i = j)) as [->|Hne]; [congruence|].
    eapply le_trans; [|done].
    eapply (StronglySorted_lookup le work j i); [done|lia|done..].
  - intros j y Hj Hy. apply lookup_lt_Some in Hy. lia.
  - split; apply Forall_lookup; intros i x Hix.
    + apply lookup_take_Some in Hix as [Hix Hlt]. by eapply HL.
    + rewrite lookup_drop in Hix. eapply HG; [|done]. lia.
Qed.

Lemma binaryInsert_sorted work pivot :
  Forall P work → P pivot → StronglySorted le work →
  StronglySorted le (ArraySort.binaryInsert compare work pivot).
Proof.
  intros HP Hpivot Hs.
  destruct (insertionPoint_sorted work pivot HP Hpivot Hs) as [HL HG].
  unfold ArraySort.binaryInsert.
  rewrite <- (take_drop (ArraySort.insertionPoint compare work pivot) work) in Hs.
  apply StronglySorted_app in Hs as (Hcross & Hs1 & Hs2).
  apply StronglySorted_app_2; [|done|by constructor].
  intros x1 x2 Hx1 [->|Hx2]%elem_of_cons.
  - rewrite Forall_forall in HL. by apply HL.
  - by apply Hcross.
Qed.

Lemma binaryInsertionSort_sorted remaining run :
  Forall P run → Forall P remaining → StronglySorted le run →
  StronglySorted le (ArraySort.binaryInsertionSort compare run remaining).
Proof.
  unfold ArraySort.binaryInsertionSort.
  revert run. induction remaining as [|x remaining IH]; intros run Hrun Hrem Hs; simpl.
  - done.
  - apply Forall_cons in Hrem as [Hx Hrem].
    apply IH; [|done|by apply binaryInsert_sorted].
    rewrite binaryInsert_perm. apply Forall_app. split; [done|by constructor].
Qed.


Lemma nextRun_sorted minRunLength remaining run rest :
  Forall P remaining →
  ArraySort.nextRun compare minRunLength remaining = (run, rest) →
  StronglySorted le run.
Proof.
  intros HP. unfold ArraySort.nextRun.
  destruct (ArraySort.countAndMakeRun compare remaining) as [run0 rest0] eqn:E.
  pose proof (countAndMakeRun_perm compare _ _ _ E) as Hperm.
  rewrite <- Hperm in HP. apply Forall_app in HP as [Hrun Hrest].
  assert (StronglySorted le run0) as Hs.
  { eapply countAndMakeRun_sorted; [|exact E].
    rewrite <- Hperm. by apply Forall_app. }
  destruct (decide _); intros [= <- <-]; [|done].
  apply binaryInsertionSort_sorted; [done|by apply Forall_take|done].
Qed.
End KeyOrder.


(** ** Merges *)

Section MergedFacts.
Context {A : Type} (le lt : relation A).

Lemma Merged_left_only l1 : Merged le lt l1 [] l1.
Proof.
  induction l1 as [|a l1 IH]; [constructor|].
  by apply Merged_first_a.
Qed.

Lemma Merged_right_only l2 : Merged le lt [] l2 l2.
Proof.
  induction l2 as [|b l2 IH]; [constructor|].
  by apply Merged_first_b.
Qed.

(** Elements of [l1] that go first. *)
Lemma Merged_app_a won l1 l2 l :
  Merged le lt l1 l2 l → Forall (λ a, Forall (le a) l2) won →
  Merged le lt (won ++ l1) l2 (won ++ l).
Proof.
  intros Hl. induction 1 as [|a won Ha _ IH]; [done|].
  simpl. by apply Merged_first_a.
Qed.

(** Elements of [l2] that go first. *)
Lemma Merged_app_b won l1 l2 l :
  Merged le lt l1 l2 l → Forall (λ b, Forall (lt b) l1) won →
  Merged le lt l1 (won ++ l2) (won ++ l).
Proof.
  intros Hl. induction 1 as [|b won Hb _ IH]; [done|].
  simpl. by apply Merged_first_b.
Qed.

(** Elements of [l1] that go last. *)
Lemma Merged_snoc_a won l1 l2 l :
  Merged le lt l1 l2 l → Forall (λ a, Forall (λ b, lt b a) l2) won →
  Merged le lt (l1 ++ won) l2 (l ++ won).
Proof.
  intros Hl Hwon. revert l1 l Hl.
  induction Hwon as [|a won Ha _ IH]; intros l1 l Hl.
  - by rewrite !app_nil_r.
  - rewrite !(cons_middle a), !app_assoc. apply IH.
    by apply Merged_last_a.
Qed.

(** Elements of [l2] that go last. *)
Lemma Merged_snoc_b won l1 l2 l :
  Merged le lt l1 l2 l → Forall (λ b, Forall (λ a, le a b) l1) won →
  Merged le lt l1 (l2 ++ won) (l ++ won).
Proof.
  intros Hl Hwon. revert l2 l Hl.
  induction Hwon as [|b won Hb _ IH]; intros l2 l Hl.
  - by rewrite !app_nil_r.
  - rewrite !(cons_middle b), !app_assoc. apply IH.
    by apply Merged_last_b.
Qed.

Lemma Merged_perm l1 l2 l : Merged le lt l1 l2 l → l ≡ₚ l1 ++ l2.
Proof.
  induction 1 as [|a l1 l2 l _ IH _|b l1 l2 l _ IH _
                  |a l1 l2 l _ IH _|b l1 l2 l _ IH _].
  - done.
  - simpl. by rewrite IH.
  - rewrite IH. apply Permutation_middle.
  - rewrite IH, <- !app_assoc. f_equiv. apply Permutation_app_comm.
  - by rewrite IH, app_assoc.
Qed.

(** A merge of two sorted runs is sorted. *)
Lemma Merged_sorted l1 l2 l :
  (∀ a b, lt a b → le a b) →
  Merged le lt l1 l2 l →
  StronglySorted le l1 → StronglySorted le l2 → StronglySorted le l.
Proof.
  intros lt_le.
  induction 1 as [|a l1 l2 l Hl IH Ha|b l1 l2 l Hl IH Hb
                  |a l1 l2 l Hl IH Ha|b l1 l2 l Hl IH Hb]; intros H1 H2.
  - constructor.
  - apply StronglySorted_inv in H1 as [H1 Hall].
    constructor; [by apply IH|].
    rewrite (Merged_perm _ _ _ Hl). by apply Forall_app.
  - apply StronglySorted_inv in H2 as [H2 Hall].
    constructor; [by apply IH|].
    rewrite (Merged_perm _ _ _ Hl). apply Forall_app. split; [|done].
    eapply Forall_impl; [exact Hb|]. auto.
  - apply StronglySorted_app in H1 as (Hcross & H1 & _).
    apply StronglySorted_app_2; [|by apply IH|repeat constructor].
    intros x y Hx ->%list_elem_of_singleton.
    rewrite (Merged_perm _ _ _ Hl) in Hx.
    apply elem_of_app in Hx as [Hx|Hx].
    + apply Hcross; [done|apply list_elem_of_here].
    + rewrite Forall_forall in Ha. by apply lt_le, Ha.
  - apply StronglySorted_app in H2 as (Hcross & H2 & _).
    apply StronglySorted_app_2; [|by apply IH|repeat constructor].
    intros x y Hx ->%list_elem_of_singleton.
    rewrite (Merged_perm _ _ _ Hl) in Hx.
    apply elem_of_app in Hx as [Hx|Hx].
    + rewrite Forall_forall in Hb. by apply Hb.
    + apply Hcross; [done|apply list_elem_of_here].
Qed.
End MergedFacts.

(** ** Galloping *)

Section GallopFacts.
Context {A : Type} (compare : A → A → Z).

(** The galloping loop ends between an offset that is known to be good
    and one at which the search found what it looked for, or the end. *)
Lemma gallop_inv (Good : nat → Prop) fuel found maxOfs lastOfs offset :
  (lastOfs < offset)%nat → (lastOfs < maxOfs)%nat →
  (maxOfs ≤ fuel + offset)%nat →
  Good lastOfs →
  (∀ o, (o < maxOfs)%nat → found o = false → Good o) →
  ∃ l o, ArraySort.gallop fuel found maxOfs lastOfs offset = (l, o)
    ∧ (l < o)%nat ∧ (l < maxOfs)%nat ∧ Good l
    ∧ ((o < maxOfs)%nat → found o = true).
Proof.
  intros Hlo Hlm Hfuel Hgood Hstep. revert lastOfs offset Hlo Hlm Hfuel Hgood.
  induction fuel as [|fuel IH]; intros lastOfs offset Hlo Hlm Hfuel Hgood;
    cbn [ArraySort.gallop].
  - exists lastOfs, offset. split_and!; [done..|lia].
  - destruct (decide (offset < maxOfs)%nat) as [Hom|Hom].
    + destruct (found offset) eqn:Hfound.
      * exists lastOfs, offset. by split_and!.
      * apply IH; [lia|done|lia|by apply Hstep].
    + exists lastOfs, offset. split_and!; [done..|lia].
Qed.

Lemma searchRight_inv (L G : A → Prop) fuel array key lastOfs offset :
  (offset - lastOfs ≤ fuel)%nat →
  (lastOfs ≤ offset ≤ length array)%nat →
  (∀ i x, array !! i = Some x → compare key x < 0 →
     ∀ j y, (i ≤ j)%nat → array !! j = Some y → G y) →
  (∀ i x, array !! i = Some x → 0 ≤ compare key x →
     ∀ j y, (j ≤ i)%nat → array !! j = Some y → L y) →
  (∀ j y, (j < lastOfs)%nat → array !! j = Some y → L y) →
  (∀ j y, (offset ≤ j)%nat → array !! j = Some y → G y) →
  ∃ pos, ArraySort.searchRight compare fuel array key lastOfs offset = pos
  ∧ (lastOfs ≤ pos ≤ offset)%nat
  ∧ (∀ j y, (j < pos)%nat → array !! j = Some y → L y)
  ∧ (∀ j y, (pos ≤ j)%nat → array !! j = Some y → G y).
Proof.
  intros Hfuel Hbounds Hlt Hge. revert lastOfs offset Hfuel Hbounds.
  induction fuel as [|fuel IH]; intros lastOfs offset Hfuel Hbounds HL HG;
    cbn [ArraySort.searchRight].
  - assert (lastOfs = offset) as -> by lia.
    exists offset. split_and!; [done|lia..|done|done].
  - destruct (decide (lastOfs < offset)%nat) as [Hlo|Hlo]; last first.
    { assert (lastOfs = offset) as -> by lia.
      exists offset. split_and!; [done|lia..|done|done]. }
    assert (lastOfs ≤ lastOfs + (offset - lastOfs) / 2 < offset)%nat as Hm.
    { split; [lia|].
      assert ((offset - lastOfs) / 2 < offset - lastOfs)%nat; [|lia].
      apply Nat.div_lt; lia. }
    generalize dependent (lastOfs + (offset - lastOfs) / 2)%nat. intros m Hm.
    destruct (lookup_lt_is_Some_2 array m) as [element Helement]; [lia|].
    rewrite Helement.
    destruct (decide (compare key element < 0)) as [Hc|Hc].
    + destruct (IH lastOfs m) as (pos & Heq & Hpos & HL' & HG'); [lia|lia|done| |].
      { intros j y Hj. eapply Hlt; eauto. }
      exists pos. split_and!; [done|lia|lia|done|done].
    + destruct (IH (S m) offset) as (pos & Heq & Hpos & HL' & HG'); [lia|lia| |done|].
      { intros j y Hj. eapply Hge; eauto; lia. }
      exists pos. split_and!; [done|lia|lia|done|done].
Qed.

Lemma searchLeft_inv (L G : A → Prop) fuel array key lastOfs offset :
  (offset - lastOfs ≤ fuel)%nat →
  (lastOfs ≤ offset ≤ length array)%nat →
  (∀ i x, array !! i = Some x → 0 ≤ compare x key →
     ∀ j y, (i ≤ j)%nat → array !! j = Some y → G y) →
  (∀ i x, array !! i = Some x → compare x key < 0 →
     ∀ j y, (j ≤ i)%nat → array !! j = Some y → L y) →
  (∀ j y, (j < lastOfs)%nat → array !! j = Some y → L y) →
  (∀ j y, (offset ≤ j)%nat → array !! j = Some y → G y) →
  ∃ pos, ArraySort.searchLeft compare fuel array key lastOfs offset = pos
  ∧ (lastOfs ≤ pos ≤ offset)%nat
  ∧ (∀ j y, (j < pos)%nat → array !! j = Some y → L y)
  ∧ (∀ j y, (pos ≤ j)%nat → array !! j = Some y → G y).
Proof.
  intros Hfuel Hbounds Hge Hlt. revert lastOfs offset Hfuel Hbounds.
  induction fuel as [|fuel IH]; intros lastOfs offset Hfuel Hbounds HL HG;
    cbn [ArraySort.searchLeft].
  - assert (lastOfs = offset) as -> by lia.
    exists offset. split_and!; [done|lia..|done|done].
  - destruct (decide (lastOfs < offset)%nat) as [Hlo|Hlo]; last first.
    { assert (lastOfs = offset) as -> by lia.
      exists offset. split_and!; [done|lia..|done|done]. }
    assert (lastOfs ≤ lastOfs + (offset - lastOfs) / 2 < offset)%nat as Hm.
    { split; [lia|].
      assert ((offset - lastOfs) / 2 < offset - lastOfs)%nat; [|lia].
      apply Nat.div_lt; lia. }
    generalize dependent (lastOfs + (offset - lastOfs) / 2)%nat. intros m Hm.
    destruct (lookup_lt_is_Some_2 array m) as [element Helement]; [lia|].
    rewrite Helement.
    destruct (decide (compare element key < 0)) as [Hc|Hc].
    + destruct (IH (S m) offset) as (pos & Heq & Hpos & HL' & HG'); [lia|lia| |done|].
      { intros j y Hj. eapply Hlt; eauto; lia. }
      exists pos. split_and!; [done|lia|lia|done|done].
    + destruct (IH lastOfs m) as (pos & Heq & Hpos & HL' & HG'); [lia|lia|done| |].
      { intros j y Hj. eapply Hge; eauto; lia. }
      exists pos. split_and!; [done|lia|lia|done|done].
Qed.

(** [GallopRight] returns a place in the array with, left of it, what the
    answers of the comparator put left of the key and, from it on, what
    they put right of it. *)
Lemma gallopRight_inv (L G : A → Prop) array key hint :
  (hint < length array)%nat →
  (∀ i x, array !! i = Some x → compare key x < 0 →
     ∀ j y, (i ≤ j)%nat → array !! j = Some y → G y) →
  (∀ i x, array !! i = Some x → 0 ≤ compare key x →
     ∀ j y, (j ≤ i)%nat → array !! j = Some y → L y) →
  ∃ pos, ArraySort.gallopRight compare array key hint = pos
  ∧ (pos ≤ length array)%nat
  ∧ (∀ j y, (j < pos)%nat → array !! j = Some y → L y)
  ∧ (∀ j y, (pos ≤ j)%nat → array !! j = Some y → G y).
Proof.
  intros Hhint Hlt Hge. unfold ArraySort.gallopRight.
  destruct (lookup_lt_is_Some_2 array hint Hhint) as [base Hbase].
  rewrite Hbase.
  destruct (decide (compare key base < 0)) as [Hc|Hc].
  - (* key < a[hint]: gallop left *)
    destruct (gallop_inv
                (λ o, ∀ j y, (hint - o ≤ j)%nat → array !! j = Some y → G y)
                (hint + 1)%nat
                (λ offset,
                   match array !! (hint - offset)%nat with
                   | Some offsetElement => bool_decide (0 ≤ compare key offsetElement)
                   | None => true
                   end) (hint + 1)%nat 0%nat 1%nat)
      as (l & o & -> & Hlo & Hlm & Hgood & Hfound); [lia..| | |].
    { intros j y Hj. eapply Hlt; eauto. lia. }
    { intros o' Ho'.
      destruct (lookup_lt_is_Some_2 array (hint - o')) as [e He]; [lia|].
      rewrite He. intros Hf%bool_decide_eq_false j y Hj.
      eapply Hlt; eauto. lia. }
    destruct (searchRight_inv L G (length array) array key
                (hint + 1 - (if decide (hint + 1 < o)%nat then hint + 1 else o))%nat
                (hint - l)%nat)
      as (pos & Heq & Hpos & HL & HG); [case_decide; lia|case_decide; lia|done|done| |done|].
    + intros j y Hj Hy. case_decide as Ho; [lia|].
      destruct (decide (o < hint + 1)%nat) as [Holt|Hoge]; [|lia].
      specialize (Hfound Holt).
      destruct (lookup_lt_is_Some_2 array (hint - o)) as [e He]; [lia|].
      rewrite He in Hfound. apply bool_decide_eq_true in Hfound.
      eapply Hge; [exact He|done| |done]. lia.
    + exists pos. split_and!; [done|lia|done..].
  - (* a[hint] <= key: gallop right *)
    destruct (gallop_inv
                (λ o, ∀ j y, (j ≤ hint + o)%nat → array !! j = Some y → L y)
                (length array - hint)%nat
                (λ offset,
                   match array !! (hint + offset)%nat with
                   | Some offsetElement => bool_decide (compare key offsetElement < 0)
                   | None => true
                   end) (length array - hint)%nat 0%nat 1%nat)
      as (l & o & -> & Hlo & Hlm & Hgood & Hfound); [lia..| | |].
    { intros j y Hj. eapply Hge; eauto; lia. }
    { intros o' Ho'.
      destruct (lookup_lt_is_Some_2 array (hint + o')) as [e He]; [lia|].
      rewrite He. intros Hf%bool_decide_eq_false j y Hj.
      eapply Hge; eauto. lia. }
    destruct (searchRight_inv L G (length array) array key
                (l + hint + 1)%nat
                ((if decide (length array - hint < o)%nat
                  then length array - hint else o) + hint)%nat)
      as (pos & Heq & Hpos & HL & HG); [case_decide; lia|case_decide; lia|done|done| | |].
    + intros j y Hj. apply Hgood. lia.
    + intros j y Hj Hy. case_decide as Ho.
      { apply lookup_lt_Some in Hy. lia. }
      destruct (decide (o < length array - hint)%nat) as [Holt|Hoge].
      * specialize (Hfound Holt).
        destruct (lookup_lt_is_Some_2 array (hint + o)) as [e He]; [lia|].
        rewrite He in Hfound. apply bool_decide_eq_true in Hfound.
        eapply Hlt; [exact He|done| |done]. lia.
      * apply lookup_lt_Some in Hy. lia.
    + exists pos. split_and!; [done|case_decide; lia|done..].
Qed.

(** [GallopLeft], likewise. *)
Lemma gallopLeft_inv (L G : A → Prop) array key hint :
  (hint < length array)%nat →
  (∀ i x, array !! i = Some x → 0 ≤ compare x key →
     ∀ j y, (i ≤ j)%nat → array !! j = Some y → G y) →
  (∀ i x, array !! i = Some x → compare x key < 0 →
     ∀ j y, (j ≤ i)%nat → array !! j = Some y → L y) →
  ∃ pos, ArraySort.gallopLeft compare array key hint = pos
  ∧ (pos ≤ length array)%nat
  ∧ (∀ j y, (j < pos)%nat → array !! j = Some y → L y)
  ∧ (∀ j y, (pos ≤ j)%nat → array !! j = Some y → G y).
Proof.
  intros Hhint Hge Hlt. unfold ArraySort.gallopLeft.
  destruct (lookup_lt_is_Some_2 array hint Hhint) as [base Hbase].
  rewrite Hbase.
  destruct (decide (compare base key < 0)) as [Hc|Hc].
  - (* a[hint] < key: gallop right *)
    destruct (gallop_inv
                (λ o, ∀ j y, (j ≤ hint + o)%nat → array !! j = Some y → L y)
                (length array - hint)%nat
                (λ offset,
                   match array !! (hint + offset)%nat with
                   | Some offsetElement => bool_decide (0 ≤ compare offsetElement key)
                   | None => true
                   end) (length array - hint)%nat 0%nat 1%nat)
      as (l & o & -> & Hlo & Hlm & Hgood & Hfound); [lia..| | |].
    { intros j y Hj. eapply Hlt; eauto; lia. }
    { intros o' Ho'.
      destruct (lookup_lt_is_Some_2 array (hint + o')) as [e He]; [lia|].
      rewrite He. intros Hf%bool_decide_eq_false j y Hj.
      eapply Hlt; eauto. lia. }
    destruct (searchLeft_inv L G (length array) array key
                (l + hint + 1)%nat
                ((if decide (length array - hint < o)%nat
                  then length array - hint else o) + hint)%nat)
      as (pos & Heq & Hpos & HL & HG); [case_decide; lia|case_decide; lia|done|done| | |].
    + intros j y Hj. apply Hgood. lia.
    + intros j y Hj Hy. case_decide as Ho.
      { apply lookup_lt_Some in Hy. lia. }
      destruct (decide (o < length array - hint)%nat) as [Holt|Hoge].
      * specialize (Hfound Holt).
        destruct (lookup_lt_is_Some_2 array (hint + o)) as [e He]; [lia|].
        rewrite He in Hfound. apply bool_decide_eq_true in Hfound.
        eapply Hge; [exact He|done| |done]. lia.
      * apply lookup_lt_Some in Hy. lia.
    + exists pos. split_and!; [done|case_decide; lia|done..].
  - (* key <= a[hint]: gallop left *)
    destruct (gallop_inv
                (λ o, ∀ j y, (hint - o ≤ j)%nat → array !! j = Some y → G y)
                (hint + 1)%nat
                (λ offset,
                   match array !! (hint - offset)%nat with
                   | Some offsetElement => bool_decide (compare offsetElement key < 0)
                   | None => true
                   end) (hint + 1)%nat 0%nat 1%nat)
      as (l & o & -> & Hlo & Hlm & Hgood & Hfound); [lia..| | |].
    { intros j y Hj. eapply Hge; eauto; lia. }
    { intros o' Ho'.
      destruct (lookup_lt_is_Some_2 array (hint - o')) as [e He]; [lia|].
      rewrite He. intros Hf%bool_decide_eq_false j y Hj.
      eapply Hge; eauto; lia. }
    destruct (searchLeft_inv L G (length array) array key
                (hint + 1 - (if decide (hint + 1 < o)%nat then hint + 1 else o))%nat
                (hint - l)%nat)
      as (pos & Heq & Hpos & HL & HG); [case_decide; lia|case_decide; lia|done|done| |done|].
    + intros j y Hj Hy. case_decide as Ho; [lia|].
      destruct (decide (o < hint + 1)%nat) as [Holt|Hoge]; [|lia].
      specialize (Hfound Holt).
      destruct (lookup_lt_is_Some_2 array (hint - o)) as [e He]; [lia|].
      rewrite He in Hfound. apply bool_decide_eq_true in Hfound.
      eapply Hlt; [exact He|done| |done]. lia.
    + exists pos. split_and!; [done|lia|done..].
Qed.
End GallopFacts.

(** ** The merge of two runs

    [le] and [lt] are what the answers of the comparator mean on the
    elements that satisfy [P]: a negative answer for [(a, b)] means
    [lt a b], any other answer means [le b a]. *)
Section Merge.
Context {A : Type} (compare : A → A → Z) (P : A → Prop) (le lt : relation A).
Hypothesis le_trans : ∀ a b c, le a b → le b c → le a c.
Hypothesis lt_le : ∀ a b, lt a b → le a b.
Hypothesis lt_le_trans : ∀ a b c, lt a b → le b c → lt a c.
Hypothesis le_lt_trans : ∀ a b c, le a b → lt b c → lt a c.
Hypothesis compare_neg : ∀ a b, P a → P b → compare a b < 0 → lt a b.
Hypothesis compare_nonneg : ∀ a b, P a → P b → 0 ≤ compare a b → le b a.

Lemma sorted_lookup_le array i j x y :
  StronglySorted le array → (i ≤ j)%nat →
  array !! i = Some x → array !! j = Some y → x = y ∨ le x y.
Proof.
  intros Hs Hij Hi Hj.
  destruct (decide (i = j)) as [->|Hne]; [left; congruence|right].
  eapply (StronglySorted_lookup le array i j); [done|lia|done..].
Qed.

Lemma gallopRight_spec array key hint :
  Forall P array → P key → StronglySorted le array →
  (hint < length array)%nat →
  (ArraySort.gallopRight compare array key hint ≤ length array)%nat
  ∧ Forall (λ x, le x key)
      (take (ArraySort.gallopRight compare array key hint) array)
  ∧ Forall (lt key)
      (drop (ArraySort.gallopRight compare array key hint) array).
Proof.
  intros HP Hkey Hs Hhint. rewrite Forall_lookup in HP.
  destruct (gallopRight_inv compare (λ x, le x key) (lt key) array key hint)
    as (pos & -> & Hpos & HL & HG); [done| | |].
  - intros i x Hi Hc j y Hij Hj.
    assert (lt key x) by (apply compare_neg; eauto).
    destruct (sorted_lookup_le array i j x y) as [->|Hxy]; eauto.
  - intros i x Hi Hc j y Hij Hj.
    assert (le x key) by (apply compare_nonneg; eauto).
    destruct (sorted_lookup_le array j i y x) as [->|Hxy]; eauto.
  - split_and!; [done|..]; apply Forall_lookup; intros i x Hix.
    + apply lookup_take_Some in Hix as [Hix Hlt]. by eapply HL.
    + rewrite lookup_drop in Hix. eapply HG; [|done]. lia.
Qed.

Lemma gallopLeft_spec array key hint :
  Forall P array → P key → StronglySorted le array →
  (hint < length array)%nat →
  (ArraySort.gallopLeft compare array key hint ≤ length array)%nat
  ∧ Forall (λ x, lt x key)
      (take (ArraySort.gallopLeft compare array key hint) array)
  ∧ Forall (le key)
      (drop (ArraySort.gallopLeft compare array key hint) array).
Proof.
  intros HP Hkey Hs Hhint. rewrite Forall_lookup in HP.
  destruct (gallopLeft_inv compare (λ x, lt x key) (le key) array key hint)
    as (pos & -> & Hpos & HL & HG); [done| | |].
  - intros i x Hi Hc j y Hij Hj.
    assert (le key x) by (apply compare_nonneg; eauto).
    destruct (sorted_lookup_le array i j x y) as [->|Hxy]; eauto.
  - intros i x Hi Hc j y Hij Hj.
    assert (lt x key) by (apply compare_neg; eauto).
    destruct (sorted_lookup_le array j i y x) as [->|Hxy]; eauto.
  - split_and!; [done|..]; apply Forall_lookup; intros i x Hix.
    + apply lookup_take_Some in Hix as [Hix Hlt]. by eapply HL.
    + rewrite lookup_drop in Hix. eapply HG; [|done]. lia.
Qed.

Lemma last_drop (l : list A) k : (k < length l)%nat → last (drop k l) = last l.
Proof.
  intros Hk. rewrite !last_lookup, lookup_drop, length_drop. f_equal. lia.
Qed.

Lemma last_take_init (l : list A) x :
  last l = Some x → l = take (length l - 1) l ++ [x].
Proof.
  intros [l' ->]%last_Some. rewrite length_app. simpl.
  replace (length l' + 1 - 1)%nat with (length l') by lia.
  by rewrite take_app_length.
Qed.

(** The label [CopyB] of [MergeLow]: the last element of run A goes after
    what is left of run B. *)
Lemma Merged_copyB temp b t :
  temp = [t] → Forall (λ y, lt y t) b → Merged le lt temp b (b ++ temp).
Proof.
  intros -> Hb. apply (Merged_last_a le lt t [] b b); [|done].
  apply Merged_right_only.
Qed.

(** The label [CopyA] of [MergeHigh]: the first element of run B goes
    before what is left of run A. *)
Lemma Merged_copyA a temp t :
  temp = [t] → Forall (lt t) a → Merged le lt a temp (temp ++ a).
Proof.
  intros -> Ha. apply (Merged_first_b le lt t a [] a); [|done].
  apply Merged_left_only.
Qed.

Lemma sorted_head_le x l :
  StronglySorted le (x :: l) → Forall (le x) l.
Proof. by intros [_ ?]%StronglySorted_inv. Qed.

Lemma sorted_last_le l x :
  StronglySorted le (l ++ [x]) → Forall (λ y, le y x) l.
Proof.
  intros (Hcross & _ & _)%StronglySorted_app.
  apply Forall_forall. intros y Hy. apply Hcross; [done|apply list_elem_of_here].
Qed.

Lemma sorted_take l k : StronglySorted le l → StronglySorted le (take k l).
Proof.
  intros Hs. rewrite <- (take_drop k l) in Hs.
  by apply StronglySorted_app in Hs as (_ & ? & _).
Qed.

Lemma sorted_drop l k : StronglySorted le l → StronglySorted le (drop k l).
Proof.
  intros Hs. rewrite <- (take_drop k l) in Hs.
  by apply StronglySorted_app in Hs as (_ & _ & ?).
Qed.

Lemma sorted_take_drop_le l k :
  StronglySorted le l → Forall (λ x, Forall (le x) (drop k l)) (take k l).
Proof.
  intros Hs. rewrite <- (take_drop k l) in Hs.
  apply StronglySorted_app in Hs as (Hcross & _ & _).
  apply Forall_forall. intros x Hx. apply Forall_forall. intros y Hy.
  by apply Hcross.
Qed.

Lemma pair_fst_let {X Y Z : Type} (p : X * Y) (f : X → Z) :
  (let '(m, s) := p in (f m, s)).1 = f p.1.
Proof. by destruct p. Qed.

Lemma mergeLowLoop_Merged fuel mode temp b minGallop nofWinsA nofWinsB stored t :
  (2 * (length temp + length b)
   + match mode with ArraySort.OneByOne => 0 | ArraySort.Galloping _ => 1 end
   ≤ fuel)%nat →
  Forall P temp → Forall P b →
  StronglySorted le temp → StronglySorted le b →
  (2 ≤ length temp)%nat → (1 ≤ length b)%nat →
  last temp = Some t → Forall (λ y, lt y t) b →
  Merged le lt temp b
    (ArraySort.mergeLowLoop compare fuel mode temp b minGallop
       nofWinsA nofWinsB stored).1.
Proof.
  revert mode temp b minGallop nofWinsA nofWinsB stored.
  induction fuel as [|fuel IH];
    intros mode temp b minGallop nofWinsA nofWinsB stored
      Hfuel HPt HPb Hst Hsb Hlt Hlb Hlast Hb; [lia|].
  destruct mode as [|firstIteration]; cbn [ArraySort.mergeLowLoop].
  - destruct temp as [|x temp']; [simpl in Hlt; lia|].
    destruct b as [|y b']; [simpl in Hlb; lia|].
    simpl in Hfuel, Hlt.
    apply Forall_cons in HPt as [Hx HPt']. apply Forall_cons in HPb as [Hy HPb'].
    pose proof (sorted_head_le _ _ Hst) as Hxt.
    pose proof (sorted_head_le _ _ Hsb) as Hyb.
    apply StronglySorted_inv in Hst as [Hst' _].
    apply StronglySorted_inv in Hsb as [Hsb' _].
    assert (last temp' = Some t) as Hlast'.
    { destruct temp'; [simpl in Hlt; lia|done]. }
    destruct (decide (compare y x < 0)) as [Hc|Hc].
    + rewrite pair_fst_let.
      apply Forall_cons in Hb as [_ Hb'].
      assert (Forall (lt y) (x :: temp')) as Hyt.
      { assert (lt y x) by by apply compare_neg.
        constructor; [done|]. eapply Forall_impl; [exact Hxt|]. eauto. }
      apply Merged_first_b; [|done].
      destruct (decide (length b' = 0)%nat) as [Hb0|Hb0].
      { apply nil_length_inv in Hb0 as ->. apply Merged_left_only. }
      assert (1 ≤ length b')%nat by lia.
      destruct (decide (minGallop ≤ S nofWinsB)%nat).
      * eapply IH; [simpl; lia|by constructor|done|by constructor|done|simpl; lia
                  |done|done|done].
      * eapply IH; [simpl; lia|by constructor|done|by constructor|done|simpl; lia
                  |done|done|done].
    + rewrite pair_fst_let.
      assert (Forall (le x) (y :: b')) as Hxb.
      { assert (le x y) by (apply compare_nonneg; [done..|lia]).
        constructor; [done|]. eapply Forall_impl; [exact Hyb|]. eauto. }
      apply Merged_first_a; [|done].
      destruct (decide (length temp' = 1)%nat) as [Ht1|Ht1].
      { destruct temp' as [|t' [|]]; [done| |done].
        injection Hlast' as ->. by apply (Merged_copyB _ _ t). }
      destruct (decide (minGallop ≤ S nofWinsA)%nat).
      * eapply IH; [simpl; lia|done|by constructor|done|by constructor|lia
                  |simpl; lia|done|done].
      * eapply IH; [simpl; lia|done|by constructor|done|by constructor|lia
                  |simpl; lia|done|done].
  - destruct (decide (ArraySort.kMinGallopWins ≤ nofWinsA
                      ∨ ArraySort.kMinGallopWins ≤ nofWinsB
                      ∨ firstIteration = true)%nat) as [Hgo|Hgo]; last first.
    { eapply IH; [lia|done..]. }
    destruct b as [|y b']; [simpl in Hlb; lia|].
    apply Forall_cons in HPb as [Hy HPb'].
    pose proof (sorted_head_le _ _ Hsb) as Hyb.
    pose proof Hsb as Hsb0.
    apply StronglySorted_inv in Hsb as [Hsb' _].
    destruct (gallopRight_spec temp y 0 HPt Hy Hst) as (HkA & HwonA & HrestA);
      [lia|].
    generalize dependent (ArraySort.gallopRight compare temp y 0). intros kA.
    intros HkA HwonA HrestA.
    (* the elements of A that won go first *)
    assert (Forall (λ a, Forall (le a) (y :: b')) (take kA temp)) as HwonA'.
    { eapply Forall_impl; [exact HwonA|]. intros a Ha. simpl in Ha.
      constructor; [done|]. eapply Forall_impl; [exact Hyb|]. eauto. }
    rewrite <- (take_drop kA temp) at 1.
    assert (Forall P (drop kA temp)) as HPrest by by apply Forall_drop.
    pose proof (sorted_drop temp kA Hst) as Hsrest.
    assert (kA < length temp → last (drop kA temp) = Some t)%nat as Hlastrest.
    { intros Hk. by rewrite last_drop. }
    assert (length (drop kA temp) = length temp - kA)%nat as Hlenrest
      by apply length_drop.
    generalize dependent (drop kA temp). intros rest.
    intros HrestA HPrest Hsrest Hlastrest Hlenrest.
    destruct (decide (0 < kA ∧ length rest = 1)%nat) as [[Hk H1]|Hn1].
    { cbn [fst]. apply Merged_app_a; [|done].
      destruct rest as [|t' [|]]; [done| |done].
      specialize (Hlastrest ltac:(simpl in *; lia)). injection Hlastrest as ->.
      by apply (Merged_copyB _ _ t). }
    destruct (decide (0 < kA ∧ length rest = 0)%nat) as [[Hk H0]|Hn0].
    { cbn [fst]. apply nil_length_inv in H0 as ->.
      apply Merged_app_a; [|done]. apply Merged_right_only. }
    assert (2 ≤ length rest)%nat as Hrest2 by lia.
    specialize (Hlastrest ltac:(lia)).
    apply Forall_cons in Hb as [_ Hb'].
    destruct (decide (length b' = 0)%nat) as [Hb0|Hb0].
    { cbn [fst]. apply nil_length_inv in Hb0 as ->.
      apply Merged_app_a; [|done].
      apply Merged_first_b; [|done]. apply Merged_left_only. }
    destruct rest as [|x rest']; [simpl in Hrest2; lia|].
    apply Forall_cons in HPrest as [Hx HPrest'].
    pose proof (sorted_head_le _ _ Hsrest) as Hxr.
    apply StronglySorted_inv in Hsrest as [Hsrest' _].
    destruct (gallopLeft_spec b' x 0 HPb' Hx Hsb') as (HkB & HwonB & HrestB);
      [lia|].
    generalize dependent (ArraySort.gallopLeft compare b' x 0). intros kB.
    intros HkB HwonB HrestB.
    assert (Forall (λ y', Forall (lt y') (x :: rest')) (take kB b')) as HwonB'.
    { eapply Forall_impl; [exact HwonB|]. intros y' Hy'. simpl in Hy'.
      constructor; [done|]. eapply Forall_impl; [exact Hxr|]. eauto. }
    assert (last rest' = Some t) as Hlast'.
    { destruct rest'; [simpl in Hrest2; lia|done]. }
    destruct (decide (0 < kB ∧ length (drop kB b') = 0)%nat) as [[Hk H0]|HnB0].
    { cbn [fst]. apply Merged_app_a; [|done].
      apply Merged_first_b; [|done].
      apply nil_length_inv in H0.
      rewrite <- (take_drop kB b') at 1. rewrite H0, app_nil_r.
      rewrite <- (app_nil_r (take kB b')) at 1.
      apply Merged_app_b; [|done]. apply Merged_left_only. }
    assert (1 ≤ length (drop kB b'))%nat as HlenB.
    { rewrite length_drop in *. lia. }
    assert (Merged le lt (x :: rest') b'
              (take kB b' ++ x :: (if decide (length rest' = 1)%nat
                                   then drop kB b' ++ rest'
                                   else (ArraySort.mergeLowLoop compare fuel
                                           (ArraySort.Galloping false) rest'
                                           (drop kB b') (Nat.max 1 (minGallop - 1))
                                           kA kB (Nat.max 1 (minGallop - 1))).1)))
      as Hinner.
    { rewrite <- (take_drop kB b') at 1.
      apply Merged_app_b; [|done].
      apply Merged_first_a; [|done].
      assert (Forall (λ y', lt y' t) (drop kB b')) as Hbt by by apply Forall_drop.
      destruct (decide (length rest' = 1)%nat) as [H1|H1].
      - destruct rest' as [|t' [|]]; [done| |done].
        injection Hlast' as ->. by apply (Merged_copyB _ _ t).
      - eapply IH; [|done|by apply Forall_drop|done|by apply sorted_drop
                  | |done|done|done].
        + rewrite length_drop. simpl in *. lia.
        + simpl in Hrest2. lia. }
    destruct (decide (length rest' = 1)%nat) as [H1|H1].
    { cbn [fst]. apply Merged_app_a; [|done]. by apply Merged_first_b. }
    rewrite pair_fst_let.
    apply Merged_app_a; [|done]. by apply Merged_first_b.
Qed.

Lemma mergeLow_Merged a b minGallop x t :
  Forall P a → Forall P b →
  StronglySorted le a → StronglySorted le b →
  head b = Some x → Forall (lt x) a →
  last a = Some t → Forall (λ y, lt y t) b →
  Merged le lt a b (ArraySort.mergeLow compare a b minGallop).1.
Proof.
  intros HPa HPb Hsa Hsb Hhead Hxa Hlast Hbt. unfold ArraySort.mergeLow.
  destruct b as [|y b']; [done|]. injection Hhead as ->.
  rewrite pair_fst_let.
  apply Forall_cons in HPb as [Hx HPb']. apply Forall_cons in Hbt as [_ Hbt'].
  apply StronglySorted_inv in Hsb as [Hsb' _].
  apply Merged_first_b; [|done].
  destruct (decide (length b' = 0)%nat) as [Hb0|Hb0].
  { apply nil_length_inv in Hb0 as ->. apply Merged_left_only. }
  destruct (decide (length a = 1)%nat) as [Ha1|Ha1].
  { destruct a as [|t' [|]]; [done| |done]. injection Hlast as ->.
    by apply (Merged_copyB _ _ t). }
  assert (a ≠ []) by (by intros ->).
  eapply mergeLowLoop_Merged; [simpl; lia|done..| | |done|done].
  - destruct a; [done|]. simpl in *. lia.
  - lia.
Qed.

Lemma head_take (l : list A) k : (0 < k)%nat → head (take k l) = head l.
Proof. intros Hk. destruct l, k; done || lia. Qed.

Lemma mergeHighLoop_Merged fuel mode a temp minGallop nofWinsA nofWinsB stored t :
  (2 * (length a + length temp)
   + match mode with ArraySort.OneByOne => 0 | ArraySort.Galloping _ => 1 end
   ≤ fuel)%nat →
  Forall P a → Forall P temp →
  StronglySorted le a → StronglySorted le temp →
  (1 ≤ length a)%nat → (2 ≤ length temp)%nat →
  head temp = Some t → Forall (lt t) a →
  Merged le lt a temp
    (ArraySort.mergeHighLoop compare fuel mode a temp minGallop
       nofWinsA nofWinsB stored).1.
Proof.
  revert mode a temp minGallop nofWinsA nofWinsB stored.
  induction fuel as [|fuel IH];
    intros mode a temp minGallop nofWinsA nofWinsB stored
      Hfuel HPa HPt Hsa Hst Hla Hlt Hhead Ha; [lia|].
  destruct (last temp) as [y|] eqn:Hlasttemp; last first.
  { apply last_None in Hlasttemp as ->. simpl in Hlt. lia. }
  pose proof (last_take_init _ _ Hlasttemp) as Htemp.
  assert (length (take (length temp - 1) temp) = length temp - 1)%nat as Hlent'
    by (rewrite length_take; lia).
  assert (head (take (length temp - 1) temp) = Some t) as Hhead'
    by (rewrite head_take; [done|lia]).
  destruct mode as [|firstIteration]; cbn [ArraySort.mergeHighLoop].
  - destruct (last a) as [x|] eqn:Hlasta; last first.
    { apply last_None in Hlasta as ->. simpl in Hla. lia. }
    rewrite Hlasttemp.
    pose proof (last_take_init _ _ Hlasta) as Haeq.
    assert (length (take (length a - 1) a) = length a - 1)%nat as Hlena'
      by (rewrite length_take; lia).
    generalize dependent (take (length temp - 1) temp). intros temp' -> Hlent' Hhead'.
    generalize dependent (take (length a - 1) a). intros a' -> Hlena'.
    rewrite ?length_app in *. cbn [length] in *.
    apply Forall_app in HPa as [HPa' [Hx _]%Forall_cons].
    apply Forall_app in HPt as [HPt' [Hy _]%Forall_cons].
    pose proof (sorted_last_le _ _ Hsa) as Hax.
    pose proof (sorted_last_le _ _ Hst) as Hty.
    pose proof Hsa as Hsa0. pose proof Hst as Hst0. pose proof Ha as Hta.
    apply StronglySorted_app in Hsa as (_ & Hsa' & _).
    apply StronglySorted_app in Hst as (_ & Hst' & _).
    apply Forall_app in Ha as [Ha' _].
    destruct (decide (compare y x < 0)) as [Hc|Hc].
    + rewrite pair_fst_let.
      apply Merged_last_a.
      2:{ assert (lt y x) by by apply compare_neg.
          apply Forall_app. split; [|by repeat constructor].
          eapply Forall_impl; [exact Hty|]; intros ? ?; simpl in *; eauto. }
      destruct (decide (length a' = 0)%nat) as [Ha0|Ha0].
      { apply nil_length_inv in Ha0 as ->. apply Merged_right_only. }
      assert (head (temp' ++ [y]) = Some t) as Hhead''.
      { destruct temp'; [simpl in *; lia|done]. }
      destruct (decide (minGallop ≤ S nofWinsA)%nat).
      * eapply IH; [rewrite length_app; simpl; lia|done
                   |apply Forall_app; split; [done|by repeat constructor]
                   |done|done|lia|rewrite length_app; simpl; lia|done|done].
      * eapply IH; [rewrite length_app; simpl; lia|done
                   |apply Forall_app; split; [done|by repeat constructor]
                   |done|done|lia|rewrite length_app; simpl; lia|done|done].
    + rewrite pair_fst_let.
      assert (Forall (λ a0, le a0 y) (a' ++ [x])) as Hay.
      { assert (le x y) by (apply compare_nonneg; [done..|lia]).
        apply Forall_app. split; [|by repeat constructor].
        eapply Forall_impl; [exact Hax|]; intros ? ?; simpl in *; eauto. }
      apply Merged_last_b; [|done].
      destruct (decide (length temp' = 1)%nat) as [Ht1|Ht1].
      { destruct temp' as [|t' [|]]; [done| |done].
        injection Hhead' as ->. by apply (Merged_copyA _ _ t). }
      destruct (decide (minGallop ≤ S nofWinsB)%nat).
      * eapply IH; [rewrite length_app; simpl; lia
                   |apply Forall_app; split; [done|by repeat constructor]
                   |done|done|done|rewrite length_app; simpl; lia|lia|done|done].
      * eapply IH; [rewrite length_app; simpl; lia
                   |apply Forall_app; split; [done|by repeat constructor]
                   |done|done|done|rewrite length_app; simpl; lia|lia|done|done].
  - destruct (decide (ArraySort.kMinGallopWins ≤ nofWinsA
                      ∨ ArraySort.kMinGallopWins ≤ nofWinsB
                      ∨ firstIteration = true)%nat) as [Hgo|Hgo]; last first.
    { eapply IH; [lia|done..]. }
    rewrite Hlasttemp.
    generalize dependent (take (length temp - 1) temp). intros temp' -> Hlent' Hhead'.
    rewrite ?length_app in *. cbn [length] in *.
    apply Forall_app in HPt as [HPt' [Hy _]%Forall_cons].
    pose proof (sorted_last_le _ _ Hst) as Hty.
    apply StronglySorted_app in Hst as (_ & Hst' & _).
    destruct (gallopRight_spec a y (length a - 1) HPa Hy Hsa) as (Hk & Hkeep & Hwon);
      [lia|].
    generalize dependent (ArraySort.gallopRight compare a y (length a - 1)).
    intros k Hk Hkeep Hwon.
    assert (length (take k a) = k) as Hlenkeep by (rewrite length_take; lia).
    assert (length a - k = length (drop k a))%nat as -> by (by rewrite length_drop).
    assert (a = take k a ++ drop k a) as Haeq by (by rewrite take_drop).
    remember (take k a) as keep eqn:Heqkeep in *.
    remember (drop k a) as wonA eqn:HeqwonA in *.
    clear Heqkeep HeqwonA. subst a.
    apply Forall_app in HPa as [HPkeep HPwonA].
    apply Forall_app in Ha as [Htkeep _].
    apply StronglySorted_app in Hsa as (_ & Hskeep & _).
    (* the elements of A that won go last, after [y] *)
    assert (∀ l, Merged le lt keep temp' l →
                 Merged le lt (keep ++ wonA) (temp' ++ [y]) (l ++ y :: wonA))
      as Hwrap.
    { intros l Hl.
      replace (l ++ y :: wonA) with ((l ++ [y]) ++ wonA)
        by (by rewrite <- app_assoc).
      apply Merged_snoc_a.
      - by apply Merged_last_b.
      - eapply Forall_impl; [exact Hwon|]. intros x Hx. simpl in Hx.
        apply Forall_app. split; [|by repeat constructor].
        eapply Forall_impl; [exact Hty|]; intros ? ?; simpl in *; eauto. }
    destruct (decide (0 < length wonA ∧ length keep = 0)%nat) as [[Hw H0]|Hn0].
    { cbn [fst]. apply nil_length_inv in H0 as ->.
      rewrite <- (app_assoc temp' [y]). apply Hwrap. apply Merged_right_only. }
    assert (1 ≤ length keep)%nat as Hkeep1.
    { rewrite length_app in Hla. lia. }
    destruct (decide (length temp' = 1)%nat) as [Ht1|Ht1].
    { cbn [fst]. rewrite app_assoc. apply Hwrap.
      destruct temp' as [|t' [|]]; [done| |done].
      injection Hhead' as ->. by apply (Merged_copyA _ _ t). }
    destruct (last keep) as [x|] eqn:Hlastkeep; last first.
    { apply last_None in Hlastkeep as ->. simpl in Hkeep1. lia. }
    pose proof (last_take_init _ _ Hlastkeep) as Hkeepeq.
    assert (length (take (length keep - 1) keep) = length keep - 1)%nat as Hlena'
      by (rewrite length_take; lia).
    remember (take (length keep - 1) keep) as a' eqn:Heqa' in *.
    clear Heqa'.
    assert (P x) as Hx.
    { rewrite Hkeepeq in HPkeep. by apply Forall_app in HPkeep as [_ [? _]%Forall_cons]. }
    destruct (gallopLeft_spec temp' x (length temp' - 1) HPt' Hx Hst')
      as (Hk2 & Hkeep2 & Hwon2); [lia|].
    generalize dependent (ArraySort.gallopLeft compare temp' x (length temp' - 1)).
    intros k2 Hk2 Hkeep2 Hwon2.
    assert (length (take k2 temp') = k2) as Hlenkeep2 by (rewrite length_take; lia).
    assert (length temp' - k2 = length (drop k2 temp'))%nat as ->
      by (by rewrite length_drop).
    assert (temp' = take k2 temp' ++ drop k2 temp') as Htempeq by (by rewrite take_drop).
    assert (0 < k2 → head (take k2 temp') = Some t)%nat as Hheadkeep2.
    { intros ?. by rewrite head_take. }
    remember (take k2 temp') as temp'' eqn:Heqtemp'' in *.
    remember (drop k2 temp') as wonB eqn:HeqwonB in *.
    clear Heqtemp'' HeqwonB.
    (* the elements of B that won go last, after [x] *)
    assert (∀ l, Merged le lt keep temp'' l →
                 Merged le lt keep temp' (l ++ wonB)) as Hwrap2.
    { intros l Hl. rewrite Htempeq.
      apply Merged_snoc_b; [done|].
      eapply Forall_impl; [exact Hwon2|]. intros b Hb. simpl in Hb.
      rewrite Hkeepeq. rewrite Hkeepeq in Hskeep.
      apply Forall_app. split; [|by repeat constructor].
      eapply Forall_impl; [exact (sorted_last_le _ _ Hskeep)|];
        intros ? ?; simpl in *; eauto. }
    assert (Forall P temp'' ∧ StronglySorted le temp'') as [HPtemp'' Hstemp''].
    { rewrite Htempeq in HPt', Hst'.
      apply Forall_app in HPt' as [? _].
      by apply StronglySorted_app in Hst' as (_ & ? & _). }
    destruct (decide (0 < length wonB ∧ length temp'' = 1)%nat) as [[Hw H1]|Hn1].
    { cbn [fst]. rewrite !app_assoc. apply Hwrap.
      apply Hwrap2.
      destruct temp'' as [|t' [|]]; [done| |done].
      specialize (Hheadkeep2 ltac:(simpl in *; lia)). injection Hheadkeep2 as ->.
      by apply (Merged_copyA _ _ t). }
    destruct (decide (0 < length wonB ∧ length temp'' = 0)%nat) as [[Hw H0]|Hn00].
    { cbn [fst]. rewrite app_assoc. apply Hwrap.
      apply nil_length_inv in H0 as ->. apply Hwrap2. apply Merged_left_only. }
    assert (2 ≤ length temp'')%nat as Htemp2.
    { assert (length temp' = length temp'' + length wonB)%nat
        by (by rewrite Htempeq at 1; rewrite length_app).
      lia. }
    specialize (Hheadkeep2 ltac:(lia)).
    assert (Merged le lt keep temp''
              ((if decide (length a' = 0)%nat then temp''
                else (ArraySort.mergeHighLoop compare fuel
                        (ArraySort.Galloping false) a' temp''
                        (Nat.max 1 (minGallop - 1)) (length wonA)
                        (length wonB) (Nat.max 1 (minGallop - 1))).1)
               ++ [x])) as Hinner.
    { rewrite Hkeepeq at 1. apply Merged_last_a; [|done].
      rewrite Hkeepeq in HPkeep, Hskeep, Htkeep.
      apply Forall_app in HPkeep as [HPa' _].
      apply StronglySorted_app in Hskeep as (_ & Hsa' & _).
      apply Forall_app in Htkeep as [Hta' _].
      destruct (decide (length a' = 0)%nat) as [Ha0|Ha0].
      - apply nil_length_inv in Ha0 as ->. apply Merged_right_only.
      - eapply IH; [|done..|lia|done|done|done].
        rewrite !length_app in Hfuel. cbn [length] in Hfuel. lia. }
    assert (∀ l, Merged le lt keep temp'' (l ++ [x]) →
                 Merged le lt (keep ++ wonA) (temp' ++ [y])
                   (l ++ x :: wonB ++ y :: wonA)) as Hall.
    { intros l Hl.
      replace (l ++ x :: wonB ++ y :: wonA)
        with (((l ++ [x]) ++ wonB) ++ y :: wonA)
        by (by rewrite <- !app_assoc).
      by apply Hwrap, Hwrap2. }
    destruct (decide (length a' = 0)%nat) as [Ha0|Ha0].
    { cbn [fst]. by apply Hall. }
    rewrite pair_fst_let. by apply Hall.
Qed.

Lemma mergeHigh_Merged a b minGallop x t :
  Forall P a → Forall P b →
  StronglySorted le a → StronglySorted le b →
  head b = Some x → Forall (lt x) a →
  last a = Some t → Forall (λ y, lt y t) b →
  Merged le lt a b (ArraySort.mergeHigh compare a b minGallop).1.
Proof.
  intros HPa HPb Hsa Hsb Hhead Hxa Hlast Hbt. unfold ArraySort.mergeHigh.
  rewrite Hlast, pair_fst_let.
  pose proof (last_take_init _ _ Hlast) as Haeq.
  remember (take (length a - 1) a) as a' eqn:Heqa' in *. clear Heqa'. subst a.
  apply Forall_app in HPa as [HPa' _]. apply Forall_app in Hxa as [Hxa' _].
  apply StronglySorted_app in Hsa as (_ & Hsa' & _).
  apply Merged_last_a; [|done].
  destruct (decide (length a' = 0)%nat) as [Ha0|Ha0].
  { apply nil_length_inv in Ha0 as ->. apply Merged_right_only. }
  destruct (decide (length b = 1)%nat) as [Hb1|Hb1].
  { destruct b as [|x' [|]]; [done| |done]. injection Hhead as ->.
    by apply (Merged_copyA _ _ x). }
  eapply mergeHighLoop_Merged; [simpl; lia|done..|lia| |done|done].
  destruct b as [|? [|]]; simpl in *; done || lia.
Qed.

Lemma sorted_elem_last_le l x t :
  StronglySorted le l → last l = Some t → x ∈ l → x = t ∨ le x t.
Proof.
  intros Hs [l' ->]%last_Some [Hx|Hx%list_elem_of_singleton]%elem_of_app;
    [right|by left].
  pose proof (sorted_last_le _ _ Hs) as Hall.
  rewrite Forall_forall in Hall. by apply Hall.
Qed.

(** [MergeAt] merges run A and the run B that follows it. *)
Lemma mergeAt_Merged a b minGallop :
  Forall P a → Forall P b →
  StronglySorted le a → StronglySorted le b →
  a ≠ [] → b ≠ [] →
  Merged le lt a b (ArraySort.mergeAt compare a b minGallop).1.
Proof.
  intros HPa HPb Hsa Hsb Ha Hb. unfold ArraySort.mergeAt.
  destruct b as [|keyRight b0] eqn:Hbeq; [done|]. rewrite <- Hbeq in *.
  assert (head b = Some keyRight) as Hhead by by rewrite Hbeq.
  assert (P keyRight) as HkeyRight.
  { rewrite Hbeq in HPb. by apply Forall_cons in HPb as [? _]. }
  assert (Forall (le keyRight) b0) as HkeyRightle.
  { rewrite Hbeq in Hsb. by apply sorted_head_le. }
  clear Hb.
  destruct (gallopRight_spec a keyRight 0 HPa HkeyRight Hsa)
    as (Hk & Hplace & Hrest).
  { destruct a; [done|simpl; lia]. }
  generalize dependent (ArraySort.gallopRight compare a keyRight 0).
  intros k Hk Hplace Hrest.
  (* the elements of A that are in place *)
  assert (Forall (λ x, Forall (le x) b) (take k a)) as Hplace'.
  { eapply Forall_impl; [exact Hplace|]. intros x Hx. simpl in Hx.
    rewrite Hbeq. constructor; [done|].
    eapply Forall_impl; [exact HkeyRightle|]; intros ? ?; simpl in *; eauto. }
  destruct (last (drop k a)) as [keyLeft|] eqn:Hlast; last first.
  { cbn [fst]. apply last_None in Hlast.
    rewrite <- (take_drop k a), Hlast, app_nil_r.
    rewrite <- (app_nil_r (take k a)) at 1.
    apply Merged_app_a; [|done]. apply Merged_right_only. }
  assert (Forall P (drop k a)) as HPa' by by apply Forall_drop.
  pose proof (sorted_drop a k Hsa) as Hsa'.
  assert (P keyLeft) as HkeyLeft.
  { rewrite Forall_forall in HPa'. apply HPa'.
    apply last_Some in Hlast as [l' ->]. set_solver. }
  destruct (gallopLeft_spec b keyLeft (length b - 1) HPb HkeyLeft Hsb)
    as (HlengthB & Hmerge & Hstay).
  { rewrite Hbeq. simpl. lia. }
  generalize dependent (ArraySort.gallopLeft compare b keyLeft (length b - 1)).
  intros lengthB HlengthB Hmerge Hstay.
  (* the elements of B that are in place *)
  assert (Forall (λ y, Forall (λ x, le x y) (drop k a)) (drop lengthB b)) as Hstay'.
  { eapply Forall_impl; [exact Hstay|]. intros y Hy. simpl in Hy.
    apply Forall_forall. intros x Hx.
    destruct (sorted_elem_last_le _ x keyLeft Hsa' Hlast Hx) as [->|Hxk]; eauto. }
  destruct (decide (lengthB = 0)%nat) as [->|HlengthB0].
  { cbn [fst]. rewrite drop_0 in Hstay'.
    assert (Merged le lt (drop k a) b (drop k a ++ b)) as Hm.
    { apply (Merged_snoc_b le lt b (drop k a) [] (drop k a));
        [apply Merged_left_only|done]. }
    pose proof (Merged_app_a le lt (take k a) _ _ _ Hm Hplace') as Hm'.
    by rewrite app_assoc, take_drop in Hm'. }
  rewrite pair_fst_let.
  assert (∀ l, Merged le lt (drop k a) (take lengthB b) l →
               Merged le lt a b (take k a ++ l ++ drop lengthB b)) as Hwrap.
  { intros l Hl.
    pose proof (Merged_snoc_b le lt (drop lengthB b) _ _ _ Hl Hstay') as Hm.
    pose proof (Merged_app_a le lt (take k a) _ _ _ Hm) as Hm'.
    rewrite !take_drop in Hm'. by apply Hm'. }
  apply Hwrap.
  assert (head (take lengthB b) = Some keyRight) as Hhead'
    by (rewrite head_take; [done|lia]).
  destruct (decide (length (drop k a) ≤ lengthB)%nat).
  - apply (mergeLow_Merged _ _ _ keyRight keyLeft);
      [done|by apply Forall_take|done|by apply sorted_take|done..].
  - apply (mergeHigh_Merged _ _ _ keyRight keyLeft);
      [done|by apply Forall_take|done|by apply sorted_take|done..].
Qed.

(** *** The pending runs

    [Q] is a relation between what the array holds before and after, which
    every merge keeps. *)
Variable Q : list A → list A → Prop.
Hypothesis Q_refl : ∀ l, Q l l.
Hypothesis Q_trans : ∀ l1 l2 l3, Q l1 l2 → Q l2 l3 → Q l1 l3.
Hypothesis Q_merged : ∀ pre l1 l2 l post,
  Forall P l1 → Forall P l2 → Merged le lt l1 l2 l →
  Q (pre ++ l1 ++ l2 ++ post) (pre ++ l ++ post).

Lemma mergeAt_run a b minGallop :
  (a ≠ [] ∧ Forall P a ∧ StronglySorted le a) →
  (b ≠ [] ∧ Forall P b ∧ StronglySorted le b) →
  let merged := (ArraySort.mergeAt compare a b minGallop).1 in
  (merged ≠ [] ∧ Forall P merged ∧ StronglySorted le merged)
  ∧ ∀ pre post, Q (pre ++ a ++ b ++ post) (pre ++ merged ++ post).
Proof.
  intros (Ha & HPa & Hsa) (Hb & HPb & Hsb) merged.
  pose proof (mergeAt_Merged a b minGallop HPa HPb Hsa Hsb Ha Hb) as Hm.
  fold merged in Hm. pose proof (Merged_perm _ _ _ _ _ Hm) as Hperm.
  split_and!.
  - intros Heq. rewrite Heq in Hperm. symmetry in Hperm.
    apply Permutation_nil_r in Hperm. by destruct a.
  - rewrite Hperm. by apply Forall_app.
  - by apply (Merged_sorted le lt a b).
  - intros pre post. by apply Q_merged.
Qed.

Lemma mergeTop_ok state run1 run0 below :
  ArraySort.pendingRuns state = run1 :: run0 :: below →
  PendingSorted P le state →
  PendingSorted P le (ArraySort.mergeTop compare state)
  ∧ Q (ArraySort.pendingElements state)
      (ArraySort.pendingElements (ArraySort.mergeTop compare state))
  ∧ length (ArraySort.pendingRuns (ArraySort.mergeTop compare state))
    = S (length below).
Proof.
  intros Hruns Hok. unfold PendingSorted, ArraySort.mergeTop,
    ArraySort.pendingElements in *.
  rewrite Hruns in *.
  apply Forall_cons in Hok as [H1 Hok]. apply Forall_cons in Hok as [H0 Hok].
  destruct (mergeAt_run run0 run1 (ArraySort.minGallop state) H0 H1)
    as [Hrun HQ].
  destruct (ArraySort.mergeAt compare run0 run1 (ArraySort.minGallop state))
    as [merged stored].
  cbn [ArraySort.pendingRuns fst] in *. split_and!.
  - by constructor.
  - rewrite !reverse_cons, !concat_app. simpl. rewrite !app_nil_r.
    rewrite <- app_assoc.
    specialize (HQ (concat (reverse below)) []).
    by rewrite !app_nil_r in HQ.
  - done.
Qed.

Lemma mergeBelowTop_ok state run2 run1 run0 below :
  ArraySort.pendingRuns state = run2 :: run1 :: run0 :: below →
  PendingSorted P le state →
  PendingSorted P le (ArraySort.mergeBelowTop compare state)
  ∧ Q (ArraySort.pendingElements state)
      (ArraySort.pendingElements (ArraySort.mergeBelowTop compare state))
  ∧ length (ArraySort.pendingRuns (ArraySort.mergeBelowTop compare state))
    = S (S (length below)).
Proof.
  intros Hruns Hok. unfold PendingSorted, ArraySort.mergeBelowTop,
    ArraySort.pendingElements in *.
  rewrite Hruns in *.
  apply Forall_cons in Hok as [H2 Hok].
  apply Forall_cons in Hok as [H1 Hok]. apply Forall_cons in Hok as [H0 Hok].
  destruct (mergeAt_run run0 run1 (ArraySort.minGallop state) H0 H1)
    as [Hrun HQ].
  destruct (ArraySort.mergeAt compare run0 run1 (ArraySort.minGallop state))
    as [merged stored].
  cbn [ArraySort.pendingRuns fst] in *. split_and!.
  - constructor; [done|]. by constructor.
  - rewrite !reverse_cons, !concat_app. simpl. rewrite !app_nil_r.
    rewrite <- !app_assoc. apply HQ.
  - done.
Qed.

Lemma mergeCollapse_ok fuel state :
  PendingSorted P le state →
  PendingSorted P le (ArraySort.mergeCollapse compare fuel state)
  ∧ Q (ArraySort.pendingElements state)
      (ArraySort.pendingElements (ArraySort.mergeCollapse compare fuel state)).
Proof.
  revert state. induction fuel as [|fuel IH]; intros state Hok;
    cbn [ArraySort.mergeCollapse]; [done|].
  assert (PendingSorted P le (ArraySort.mergeTop compare state)
          ∧ Q (ArraySort.pendingElements state)
              (ArraySort.pendingElements
                 (ArraySort.mergeCollapse compare fuel
                    (ArraySort.mergeTop compare state)))
          ∨ length (ArraySort.pendingRuns state) < 2)%nat as Htop.
  { destruct (ArraySort.pendingRuns state) as [|run1 [|run0 below]] eqn:Hruns;
      [right; simpl; lia..|left].
    destruct (mergeTop_ok state _ _ _ Hruns Hok) as (Hok' & HQ & _).
    split; [done|]. destruct (IH _ Hok') as [_ HQ']. eauto. }
  assert (PendingSorted P le (ArraySort.mergeBelowTop compare state)
          ∧ Q (ArraySort.pendingElements state)
              (ArraySort.pendingElements
                 (ArraySort.mergeCollapse compare fuel
                    (ArraySort.mergeBelowTop compare state)))
          ∨ length (ArraySort.pendingRuns state) < 3)%nat as Hbelow.
  { destruct (ArraySort.pendingRuns state) as [|run2 [|run1 [|run0 below]]] eqn:Hruns;
      [right; simpl; lia..|left].
    destruct (mergeBelowTop_ok state _ _ _ _ Hruns Hok) as (Hok' & HQ & _).
    split; [done|]. destruct (IH _ Hok') as [_ HQ']. eauto. }
  destruct (ArraySort.pendingRuns state) as [|run1 [|run0 below]] eqn:Hruns;
    [done..|].
  destruct Htop as [[Hoktop HQtop]|?]; [|simpl in *; lia].
  destruct (ArraySort.runInvariantBroken (run1 :: run0 :: below)).
  - destruct below as [|runM below'].
    + split; [by apply IH|done].
    + destruct Hbelow as [[Hokbelow HQbelow]|?]; [|simpl in *; lia].
      destruct (decide (length runM < length run1)%nat).
      * split; [by apply IH|done].
      * split; [by apply IH|done].
  - destruct (decide (length run0 ≤ length run1)%nat).
    + split; [by apply IH|done].
    + done.
Qed.

Lemma mergeForceCollapse_ok fuel state :
  PendingSorted P le state →
  (length (ArraySort.pendingRuns state) ≤ fuel)%nat →
  PendingSorted P le (ArraySort.mergeForceCollapse compare fuel state)
  ∧ Q (ArraySort.pendingElements state)
      (ArraySort.pendingElements (ArraySort.mergeForceCollapse compare fuel state))
  ∧ (length (ArraySort.pendingRuns
               (ArraySort.mergeForceCollapse compare fuel state)) ≤ 1)%nat.
Proof.
  revert state. induction fuel as [|fuel IH]; intros state Hok Hfuel;
    cbn [ArraySort.mergeForceCollapse].
  { split_and!; [done..|lia]. }
  destruct (ArraySort.pendingRuns state) as [|run1 [|run0 below]] eqn:Hruns.
  { rewrite Hruns. split_and!; [done..|simpl; lia]. }
  { rewrite Hruns. split_and!; [done..|simpl; lia]. }
  destruct (mergeTop_ok state _ _ _ Hruns Hok) as (Hoktop & HQtop & Hlentop).
  destruct (IH _ Hoktop) as (? & ? & ?); [simpl in *; lia|].
  destruct below as [|runM below'].
  - split_and!; eauto.
  - destruct (mergeBelowTop_ok state _ _ _ _ Hruns Hok) as (Hokb & HQb & Hlenb).
    destruct (IH _ Hokb) as (? & ? & ?); [simpl in *; lia|].
    destruct (decide (length runM < length run1)%nat); split_and!; eauto.
Qed.

(** *** The whole sort *)

Hypothesis Q_app : ∀ l l' post, Q l l' → Q (l ++ post) (l' ++ post).
Hypothesis Q_nextRun : ∀ pre minRunLength remaining run rest,
  Forall P remaining →
  ArraySort.nextRun compare minRunLength remaining = (run, rest) →
  Q (pre ++ remaining) (pre ++ run ++ rest).

Lemma pushRun_ok state run :
  PendingSorted P le state →
  run ≠ [] → Forall P run → StronglySorted le run →
  PendingSorted P le (ArraySort.pushRun compare state run)
  ∧ Q (ArraySort.pendingElements state ++ run)
      (ArraySort.pendingElements (ArraySort.pushRun compare state run)).
Proof.
  intros Hok Hne HP Hs. unfold ArraySort.pushRun.
  destruct (mergeCollapse_ok (S (length (ArraySort.pendingRuns state)))
              {| ArraySort.pendingRuns := run :: ArraySort.pendingRuns state;
                 ArraySort.minGallop := ArraySort.minGallop state |})
    as [Hok' HQ].
  { by constructor. }
  split; [done|].
  unfold ArraySort.pendingElements in *. cbn [ArraySort.pendingRuns] in HQ.
  rewrite reverse_cons, concat_app in HQ. simpl in HQ.
  by rewrite app_nil_r in HQ.
Qed.

Lemma makeRuns_ok fuel minRunLength remaining state :
  PendingSorted P le state → Forall P remaining →
  (length remaining ≤ fuel)%nat →
  PendingSorted P le
    (ArraySort.makeRuns compare fuel minRunLength remaining state)
  ∧ Q (ArraySort.pendingElements state ++ remaining)
      (ArraySort.pendingElements
         (ArraySort.makeRuns compare fuel minRunLength remaining state)).
Proof.
  revert remaining state.
  induction fuel as [|fuel IH]; intros remaining state Hok HP Hfuel;
    cbn [ArraySort.makeRuns].
  { destruct remaining; [|simpl in Hfuel; lia]. by rewrite app_nil_r. }
  destruct (decide (length remaining = 0)%nat) as [H0|H0].
  { apply nil_length_inv in H0 as ->. by rewrite app_nil_r. }
  destruct (ArraySort.nextRun compare minRunLength remaining) as [run rest] eqn:E.
  assert (remaining ≠ []) as Hne by (by intros ->).
  destruct (nextRun_length compare _ _ _ _ E Hne) as [Hrun Hlen].
  pose proof (nextRun_perm compare _ _ _ _ E) as Hperm.
  pose proof HP as HP'. rewrite <- Hperm in HP'.
  apply Forall_app in HP' as [HPrun HPrest].
  assert (StronglySorted le run) as Hs.
  { apply (nextRun_sorted compare P le le_trans
             (λ a b Ha Hb Hc, lt_le _ _ (compare_neg a b Ha Hb Hc))
             compare_nonneg minRunLength remaining run rest HP E). }
  destruct (pushRun_ok state run Hok Hrun HPrun Hs) as [Hok' HQ'].
  destruct (IH rest _ Hok' HPrest) as [Hok'' HQ'']; [lia|].
  split; [done|].
  eapply Q_trans; [by eapply Q_nextRun|].
  eapply Q_trans; [|exact HQ''].
  rewrite app_assoc. by apply Q_app.
Qed.

Lemma sort_ok work :
  Forall P work →
  StronglySorted le (ArraySort.sort compare work)
  ∧ Q work (ArraySort.sort compare work).
Proof.
  intros HP. unfold ArraySort.sort.
  destruct (decide (length work < 2)%nat) as [Hlen|Hlen].
  { split; [|done].
    destruct work as [|x [|y work]];
      [constructor|repeat constructor|simpl in Hlen; lia]. }
  destruct (makeRuns_ok (length work)
              (ArraySort.computeMinRunLength (length work)) work
              {| ArraySort.pendingRuns := [];
                 ArraySort.minGallop := ArraySort.kMinGallopWins |})
    as [Hok HQ]; [constructor|done|done|].
  generalize dependent (ArraySort.makeRuns compare (length work)
    (ArraySort.computeMinRunLength (length work)) work
    {| ArraySort.pendingRuns := [];
       ArraySort.minGallop := ArraySort.kMinGallopWins |}).
  intros state Hok HQ.
  destruct (mergeForceCollapse_ok (length (ArraySort.pendingRuns state)) state Hok)
    as (Hok' & HQ' & Hone); [done|].
  split; [|by eapply Q_trans].
  generalize dependent (ArraySort.mergeForceCollapse compare
    (length (ArraySort.pendingRuns state)) state).
  intros final Hok' _ Hone.
  unfold PendingSorted, ArraySort.pendingElements in *.
  destruct (ArraySort.pendingRuns final) as [|run [|]];
    [constructor| |simpl in Hone; lia].
  apply Forall_cons in Hok' as [(_ & _ & Hs) _].
  change (reverse [run]) with [run]. simpl. by rewrite app_nil_r.
Qed.
End Merge.

(** ** The sorted array *)

Section SortFacts.
Context {A : Type} (compare : A → A → Z).

(** The sort returns the elements of the array, whatever the comparator
    answers. *)
Lemma sort_perm work : ArraySort.sort compare work ≡ₚ work.
Proof.
  apply (sort_ok compare (λ _, True) (λ _ _, True) (λ _ _, True)
           ltac:(done) ltac:(done) ltac:(done) ltac:(done) ltac:(done)
           ltac:(done) (λ l l', l' ≡ₚ l)).
  - done.
  - intros l1 l2 l3 H12 H23. by rewrite H23.
  - intros pre l1 l2 l post _ _ Hm.
    by rewrite (Merged_perm _ _ _ _ _ Hm), <- app_assoc.
  - intros l l' post Hl. by rewrite Hl.
  - intros pre minRunLength remaining run rest _ Hnext.
    by rewrite (nextRun_perm compare _ _ _ _ Hnext).
  - by apply Forall_forall.
Qed.
End SortFacts.

(** The sorted array is ordered by every order that the comparator never
    contradicts. *)
Section KeyOrderSort.
Context {A : Type} (compare : A → A → Z) (P : A → Prop) (le : relation A).
Hypothesis le_trans : ∀ a b c, le a b → le b c → le a c.
Hypothesis compare_neg : ∀ a b, P a → P b → compare a b < 0 → le a b.
Hypothesis compare_nonneg : ∀ a b, P a → P b → 0 ≤ compare a b → le b a.

Lemma sort_sorted work :
  Forall P work → StronglySorted le (ArraySort.sort compare work).
Proof.
  intros HP.
  apply (sort_ok compare P le le le_trans ltac:(done) le_trans le_trans
           compare_neg compare_nonneg (λ _ _, True)); done.
Qed.
End KeyOrderSort.
(** ** Sorting with a consistent comparator *)
Section Consistent.
Context {A : Type} (compare : A → A → Z) (domain : list A).
Hypothesis consistent : ConsistentOn compare domain.

Local Abbreviation inside := (λ a, a ∈ domain).
Local Abbreviation le := (orderOn compare domain).

Lemma consistent_refl a : a ∈ domain → compare a a = 0.
Proof.
  intros Ha. unfold ConsistentOn in consistent.
  rewrite Forall_forall in consistent. by apply consistent.
Qed.

Lemma consistent_sym a b :
  a ∈ domain → b ∈ domain → compare a b = 0 → compare b a = 0.
Proof.
  intros Ha Hb. unfold ConsistentOn in consistent.
  rewrite Forall_forall in consistent.
  destruct (consistent a Ha) as [_ H]. rewrite Forall_forall in H.
  by apply H.
Qed.

Lemma consistent_triple a b c :
  a ∈ domain → b ∈ domain → c ∈ domain →
  (compare a b = 0 → compare b c = 0 → compare a c = 0)
  ∧ (compare a b < 0 → compare b c < 0 → compare a c < 0)
  ∧ (0 < compare a b → 0 < compare b c → 0 < compare a c).
Proof.
  intros Ha Hb Hc. unfold ConsistentOn in consistent.
  rewrite Forall_forall in consistent.
  destruct (consistent a Ha) as [_ H]. rewrite Forall_forall in H.
  destruct (H b Hb) as [_ H']. rewrite Forall_forall in H'.
  by apply H'.
Qed.

Lemma consistent_antisym a b :
  a ∈ domain → b ∈ domain → compare a b < 0 → 0 < compare b a.
Proof.
  intros Ha Hb Hab.
  destruct (Z.lt_trichotomy (compare b a) 0) as [Hba|[Hba|Hba]]; [| |lia].
  - destruct (consistent_triple a b a) as (_ & Hlt & _); [done..|].
    pose proof (consistent_refl a Ha). lia.
  - pose proof (consistent_sym b a Hb Ha Hba). lia.
Qed.

Lemma consistent_antisym' a b :
  a ∈ domain → b ∈ domain → 0 < compare a b → compare b a < 0.
Proof.
  intros Ha Hb Hab.
  destruct (Z.lt_trichotomy (compare b a) 0) as [Hba|[Hba|Hba]]; [lia| |].
  - pose proof (consistent_sym b a Hb Ha Hba). lia.
  - destruct (consistent_triple a b a) as (_ & _ & Hgt); [done..|].
    pose proof (consistent_refl a Ha). lia.
Qed.

Lemma consistent_lt_le a b c :
  a ∈ domain → b ∈ domain → c ∈ domain →
  compare a b < 0 → compare b c ≤ 0 → compare a c < 0.
Proof.
  intros Ha Hb Hc Hab Hbc.
  destruct (consistent_triple a b c) as (_ & Hlt & _); [done..|].
  destruct (decide (compare b c < 0)) as [?|Hbc0]; [auto|].
  assert (compare b c = 0) as Heq by lia.
  destruct (Z.lt_trichotomy (compare a c) 0) as [Hac|[Hac|Hac]]; [done| |].
  - pose proof (consistent_sym b c Hb Hc Heq) as Hcb.
    destruct (consistent_triple a c b) as (Htr & _ & _); [done..|].
    specialize (Htr Hac Hcb). lia.
  - pose proof (consistent_antisym' a c Ha Hc Hac) as Hca.
    destruct (consistent_triple c a b) as (_ & Hlt' & _); [done..|].
    specialize (Hlt' Hca Hab).
    pose proof (consistent_sym b c Hb Hc Heq). lia.
Qed.

Lemma consistent_le_lt a b c :
  a ∈ domain → b ∈ domain → c ∈ domain →
  compare a b ≤ 0 → compare b c < 0 → compare a c < 0.
Proof.
  intros Ha Hb Hc Hab Hbc.
  destruct (consistent_triple a b c) as (_ & Hlt & _); [done..|].
  destruct (decide (compare a b < 0)) as [?|Hab0]; [auto|].
  assert (compare a b = 0) as Heq by lia.
  destruct (Z.lt_trichotomy (compare a c) 0) as [Hac|[Hac|Hac]]; [done| |].
  - pose proof (consistent_sym a b Ha Hb Heq) as Hba.
    destruct (consistent_triple b a c) as (Htr & _ & _); [done..|].
    specialize (Htr Hba Hac). lia.
  - pose proof (consistent_antisym b c Hb Hc Hbc) as Hcb.
    destruct (consistent_triple a c b) as (_ & _ & Hgt); [done..|].
    specialize (Hgt Hac Hcb). lia.
Qed.

Lemma consistent_le_trans a b c : le a b → le b c → le a c.
Proof.
  intros (Ha & Hb & Hab) (_ & Hc & Hbc). split_and!; [done..|].
  destruct (decide (compare a b < 0)) as [Hlt|Hnlt].
  - pose proof (consistent_lt_le a b c Ha Hb Hc Hlt Hbc). lia.
  - destruct (decide (compare b c < 0)) as [Hlt|Hnlt'].
    + pose proof (consistent_le_lt a b c Ha Hb Hc Hab Hlt). lia.
    + destruct (consistent_triple a b c) as (Heq & _ & _); [done..|].
      rewrite Heq; lia.
Qed.

Lemma consistent_neg_le a b : inside a → inside b → compare a b < 0 → le a b.
Proof. intros Ha Hb Hab. split_and!; [done..|lia]. Qed.

Lemma consistent_nonneg_le a b : inside a → inside b → 0 ≤ compare a b → le b a.
Proof.
  intros Ha Hb Hab. split_and!; [done..|].
  destruct (decide (compare a b = 0)) as [Heq|Hne].
  - rewrite (consistent_sym a b); [lia|done..].
  - pose proof (consistent_antisym' a b Ha Hb). lia.
Qed.

(** The sorted array is in the order of the comparator. *)
Lemma sort_consistent_sorted work :
  work ⊆ domain → StronglySorted le (ArraySort.sort compare work).
Proof.
  intros Hsub.
  apply (sort_sorted compare inside le).
  - apply consistent_le_trans.
  - apply consistent_neg_le.
  - apply consistent_nonneg_le.
  - apply Forall_forall. intros x Hx. by apply Hsub.
Qed.

(** *** Stability *)

Lemma filter_none (Q : A → Prop) `{∀ y, Decision (Q y)} (l : list A) :
  Forall (λ y, ¬ Q y) l → filter Q l = [].
Proof.
  induction 1 as [|y l Hy _ IH]; [done|].
  by rewrite filter_cons_False.
Qed.

Lemma strictOn_trans a b c :
  strictOn compare domain a b → strictOn compare domain b c →
  strictOn compare domain a c.
Proof.
  intros (Ha & Hb & Hab) (_ & Hc & Hbc). split_and!; [done..|].
  destruct (consistent_triple a b c) as (_ & Hlt & _); auto.
Qed.

Lemma consistent_equal_trans x a b :
  x ∈ domain → a ∈ domain → b ∈ domain →
  compare x a = 0 → compare x b = 0 → compare a b = 0.
Proof.
  intros Hx Ha Hb Hxa Hxb.
  destruct (consistent_triple a x b) as (Heq & _ & _); [done..|].
  apply Heq; [|done]. by apply consistent_sym.
Qed.

(** A strictly descending run holds at most one value of each class of
    equal values. *)
Lemma descending_filter_short x d :
  x ∈ domain → StronglySorted (flip (strictOn compare domain)) d →
  (length (filter (λ y, (compare x y = 0)%Z) d) ≤ 1)%nat.
Proof.
  intros Hx. induction 1 as [|a d Hs IH Hall]; [simpl; lia|].
  rewrite filter_cons. case_decide as Hxa; [|done].
  rewrite filter_none; [simpl; lia|].
  eapply Forall_impl; [exact Hall|]. intros b (Hb & Ha & Hba) Hxb.
  pose proof (consistent_equal_trans x a b Hx Ha Hb Hxa Hxb).
  pose proof (consistent_antisym b a Hb Ha Hba). lia.
Qed.

Lemma filter_reverse_short (Q : A → Prop) `{∀ y, Decision (Q y)} (d : list A) :
  (length (filter Q d) ≤ 1)%nat → filter Q (reverse d) = filter Q d.
Proof.
  intros Hlen. rewrite filter_reverse.
  destruct (filter Q d) as [|y [|z k]]; [done..|simpl in Hlen; lia].
Qed.

Lemma countAndMakeRun_stable x work run remaining :
  x ∈ domain → work ⊆ domain →
  ArraySort.countAndMakeRun compare work = (run, remaining) →
  filter (λ y, compare x y = 0) (run ++ remaining)
  = filter (λ y, compare x y = 0) work.
Proof.
  intros Hx Hsub. destruct work as [|x0 [|x1 rest]]; simpl.
  - intros [= <- <-]. done.
  - intros [= <- <-]. done.
  - destruct (ArraySort.extendRun compare _ x1 rest) as [run' rem'] eqn:E.
    intros [= <- <-].
    pose proof (extendRun_app _ _ _ _ _ _ E) as ->.
    case_bool_decide as Hc; [|done].
    rewrite (filter_app _ (reverse _)), filter_reverse_short.
    { by rewrite <- filter_app. }
    apply descending_filter_short; [done|].
    assert (x0 ∈ domain) as H0 by (apply Hsub; set_solver).
    assert (x1 ∈ domain) as H1 by (apply Hsub; set_solver).
    assert (Forall (λ a, a ∈ domain) (run' ++ rem')) as Hrest.
    { apply Forall_forall. intros y Hy. apply Hsub.
      do 2 apply list_elem_of_further. done. }
    pose proof (extendRun_descending compare (λ a, a ∈ domain)
                  (strictOn compare domain) strictOn_trans
                  (λ a b Ha Hb Hab, conj Ha (conj Hb Hab))
                  _ _ _ _ H1 Hrest E) as Hs.
    constructor; [done|]. constructor; [by split_and!|].
    apply StronglySorted_inv in Hs as [_ Hall].
    eapply Forall_impl; [exact Hall|]. intros y Hy.
    unfold flip in *. eapply strictOn_trans; [done|]. by split_and!.
Qed.

Lemma insertionPoint_strict work pivot :
  work ⊆ domain → pivot ∈ domain → StronglySorted le work →
  Forall (λ y, compare pivot y < 0)
    (drop (ArraySort.insertionPoint compare work pivot) work).
Proof.
  intros Hsub Hpivot Hs. unfold ArraySort.insertionPoint.
  destruct (binarySearch_inv compare (λ _, True) (λ y, compare pivot y < 0)
              (length work) work pivot 0%nat (length work))
    as (pos & -> & Hpos & _ & HG); [lia|lia| |done|done|..].
  - intros i x Hi Hc j y Hij Hj.
    destruct (decide (i = j)) as [->|Hne]; [congruence|].
    destruct (StronglySorted_lookup le work i j x y) as (Hx & Hy & Hxy);
      [done|lia|done..|].
    exact (consistent_lt_le pivot x y Hpivot Hx Hy Hc Hxy).
  - intros j y Hj Hy. apply lookup_lt_Some in Hy. lia.
  - apply Forall_lookup. intros i y Hiy.
    rewrite lookup_drop in Hiy. eapply HG; [|done]. lia.
Qed.

Lemma binaryInsert_stable x work pivot :
  x ∈ domain → work ⊆ domain → pivot ∈ domain → StronglySorted le work →
  filter (λ y, compare x y = 0) (ArraySort.binaryInsert compare work pivot)
  = filter (λ y, compare x y = 0) (work ++ [pivot]).
Proof.
  intros Hx Hsub Hpivot Hs.
  pose proof (insertionPoint_strict work pivot Hsub Hpivot Hs) as Hdrop.
  unfold ArraySort.binaryInsert.
  generalize dependent (ArraySort.insertionPoint compare work pivot).
  intros pos Hdrop.
  rewrite <- (take_drop pos work) at 3.
  rewrite !filter_app, filter_cons, <- app_assoc. f_equal.
  case_decide as Hxp.
  - rewrite filter_none; [by rewrite filter_singleton_True|].
    apply Forall_forall. intros y Hy Hxy.
    rewrite Forall_forall in Hdrop. specialize (Hdrop y Hy).
    assert (y ∈ domain) as Hyd.
    { apply Hsub. by apply (subseteq_drop pos work). }
    pose proof (consistent_equal_trans x pivot y Hx Hpivot Hyd Hxp Hxy). lia.
  - by rewrite filter_singleton_False, app_nil_r.
Qed.

Lemma binaryInsertionSort_stable x remaining run :
  x ∈ domain → run ⊆ domain → remaining ⊆ domain → StronglySorted le run →
  filter (λ y, compare x y = 0) (ArraySort.binaryInsertionSort compare run remaining)
  = filter (λ y, compare x y = 0) (run ++ remaining).
Proof.
  intros Hx. unfold ArraySort.binaryInsertionSort.
  revert run. induction remaining as [|p remaining IH]; intros run Hrun Hrem Hs; simpl.
  - by rewrite app_nil_r.
  - assert (p ∈ domain) as Hp by (apply Hrem; set_solver).
    rewrite IH.
    + rewrite filter_app, (binaryInsert_stable x run p Hx Hrun Hp Hs).
      rewrite <- filter_app, <- app_assoc. done.
    + intros y Hy. rewrite binaryInsert_perm in Hy.
      apply elem_of_app in Hy as [Hy|Hy%list_elem_of_singleton];
        [by apply Hrun|by subst].
    + intros y Hy. apply Hrem. by apply list_elem_of_further.
    + apply (binaryInsert_sorted compare inside le).
      * apply consistent_le_trans.
      * apply consistent_neg_le.
      * apply consistent_nonneg_le.
      * apply Forall_forall. intros y Hy. by apply Hrun.
      * done.
      * done.
Qed.

Lemma nextRun_stable x minRunLength remaining run rest :
  x ∈ domain → remaining ⊆ domain →
  ArraySort.nextRun compare minRunLength remaining = (run, rest) →
  filter (λ y, compare x y = 0) (run ++ rest)
  = filter (λ y, compare x y = 0) remaining.
Proof.
  intros Hx Hsub. unfold ArraySort.nextRun.
  destruct (ArraySort.countAndMakeRun compare remaining) as [run0 rest0] eqn:E.
  pose proof (countAndMakeRun_perm compare _ _ _ E) as Hperm.
  pose proof (countAndMakeRun_stable x _ _ _ Hx Hsub E) as Hstable.
  assert (run0 ++ rest0 ⊆ domain) as Hsub'.
  { intros y Hy. apply Hsub. by rewrite <- Hperm. }
  destruct (decide _); intros [= <- <-]; [|done].
  rewrite <- Hstable.
  rewrite <- (take_drop (minRunLength `min` length remaining - length run0) rest0)
    at 3.
  rewrite filter_app, binaryInsertionSort_stable, app_assoc, <- filter_app;
    [done|done|set_solver| |].
  - intros y Hy%subseteq_take. set_solver.
  - eapply (countAndMakeRun_sorted compare inside le);
      [apply consistent_le_trans|apply consistent_neg_le
      |apply consistent_nonneg_le| |exact E].
    apply Forall_forall. intros y Hy. by apply Hsub.
Qed.

(** A merge keeps the values that compare equal in the order in which
    the two runs hold them. *)
Lemma Merged_stable x l1 l2 l :
  x ∈ domain → Merged le (strictOn compare domain) l1 l2 l →
  filter (λ y, compare x y = 0) l
  = filter (λ y, compare x y = 0) l1 ++ filter (λ y, compare x y = 0) l2.
Proof.
  intros Hx.
  assert (∀ b l', compare x b = 0 → Forall (strictOn compare domain b) l' →
                  filter (λ y, compare x y = 0) l' = []) as Hnone_after.
  { intros b l' Hxb Hall. apply filter_none.
    eapply Forall_impl; [exact Hall|]. intros a (Hb & Ha & Hba) Hxa.
    pose proof (consistent_equal_trans x b a Hx Hb Ha Hxb Hxa). lia. }
  assert (∀ a l', compare x a = 0 →
                  Forall (λ b, strictOn compare domain b a) l' →
                  filter (λ y, compare x y = 0) l' = []) as Hnone_before.
  { intros a l' Hxa Hall. apply filter_none.
    eapply Forall_impl; [exact Hall|]. intros b (Hb & Ha & Hba) Hxb.
    pose proof (consistent_equal_trans x b a Hx Hb Ha Hxb Hxa). lia. }
  induction 1 as [|a l1 l2 l _ IH _|b l1 l2 l _ IH Hb
                  |a l1 l2 l _ IH Ha|b l1 l2 l _ IH _].
  - done.
  - rewrite !filter_cons, IH. by case_decide.
  - rewrite !filter_cons, IH. case_decide as Hxb; [|done].
    by rewrite (Hnone_after b l1).
  - rewrite !filter_app, IH, !filter_cons, filter_nil.
    case_decide as Hxa.
    + by rewrite (Hnone_before a l2), !app_nil_r.
    + by rewrite !app_nil_r.
  - by rewrite !filter_app, IH, app_assoc.
Qed.

(** Values that compare equal stay in the order they came in. *)
Lemma sort_consistent_stable x work :
  x ∈ domain → work ⊆ domain →
  filter (λ y, compare x y = 0) (ArraySort.sort compare work)
  = filter (λ y, compare x y = 0) work.
Proof.
  intros Hx Hsub. revert x Hx.
  apply (sort_ok compare inside le (strictOn compare domain)
           consistent_le_trans) with
    (Q := λ l l', ∀ x, x ∈ domain →
                   filter (λ y, compare x y = 0) l'
                   = filter (λ y, compare x y = 0) l).
  - intros a b (Ha & Hb & Hab). split_and!; [done..|lia].
  - intros a b c (Ha & Hb & Hab) (_ & Hc & Hbc). split_and!; [done..|].
    by apply (consistent_lt_le a b c).
  - intros a b c (Ha & Hb & Hab) (_ & Hc & Hbc). split_and!; [done..|].
    by apply (consistent_le_lt a b c).
  - intros a b Ha Hb Hab. by split_and!.
  - apply consistent_nonneg_le.
  - done.
  - intros l1 l2 l3 H12 H23 y Hy. by rewrite H23, H12.
  - intros pre l1 l2 l post _ _ Hm y Hy.
    by rewrite !filter_app, (Merged_stable y _ _ _ Hy Hm), <- !app_assoc.
  - intros l l' post Hl y Hy. by rewrite !filter_app, Hl.
  - intros pre minRunLength remaining run rest HP Hnext y Hy.
    rewrite !filter_app, <- filter_app.
    rewrite (nextRun_stable y minRunLength remaining run rest Hy); [done| |done].
    intros z Hz. rewrite Forall_forall in HP. by apply HP.
  - apply Forall_forall. intros y Hy. by apply Hsub.
Qed.

(** *** The sorted array is determined

    There is one array that is in the order of the comparator and keeps
    the values that compare as equal in the order of the input: whatever
    else sorts with a consistent comparator, and stably, returns what
    [ArraySort.sort] returns. *)
Lemma sorted_stable_unique l1 l2 :
  l1 ⊆ domain → l2 ⊆ domain →
  StronglySorted le l1 → StronglySorted le l2 →
  (∀ x, x ∈ domain →
     filter (λ y, compare x y = 0) l1 = filter (λ y, compare x y = 0) l2) →
  l1 = l2.
Proof.
  revert l2. induction l1 as [|x l1 IH]; intros l2 H1 H2 Hs1 Hs2 Hfilter.
  - destruct l2 as [|y l2]; [done|exfalso].
    assert (y ∈ domain) as Hy by (apply H2, list_elem_of_here).
    specialize (Hfilter y Hy).
    rewrite filter_nil, filter_cons_True in Hfilter by by apply consistent_refl.
    done.
  - assert (x ∈ domain) as Hx by (apply H1, list_elem_of_here).
    destruct l2 as [|y l2].
    { specialize (Hfilter x Hx).
      rewrite filter_nil, filter_cons_True in Hfilter by by apply consistent_refl.
      done. }
    assert (y ∈ domain) as Hy by (apply H2, list_elem_of_here).
    apply StronglySorted_inv in Hs1 as [Hs1 Hall1].
    apply StronglySorted_inv in Hs2 as [Hs2 Hall2].
    rewrite Forall_forall in Hall1, Hall2.
    assert (compare x y = 0) as Hxy.
    { assert (compare x y ≤ 0) as Hle1.
      { pose proof (Hfilter y Hy) as Hf.
        rewrite (filter_cons_True _ y l2) in Hf by by apply consistent_refl.
        assert (y ∈ filter (λ z, compare y z = 0) (x :: l1)) as Hin
          by (rewrite Hf; apply list_elem_of_here).
        apply list_elem_of_filter in Hin as [_ [->|Hin]%elem_of_cons].
        - rewrite consistent_refl; [lia|done].
        - by destruct (Hall1 y Hin) as (_ & _ & ?). }
      assert (compare y x ≤ 0) as Hle2.
      { pose proof (Hfilter x Hx) as Hf.
        rewrite (filter_cons_True _ x l1) in Hf by by apply consistent_refl.
        assert (x ∈ filter (λ z, compare x z = 0) (y :: l2)) as Hin
          by (rewrite <- Hf; apply list_elem_of_here).
        apply list_elem_of_filter in Hin as [_ [->|Hin]%elem_of_cons].
        - rewrite consistent_refl; [lia|done].
        - by destruct (Hall2 x Hin) as (_ & _ & ?). }
      destruct (Z.lt_trichotomy (compare x y) 0) as [Hlt|[?|?]]; [|done|lia].
      pose proof (consistent_antisym x y Hx Hy Hlt). lia. }
    assert (x = y) as <-.
    { pose proof (Hfilter x Hx) as Hf.
      rewrite (filter_cons_True _ x l1) in Hf by by apply consistent_refl.
      rewrite (filter_cons_True _ y l2) in Hf by done.
      by injection Hf. }
    f_equal. apply IH; [| |done..|].
    + intros z Hz. apply H1. by apply list_elem_of_further.
    + intros z Hz. apply H2. by apply list_elem_of_further.
    + intros z Hz. specialize (Hfilter z Hz).
      rewrite !filter_cons in Hfilter.
      destruct (decide (compare z x = 0)); [by injection Hfilter|done].
Qed.

Lemma sort_consistent_unique work sorted :
  work ⊆ domain → sorted ⊆ domain →
  StronglySorted le sorted →
  (∀ x, x ∈ domain →
     filter (λ y, compare x y = 0) sorted = filter (λ y, compare x y = 0) work) →
  sorted = ArraySort.sort compare work.
Proof.
  intros Hwork Hsorted Hs Hstable.
  apply sorted_stable_unique; [done| |done| |].
  - intros x Hx. apply Hwork. by rewrite <- (sort_perm compare work).
  - by apply sort_consistent_sorted.
  - intros x Hx. rewrite Hstable by done. symmetry.
    by apply sort_consistent_stable.
Qed.

(** Sorting what is sorted changes nothing. *)
Lemma sort_consistent_idempotent work :
  work ⊆ domain →
  ArraySort.sort compare (ArraySort.sort compare work) = ArraySort.sort compare work.
Proof.
  intros Hsub.
  assert (ArraySort.sort compare work ⊆ domain) as Hsub'.
  { intros x Hx. apply Hsub. by rewrite <- (sort_perm compare work). }
  symmetry. apply sort_consistent_unique; [done..| |done].
  by apply sort_consistent_sorted.
Qed.
End Consistent.

Lemma computeMinRunLengthLoop_le fuel n r :
  (r ≤ 1)%nat → (ArraySort.computeMinRunLengthLoop fuel n r ≤ n + r)%nat.
Proof.
  revert n r. induction fuel as [|fuel IH]; intros n r Hr;
    cbn [ArraySort.computeMinRunLengthLoop]; [done|].
  destruct (decide (64 ≤ n)%nat) as [Hn|Hn]; [|done].
  assert (Nat.lor r (Nat.land n 1) ≤ 1)%nat as Hr'.
  { change 1%nat with (Nat.ones 1) at 1. rewrite Nat.land_ones.
    assert (n mod 2 ^ 1 < 2)%nat as Hmod by (apply Nat.mod_upper_bound; simpl; lia).
    destruct r as [|[|r]]; [| |lia];
      destruct (n mod 2 ^ 1)%nat as [|[|m]]; first [lia|vm_compute; lia]. }
  etransitivity; [by apply IH|].
  assert (n / 2 < n)%nat by (apply Nat.div_lt; lia). lia.
Qed.

Lemma computeMinRunLength_le n : (ArraySort.computeMinRunLength n ≤ n)%nat.
Proof.
  unfold ArraySort.computeMinRunLength.
  pose proof (computeMinRunLengthLoop_le n n 0). lia.
Qed.

Lemma makeRuns_single {A : Type} (compare : A → A → Z) fuel minRunLength
    work state run :
  work ≠ [] →
  ArraySort.nextRun compare minRunLength work = (run, []) →
  ArraySort.makeRuns compare (S fuel) minRunLength work state
  = ArraySort.pushRun compare state run.
Proof.
  intros Hne Hnext. cbn [ArraySort.makeRuns].
  rewrite decide_False by (by destruct work). rewrite Hnext.
  by destruct fuel.
Qed.

(** An array that the comparator takes for strictly descending
    throughout is one run, at any length: it is reversed. *)
Lemma sort_descending {A : Type} (compare : A → A → Z) (work : list A) :
  (∀ x y, x ∈ work → compare x y < 0) →
  ArraySort.sort compare work = reverse work.
Proof.
  intros Hneg. unfold ArraySort.sort.
  destruct (decide _) as [Hlen|Hlen].
  { destruct work as [|x [|y work]]; [done..|simpl in Hlen; lia]. }
  assert (ArraySort.countAndMakeRun compare work = (reverse work, [])) as Hrun.
  { destruct work as [|x0 [|x1 rest]]; [done..|].
    unfold ArraySort.countAndMakeRun.
    rewrite bool_decide_true
      by (apply Hneg; apply list_elem_of_further, list_elem_of_here).
    assert (ArraySort.extendRun compare true x1 rest = (rest, [])) as ->; [|done].
    assert (∀ x y, x ∈ rest → compare x y < 0) as Hrest.
    { intros x y Hx. apply Hneg. by do 2 apply list_elem_of_further. }
    clear Hneg Hlen. revert x1. induction rest as [|x rest IH]; intros prev; [done|].
    simpl. rewrite bool_decide_true by apply Hrest, list_elem_of_here.
    rewrite IH; [done|]. intros y z Hy. apply Hrest. by apply list_elem_of_further. }
  assert (ArraySort.nextRun compare (ArraySort.computeMinRunLength (length work)) work
          = (reverse work, [])) as Hnext.
  { unfold ArraySort.nextRun. rewrite Hrun.
    rewrite decide_False; [done|].
    rewrite length_reverse. pose proof (computeMinRunLength_le (length work)). lia. }
  destruct (length work) as [|n] eqn:Hn; [lia|].
  rewrite (makeRuns_single compare n _ work _ (reverse work));
    [|by intros ->|done].
  unfold ArraySort.pushRun, ArraySort.pendingElements. cbn.
  by rewrite app_nil_r.
Qed.

(** An array of fewer than 64 elements is a single run: the run that
    [CountAndMakeRun] finds, with the rest inserted into it. *)
Lemma sort_short {A : Type} (compare : A → A → Z) (work : list A) :
  (2 ≤ length work < 64)%nat →
  ArraySort.sort compare work
  = ArraySort.binaryInsertionSort compare
      (ArraySort.countAndMakeRun compare work).1
      (ArraySort.countAndMakeRun compare work).2.
Proof.
  intros Hlen. unfold ArraySort.sort. rewrite decide_False by lia.
  assert (ArraySort.computeMinRunLength (length work) = length work) as ->.
  { unfold ArraySort.computeMinRunLength.
    destruct (length work) as [|n]; [done|].
    cbn [ArraySort.computeMinRunLengthLoop]. rewrite decide_False by lia. lia. }
  destruct (ArraySort.countAndMakeRun compare work) as [run0 rest0] eqn:E.
  pose proof (countAndMakeRun_perm compare _ _ _ E) as Hperm.
  apply Permutation_length in Hperm. rewrite length_app in Hperm.
  assert (ArraySort.nextRun compare (length work) work
          = (ArraySort.binaryInsertionSort compare run0 rest0, [])) as Hnext.
  { unfold ArraySort.nextRun. rewrite E.
    destruct (decide (length run0 < length work)%nat) as [Hshort|Hwhole].
    - rewrite Nat.min_id, take_ge, drop_ge by lia. done.
    - destruct rest0; [done|simpl in Hperm; lia]. }
  destruct (length work) as [|n] eqn:Hn; [lia|].
  rewrite (makeRuns_single compare n _ work _
             (ArraySort.binaryInsertionSort compare run0 rest0));
    [|by intros ->|done].
  unfold ArraySort.pushRun, ArraySort.pendingElements. cbn.
  by rewrite app_nil_r.
Qed.

(** * Properties of calls that may throw *)

Lemma bind_Ok {T U : Type} (r : Res T) (f : T → Res U) v :
  bind r f = Ok v ↔ ∃ u, r = Ok u ∧ f u = Ok v.
Proof.
  destruct r as [u|e]; simpl; split.
  - eauto.
  - intros (u' & [= <-] & H). done.
  - done.
  - intros (u' & [=] & _).
Qed.

Lemma bind_Throw {T U : Type} (r : Res T) (f : T → Res U) e :
  r = Throw e → bind r f = Throw e.
Proof. by intros ->. Qed.

Section ResFacts.
Context {T U : Type}.

Lemma mapRes_Ok (f : T → Res U) values results :
  mapRes f values = Ok results ↔ Forall2 (λ v u, f v = Ok u) values results.
Proof.
  revert results. induction values as [|v values IH]; intros results;
    cbn [mapRes].
  - split.
    + intros [= <-]. constructor.
    + by inversion 1.
  - rewrite bind_Ok. split.
    + intros (u & Hu & Hrest). apply bind_Ok in Hrest as (us & Hus & [= <-]).
      constructor; [done|]. by apply IH.
    + inversion 1 as [|? u ? us Hu Hus]; subst.
      exists u. split; [done|]. apply bind_Ok. exists us.
      split; [by apply IH|done].
Qed.

(** When one of the calls throws, so does the whole. *)
Lemma mapRes_Throw (f : T → Res U) values :
  Exists (λ v, ∃ e, f v = Throw e) values → ∃ e, mapRes f values = Throw e.
Proof.
  induction 1 as [v values [e He]|v values _ [e IH]]; simpl.
  - exists e. by rewrite He.
  - destruct (f v) as [u|e']; simpl; [|by eauto].
    rewrite IH. simpl. eauto.
Qed.

(** The error of the whole is then the error of one of the calls. *)
Lemma mapRes_Throw_elem (f : T → Res U) values :
  Exists (λ v, ∃ e, f v = Throw e) values →
  ∃ v e, v ∈ values ∧ f v = Throw e ∧ mapRes f values = Throw e.
Proof.
  induction 1 as [v values [e He]|v values _ (v' & e & Hv' & He & IH)];
    cbn [mapRes].
  - exists v, e. rewrite He. split_and!; [by left|done..].
  - destruct (f v) as [u|e'] eqn:Hv; cbn [bind].
    + exists v', e. rewrite IH. split_and!; [by right|done..].
    + exists v, e'. split_and!; [by left|done..].
Qed.
End ResFacts.

Lemma flatMapM_Ok {T U : Type} (f : T → Res (list U)) values results :
  LspDiagnostic.flatMapM f values = Ok results ↔
  ∃ lists, Forall2 (λ v us, f v = Ok us) values lists ∧ results = List.concat lists.
Proof.
  unfold LspDiagnostic.flatMapM. rewrite bind_Ok. split.
  - intros (lists & Hlists%mapRes_Ok & [= <-]). eauto.
  - intros (lists & Hlists%mapRes_Ok & ->). eauto.
Qed.

Lemma flatMapM_Throw {T U : Type} (f : T → Res (list U)) values :
  Exists (λ v, ∃ e, f v = Throw e) values →
  ∃ e, LspDiagnostic.flatMapM f values = Throw e.
Proof.
  intros [e He]%mapRes_Throw. exists e.
  unfold LspDiagnostic.flatMapM. by rewrite He.
Qed.

Lemma flatMapM_Throw_elem {T U : Type} (f : T → Res (list U)) values :
  Exists (λ v, ∃ e, f v = Throw e) values →
  ∃ v e, v ∈ values ∧ f v = Throw e ∧ LspDiagnostic.flatMapM f values = Throw e.
Proof.
  intros (v & e & Hv & He & Hall)%mapRes_Throw_elem. exists v, e.
  unfold LspDiagnostic.flatMapM. by rewrite Hall.
Qed.

(** * Properties of lsp_diagnostic.ts *)

Section SortItemDiagnostic.
Import LspDiagnostic.
Context (curBufNr : Z).

(** The comparator, by the cases of the two buffer numbers. *)
Lemma compareItems_spec a b :
  compareItems curBufNr a b =
  match item_bufNr a, item_bufNr b with
  | Some na, Some nb =>
      if decide (na ≠ 0 ∧ nb = na) then
        if decide (item_severity a = item_severity b)
        then item_lineNr a - item_lineNr b
        else default 1 (item_severity a) - default 1 (item_severity b)
      else if decide (na = curBufNr) then -1
      else if decide (nb = curBufNr) then 1
      else na - nb
  | Some na, None => if decide (na = curBufNr) then -1 else 1
  | None, _ => -1
  end.
Proof.
  unfold compareItems, sameBuffer, undefinedOrCurrent.
  destruct (item_bufNr a) as [na|]; [|reflexivity].
  destruct (item_bufNr b) as [nb|]; cbn [default].
  - destruct (decide (na ≠ 0 ∧ nb = na)) as [[Hna ->]|Hn].
    + rewrite (bool_decide_true (na ≠ 0)); [|done].
      rewrite (bool_decide_true (Some na = Some na)); [|done]. cbn [andb].
      rewrite bool_decide_decide. by destruct (decide _).
    + assert (bool_decide (na ≠ 0) && bool_decide (Some nb = Some na) = false) as ->.
      { apply andb_false_iff. rewrite !bool_decide_eq_false.
        destruct (decide (na = 0)) as [->|]; [left; tauto|].
        right. intros [= ->]. tauto. }
      rewrite !bool_decide_decide.
      destruct (decide (na = curBufNr)); [done|].
      by destruct (decide (nb = curBufNr)).
  - rewrite (bool_decide_false (None = Some na)), andb_false_r; [|done].
    rewrite bool_decide_decide. by destruct (decide _).
Qed.

Lemma bufferOrder_trans a b c :
  bufferOrder curBufNr a b → bufferOrder curBufNr b c → bufferOrder curBufNr a c.
Proof.
  unfold bufferOrder.
  destruct (item_bufNr a), (item_bufNr b), (item_bufNr c); try tauto; lia.
Qed.

Lemma compareItems_neg_bufferOrder a b :
  compareItems curBufNr a b < 0 → bufferOrder curBufNr a b.
Proof.
  rewrite compareItems_spec. unfold bufferOrder.
  destruct (item_bufNr a) as [na|], (item_bufNr b) as [nb|];
    repeat case_decide; lia.
Qed.

Lemma compareItems_nonneg_bufferOrder a b :
  0 ≤ compareItems curBufNr a b → bufferOrder curBufNr b a.
Proof.
  rewrite compareItems_spec. unfold bufferOrder.
  destruct (item_bufNr a) as [na|], (item_bufNr b) as [nb|];
    repeat case_decide; lia.
Qed.

Lemma sortItemDiagnostic_bufferOrder items :
  StronglySorted (bufferOrder curBufNr) (sortItemDiagnostic items curBufNr).
Proof.
  unfold sortItemDiagnostic.
  apply (sort_sorted (compareItems curBufNr) (λ _, True)).
  - apply bufferOrder_trans.
  - intros a b _ _. apply compareItems_neg_bufferOrder.
  - intros a b _ _. apply compareItems_nonneg_bufferOrder.
  - by apply Forall_true.
Qed.

Lemma sortItemDiagnostic_perm items :
  sortItemDiagnostic items curBufNr ≡ₚ items.
Proof. apply sort_perm. Qed.

Lemma itemKeyLe_trans lineOfErrors n a b c :
  itemKeyLe lineOfErrors curBufNr n a b → itemKeyLe lineOfErrors curBufNr n b c →
  itemKeyLe lineOfErrors curBufNr n a c.
Proof.
  unfold itemKeyLe.
  destruct (itemKey lineOfErrors curBufNr n a) as [[[a1 a2] a3] a4].
  destruct (itemKey lineOfErrors curBufNr n b) as [[[b1 b2] b3] b4].
  destruct (itemKey lineOfErrors curBufNr n c) as [[[c1 c2] c3] c4].
  unfold keyLe. lia.
Qed.

Ltac key_arith :=
  cbn [default];
  repeat case_decide;
  repeat match goal with
  | H : Some _ = None |- _ => discriminate H
  | H : None = Some _ |- _ => discriminate H
  | H : Some _ = Some _ |- _ => injection H as H
  | H : Some ?x ≠ Some ?y |- _ => assert (x ≠ y) by congruence; clear H
  | H : item_severity ?a = item_severity ?b |- _ => rewrite H; clear H
  end;
  unfold id in *; first [congruence | lia].

(** The comparator never contradicts the key. *)
Lemma compareItems_key lineOfErrors absent n a b :
  absent = None ∨ absent = Some 1 →
  keyed lineOfErrors absent curBufNr n a → keyed lineOfErrors absent curBufNr n b →
  (compareItems curBufNr a b < 0 → itemKeyLe lineOfErrors curBufNr n a b)
  ∧ (0 ≤ compareItems curBufNr a b → itemKeyLe lineOfErrors curBufNr n b a).
Proof.
  intros Habsent [Ha1 Ha2] [Hb1 Hb2]. rewrite compareItems_spec.
  unfold itemKeyLe, itemKey, keyLe, effectiveSeverity.
  destruct (item_bufNr a) as [ma|] eqn:Ea; destruct (item_bufNr b) as [mb|] eqn:Eb.
  - clear Ha1 Hb1.
    destruct (decide (ma = n ∧ mb = n ∧ lineOfErrors = true)) as [(-> & -> & ->)|Hn].
    + specialize (Ha2 eq_refl eq_refl). specialize (Hb2 eq_refl eq_refl).
      destruct (item_severity a) as [sa|], (item_severity b) as [sb|];
        destruct Habsent as [-> | ->]; try done; key_arith.
    + clear Ha2 Hb2.
      destruct lineOfErrors.
      * destruct (item_severity a) as [sa|], (item_severity b) as [sb|];
          key_arith.
      * destruct (item_severity a) as [sa|], (item_severity b) as [sb|];
          key_arith.
  - assert (n ≠ curBufNr) by (intros E; by destruct (Hb1 E)).
    clear Ha1 Ha2 Hb1 Hb2. key_arith.
  - assert (n ≠ curBufNr) by (intros E; by destruct (Ha1 E)).
    clear Ha1 Ha2 Hb1 Hb2. key_arith.
  - lia.
Qed.

Ltac spec_cases :=
  rewrite ?compareItems_spec;
  repeat match goal with
  | H : fullItem _ |- _ =>
      let n := fresh "n" in let s := fresh "s" in
      let Hn := fresh "Hn" in let Hb := fresh "Hb" in let Hs := fresh "Hs" in
      destruct H as (n & Hb & Hn & s & Hs); rewrite ?Hb, ?Hs
  end;
  cbn [default];
  repeat case_decide;
  repeat match goal with
  | H : Some _ = Some _ |- _ => injection H as H
  | H : Some ?x ≠ Some ?y |- _ => assert (x ≠ y) by congruence; clear H
  end;
  unfold id; try lia.

Lemma fullItem_refl a : fullItem a → compareItems curBufNr a a = 0.
Proof. intros Ha. spec_cases. Qed.

Lemma fullItem_sym a b :
  fullItem a → fullItem b →
  compareItems curBufNr a b = 0 → compareItems curBufNr b a = 0.
Proof. intros Ha Hb. spec_cases. Qed.

Lemma fullItem_trans a b c :
  fullItem a → fullItem b → fullItem c →
  (compareItems curBufNr a b = 0 → compareItems curBufNr b c = 0 →
   compareItems curBufNr a c = 0)
  ∧ (compareItems curBufNr a b < 0 → compareItems curBufNr b c < 0 →
     compareItems curBufNr a c < 0)
  ∧ (0 < compareItems curBufNr a b → 0 < compareItems curBufNr b c →
     0 < compareItems curBufNr a c).
Proof. intros Ha Hb Hc. spec_cases. Qed.

(** On such items the comparator is consistent. *)
Lemma fullItems_consistent items :
  Forall fullItem items → ConsistentOn (compareItems curBufNr) items.
Proof.
  intros Hfull. rewrite Forall_forall in Hfull. unfold ConsistentOn.
  apply Forall_forall. intros a Ha. split; [by apply fullItem_refl, Hfull|].
  apply Forall_forall. intros b Hb. split; [by apply fullItem_sym; apply Hfull|].
  apply Forall_forall. intros c Hc. by apply fullItem_trans; apply Hfull.
Qed.
End SortItemDiagnostic.

(** ** The order of the sorted items *)

(** C3: in the sorted items, an item whose [bufNr] is undefined or is the
    current buffer stands before every item whose [bufNr] is defined and
    is another buffer, and the items of other buffers stand by ascending
    [bufNr]; the sorted items are the given items in another order. *)
Theorem sortItemDiagnostic_current_first
    (items : list LspDiagnostic.ItemDiagnostic.t) (curBufNr : Z)
    (i j : nat) (a b : LspDiagnostic.ItemDiagnostic.t) :
  LspDiagnostic.sortItemDiagnostic items curBufNr !! i = Some a →
  LspDiagnostic.sortItemDiagnostic items curBufNr !! j = Some b →
  LspDiagnostic.sortItemDiagnostic items curBufNr ≡ₚ items
  ∧ (∀ nb,
       LspDiagnostic.item_bufNr a = None
       ∨ LspDiagnostic.item_bufNr a = Some curBufNr →
       LspDiagnostic.item_bufNr b = Some nb → nb ≠ curBufNr →
       (i < j)%nat)
  ∧ (∀ na nb,
       LspDiagnostic.item_bufNr a = Some na → na ≠ curBufNr →
       LspDiagnostic.item_bufNr b = Some nb → nb ≠ curBufNr →
       (i < j)%nat → na ≤ nb).
Proof.
  intros Hi Hj.
  pose proof (sortItemDiagnostic_bufferOrder curBufNr items) as Hs.
  split_and!.
  - apply sortItemDiagnostic_perm.
  - intros nb Ha Hb Hnb.
    destruct (decide (i < j)%nat) as [|Hge]; [done|exfalso].
    destruct (decide (i = j)) as [->|Hne].
    { rewrite Hi in Hj. injection Hj as ->. destruct Ha; congruence. }
    assert (bufferOrder curBufNr b a) as Hba.
    { eapply (StronglySorted_lookup _ _ j i); [done|lia|done..]. }
    unfold bufferOrder in Hba. rewrite Hb in Hba.
    destruct Ha as [Ha|Ha]; rewrite Ha in Hba; lia.
  - intros na nb Ha Hna Hb Hnb Hij.
    assert (bufferOrder curBufNr a b) as Hab.
    { eapply (StronglySorted_lookup _ _ i j); [done|lia|done..]. }
    unfold bufferOrder in Hab. rewrite Ha, Hb in Hab. lia.
Qed.

Lemma sortItemDiagnostic_current_first_witness :
  let items := [sampleItem "other" (Some 9) (Some 1) 1;
                sampleItem "none" None (Some 2) 4;
                sampleItem "current" (Some 7) (Some 3) 2;
                sampleItem "low" (Some 3) (Some 1) 8] in
  let a := sampleItem "low" (Some 3) (Some 1) 8 in
  let b := sampleItem "other" (Some 9) (Some 1) 1 in
  LspDiagnostic.sortItemDiagnostic items 7 ≡ₚ items
  ∧ (∀ nb,
       LspDiagnostic.item_bufNr a = None ∨ LspDiagnostic.item_bufNr a = Some 7 →
       LspDiagnostic.item_bufNr b = Some nb → nb ≠ 7 → (2 < 3)%nat)
  ∧ (∀ na nb,
       LspDiagnostic.item_bufNr a = Some na → na ≠ 7 →
       LspDiagnostic.item_bufNr b = Some nb → nb ≠ 7 →
       (2 < 3)%nat → na ≤ nb).
Proof.
  intros items a b.
  apply (sortItemDiagnostic_current_first items 7 2 3 a b); reflexivity.
Defined.

(** C2, as stated, fails in three ways.  An item without severity and an
    item of severity 1 compare as equal, so that their lines are not
    looked at; the items of buffer 0 are not compared by severity at all;
    and an item without [bufNr] between two items of the current buffer
    keeps them from being compared with each other. *)
Lemma sortItemDiagnostic_within_buffer_counterexample :
  (let a := sampleItem "A" (Some 3) None 5 in
   let b := sampleItem "B" (Some 3) (Some 1) 2 in
   LspDiagnostic.sortItemDiagnostic [a; b] 7 = [a; b]
   ∧ effectiveSeverity a = effectiveSeverity b
   ∧ LspDiagnostic.item_lineNr b < LspDiagnostic.item_lineNr a)
  ∧ (let a := sampleItem "A" (Some 0) (Some 2) 1 in
     let b := sampleItem "B" (Some 0) (Some 1) 1 in
     LspDiagnostic.sortItemDiagnostic [a; b] 7 = [a; b]
     ∧ effectiveSeverity b < effectiveSeverity a)
  ∧ (let c1 := sampleItem "C1" (Some 7) (Some 2) 2 in
     let u := sampleItem "U" None (Some 1) 2 in
     let c2 := sampleItem "C2" (Some 7) (Some 1) 5 in
     LspDiagnostic.sortItemDiagnostic [c2; u; c1] 7 = [c1; u; c2]
     ∧ effectiveSeverity c2 < effectiveSeverity c1).
Proof. vm_compute. repeat split; reflexivity. Qed.

(** C2, amended: the sorted items that share a [bufNr] other than 0
    stand by ascending severity, a missing severity counting as 1,
    provided that, when that buffer is the current one, every item has a
    [bufNr]; and those of them that are equal in that severity stand by
    ascending line number, unless the severity is 1 and the buffer has
    both an item without severity and an item of severity 1. *)
Theorem sortItemDiagnostic_within_buffer
    (items : list LspDiagnostic.ItemDiagnostic.t) (curBufNr : Z)
    (i j : nat) (a b : LspDiagnostic.ItemDiagnostic.t) (n : Z) :
  LspDiagnostic.sortItemDiagnostic items curBufNr !! i = Some a →
  LspDiagnostic.sortItemDiagnostic items curBufNr !! j = Some b →
  (i < j)%nat →
  LspDiagnostic.item_bufNr a = Some n →
  LspDiagnostic.item_bufNr b = Some n →
  n ≠ 0 →
  (n = curBufNr →
   Forall (λ item, is_Some (LspDiagnostic.item_bufNr item)) items) →
  effectiveSeverity a ≤ effectiveSeverity b
  ∧ (effectiveSeverity a = effectiveSeverity b →
     ¬ (effectiveSeverity a = 1 ∧ mixedSeverity n items) →
     LspDiagnostic.item_lineNr a ≤ LspDiagnostic.item_lineNr b).
Proof.
  intros Hi Hj Hij Ha Hb Hn Hbuf.
  assert (∀ lineOfErrors absent,
            absent = None ∨ absent = Some 1 →
            Forall (keyed lineOfErrors absent curBufNr n) items →
            itemKeyLe lineOfErrors curBufNr n a b) as Hsorted.
  { intros lineOfErrors absent Habsent Hkeyed.
    eapply (StronglySorted_lookup _ _ i j); [|done..].
    apply (sort_sorted (LspDiagnostic.compareItems curBufNr)
             (keyed lineOfErrors absent curBufNr n)); [| | |done].
    - apply itemKeyLe_trans.
    - intros x y Hx Hy. by apply (compareItems_key curBufNr lineOfErrors absent).
    - intros x y Hx Hy. by apply (compareItems_key curBufNr lineOfErrors absent). }
  assert (∀ item, item ∈ items →
            n = curBufNr → is_Some (LspDiagnostic.item_bufNr item)) as Hbuf'.
  { intros item Hitem E. specialize (Hbuf E). rewrite Forall_forall in Hbuf. auto. }
  assert (itemKeyLe false curBufNr n a b) as Hab.
  { apply (Hsorted false None); [by left|]. apply Forall_forall.
    intros item Hitem. split; [by apply Hbuf'|done]. }
  split.
  - unfold itemKeyLe, itemKey, keyLe in Hab. rewrite Ha, Hb in Hab.
    repeat case_decide; lia.
  - intros Heq Hmixed.
    destruct (decide (effectiveSeverity a = 1)) as [Hone|Hone].
    + assert (∃ absent,
                (absent = None ∨ absent = Some 1)
                ∧ Forall (λ item, LspDiagnostic.item_bufNr item = Some n →
                                  LspDiagnostic.item_severity item ≠ absent) items)
        as (absent & Habsent & Hnone).
      { destruct (decide (Exists (λ item, LspDiagnostic.item_bufNr item = Some n
                                          ∧ LspDiagnostic.item_severity item = None)
                            items)) as [Hmissing|Hmissing].
        - destruct (decide (Exists (λ item, LspDiagnostic.item_bufNr item = Some n
                                            ∧ LspDiagnostic.item_severity item
                                              = Some 1) items)) as [Herror|Herror].
          + by destruct Hmixed.
          + exists (Some 1). split; [by right|].
            apply Forall_forall. intros item Hitem Hitemn Hsev. apply Herror.
            apply Exists_exists. eauto.
        - exists None. split; [by left|].
          apply Forall_forall. intros item Hitem Hitemn Hsev. apply Hmissing.
          apply Exists_exists. eauto. }
      assert (itemKeyLe true curBufNr n a b) as Hab'.
      { apply (Hsorted true absent); [done|]. apply Forall_forall.
        intros item Hitem. split; [by apply Hbuf'|].
        intros _. rewrite Forall_forall in Hnone. auto. }
      unfold itemKeyLe, itemKey, keyLe in Hab'. rewrite Ha, Hb in Hab'.
      repeat case_decide; lia.
    + unfold itemKeyLe, itemKey, keyLe in Hab. rewrite Ha, Hb in Hab.
      repeat case_decide; lia.
Qed.

Lemma sortItemDiagnostic_within_buffer_witness :
  let n1 := sampleItem "N1" (Some 7) None 5 in
  let n2 := sampleItem "N2" (Some 7) None 7 in
  let n3 := sampleItem "N3" (Some 7) None 9 in
  let w := sampleItem "W" (Some 7) (Some 2) 1 in
  LspDiagnostic.sortItemDiagnostic [w; n1; n3; n2] 7 = [n1; n2; n3; w]
  ∧ effectiveSeverity n2 ≤ effectiveSeverity n3
  ∧ LspDiagnostic.item_lineNr n2 ≤ LspDiagnostic.item_lineNr n3.
Proof.
  intros n1 n2 n3 w. split; [reflexivity|].
  destruct (sortItemDiagnostic_within_buffer [w; n1; n3; n2] 7 1 2 n2 n3 7)
    as [Hseverity Hline];
    [reflexivity|reflexivity|lia|reflexivity|reflexivity|lia
    |intros _; repeat constructor; by eexists|].
  split; [exact Hseverity|]. apply Hline; [reflexivity|].
  intros [_ [_ Herror]].
  repeat (apply Exists_cons in Herror as [[_ [=]]|Herror]).
  by apply Exists_nil in Herror.
Defined.

(** ** Sorting twice *)

(** C4, as stated, fails: two items without [bufNr] (every item of
    coc.nvim and vim-lsp is one) compare as less in both orders, the run
    they form counts as descending and is reversed by each sort. *)
Lemma sortItemDiagnostic_idempotent_counterexample :
  let u1 := sampleItem "U1" None (Some 1) 1 in
  let u2 := sampleItem "U2" None (Some 1) 2 in
  LspDiagnostic.sortItemDiagnostic [u1; u2] 7 = [u2; u1]
  ∧ LspDiagnostic.sortItemDiagnostic
      (LspDiagnostic.sortItemDiagnostic [u1; u2] 7) 7 = [u1; u2]
  ∧ LspDiagnostic.sortItemDiagnostic
      (LspDiagnostic.sortItemDiagnostic [u1; u2] 7) 7
    ≠ LspDiagnostic.sortItemDiagnostic [u1; u2] 7.
Proof. vm_compute. repeat split; [reflexivity..|discriminate]. Qed.

(** C4, amended: on items for which the comparator is a consistent one,
    sorting the sorted items again changes nothing, and the items that
    compare as equal keep the order they had in the input. *)
Theorem sortItemDiagnostic_idempotent_stable
    (items : list LspDiagnostic.ItemDiagnostic.t) (curBufNr : Z) :
  ConsistentOn (LspDiagnostic.compareItems curBufNr) items →
  LspDiagnostic.sortItemDiagnostic
    (LspDiagnostic.sortItemDiagnostic items curBufNr) curBufNr
  = LspDiagnostic.sortItemDiagnostic items curBufNr
  ∧ ∀ x, x ∈ items →
      filter (λ y, LspDiagnostic.compareItems curBufNr x y = 0)
        (LspDiagnostic.sortItemDiagnostic items curBufNr)
      = filter (λ y, LspDiagnostic.compareItems curBufNr x y = 0) items.
Proof.
  intros Hc. unfold LspDiagnostic.sortItemDiagnostic. split.
  - by apply (sort_consistent_idempotent _ items).
  - intros x Hx. by apply (sort_consistent_stable _ items).
Qed.

Lemma sortItemDiagnostic_idempotent_stable_witness :
  let items := [sampleItem "W" (Some 7) (Some 2) 3;
                sampleItem "E1" (Some 7) (Some 1) 4;
                sampleItem "O" (Some 9) (Some 1) 1;
                sampleItem "E2" (Some 7) (Some 1) 4] in
  LspDiagnostic.sortItemDiagnostic (LspDiagnostic.sortItemDiagnostic items 7) 7
  = LspDiagnostic.sortItemDiagnostic items 7
  ∧ ∀ x, x ∈ items →
      filter (λ y, LspDiagnostic.compareItems 7 x y = 0)
        (LspDiagnostic.sortItemDiagnostic items 7)
      = filter (λ y, LspDiagnostic.compareItems 7 x y = 0) items.
Proof.
  intros items.
  apply (sortItemDiagnostic_idempotent_stable items 7).
  apply (@bool_decide_unpack _ (ConsistentOn_dec _ _)). vm_compute. exact I.
Defined.

(** ** The adapters *)

Section Adapters.
Import LspDiagnostic.
Context (denops : Denops).

Lemma getNvimLspDiagnostics_Ok bufNr out :
  getNvimLspDiagnostics denops bufNr = Ok out ↔
  meta_host denops = nvim
  ∧ ∃ result, vim_diagnostic_get denops bufNr = Ok result
              ∧ out = option_map (List.map nvimLspToDdu) result.
Proof.
  unfold getNvimLspDiagnostics. destruct (meta_host denops).
  - split; [done|]. by intros [[=] _].
  - rewrite bind_Ok. split.
    + intros (result & Hr & [= <-]). eauto.
    + intros (_ & result & Hr & ->). eauto.
Qed.

Lemma getCocDiagnostics_Ok bufNr out :
  getCocDiagnostics denops bufNr = Ok out ↔
  ∃ uri result,
    scopeUri denops bufNr = Ok uri
    ∧ CocAction_diagnosticList denops = Ok result
    ∧ out = option_map
              (λ diags, List.map cocToDdu (List.filter (cocInScope uri) diags))
              result.
Proof.
  unfold getCocDiagnostics. rewrite bind_Ok. split.
  - intros (uri & Hu & (result & Hr & [= <-])%bind_Ok). eauto.
  - intros (uri & result & Hu & Hr & ->). exists uri. split; [done|].
    apply bind_Ok. eauto.
Qed.

Lemma stampPath_Ok vimDiagnostic out :
  stampPath denops vimDiagnostic = Ok out ↔
  ∃ path, fromFileUrl denops (VimLspDiagnostic.params_uri vimDiagnostic) = Ok path
          ∧ out = List.map (λ diag, DduDiagnostic.mk diag None (Some path))
                    (VimLspDiagnostic.params_diagnostics vimDiagnostic).
Proof.
  unfold stampPath. rewrite bind_Ok. split.
  - intros (path & Hp & [= <-]). eauto.
  - intros (path & Hp & ->). eauto.
Qed.

Lemma stampPath_has_path groups out :
  flatMapM (stampPath denops) groups = Ok out →
  Forall (λ d, is_Some (DduDiagnostic.path d)) out.
Proof.
  intros (lists & Hlists & ->)%flatMapM_Ok.
  apply Forall_concat.
  induction Hlists as [|g us groups lists Hg _ IH]; constructor; [|done].
  apply stampPath_Ok in Hg as (path & _ & ->).
  apply Forall_forall. intros d (diag & -> & _)%list_elem_of_fmap. by eexists.
Qed.

Lemma getVimLspDiagnostics_has_path bufNr out :
  getVimLspDiagnostics denops bufNr = Ok out →
  Forall (λ d, is_Some (DduDiagnostic.path d)) out.
Proof.
  unfold getVimLspDiagnostics. destruct bufNr as [n|].
  - destruct (decide (n = 0)).
    + intros (all & _ & H)%bind_Ok. by eapply stampPath_has_path.
    + intros (uri & _ & (groups & _ & H)%bind_Ok)%bind_Ok.
      by eapply stampPath_has_path.
  - intros (all & _ & H)%bind_Ok. by eapply stampPath_has_path.
Qed.
End Adapters.

(** C10: every diagnostic that an adapter returns has [bufNr] or [path]
    defined; nvim-lsp sets [bufNr], coc.nvim and vim-lsp set [path]. *)
Theorem adapters_set_bufNr_or_path
    (clientName : LspDiagnostic.ClientName) (denops : LspDiagnostic.Denops)
    (bufNr : option Z) (out : list LspDiagnostic.DduDiagnostic.t) :
  LspDiagnostic.getDiagnostic clientName denops bufNr = Ok (Some out) →
  Forall (λ d, is_Some (LspDiagnostic.DduDiagnostic.bufNr d)
               ∨ is_Some (LspDiagnostic.DduDiagnostic.path d)) out
  ∧ (clientName = LspDiagnostic.nvim_lsp →
     Forall (λ d, is_Some (LspDiagnostic.DduDiagnostic.bufNr d)) out)
  ∧ (clientName ≠ LspDiagnostic.nvim_lsp →
     Forall (λ d, is_Some (LspDiagnostic.DduDiagnostic.path d)) out).
Proof.
  intros H.
  assert (match clientName with
          | LspDiagnostic.nvim_lsp =>
              Forall (λ d, is_Some (LspDiagnostic.DduDiagnostic.bufNr d)) out
          | _ => Forall (λ d, is_Some (LspDiagnostic.DduDiagnostic.path d)) out
          end) as Hout.
  { destruct clientName; simpl in H.
    - apply getNvimLspDiagnostics_Ok in H as (_ & [raws|] & _ & Hout); [|done].
      injection Hout as ->. apply Forall_forall.
      intros d (raw & -> & _)%list_elem_of_fmap. by eexists.
    - apply getCocDiagnostics_Ok in H as (uri & [raws|] & _ & _ & Hout); [|done].
      injection Hout as ->. apply Forall_forall.
      intros d (raw & -> & _)%list_elem_of_fmap. by eexists.
    - apply bind_Ok in H as (ds & Hds & [= <-]).
      by eapply getVimLspDiagnostics_has_path. }
  split_and!.
  - destruct clientName; (eapply Forall_impl; [exact Hout|]); simpl; auto.
  - by intros ->.
  - intros Hne. by destruct clientName.
Qed.

Lemma adapters_set_bufNr_or_path_witness :
  let raw := LspDiagnostic.CocDiagnostic.mk "M1" None None "/a"
               (Location.mk "file:///a"
                  (Range.mk (Position.mk 2 0) (Position.mk 2 4)))
               LspDiagnostic.Warning ∅ in
  let denops :=
    {| LspDiagnostic.meta_host := LspDiagnostic.nvim;
       LspDiagnostic.vim_diagnostic_get := LspDiagnostic.vim_diagnostic_get quietDenops;
       LspDiagnostic.CocAction_diagnosticList := Ok (Some [raw]);
       LspDiagnostic.get_all_diagnostics_grouped_by_server_for_uri :=
         LspDiagnostic.get_all_diagnostics_grouped_by_server_for_uri quietDenops;
       LspDiagnostic.get_all_diagnostics_grouped_by_uri_and_server :=
         LspDiagnostic.get_all_diagnostics_grouped_by_uri_and_server quietDenops;
       LspDiagnostic.bufNrToFileUri := λ _, Ok "file:///a"%string;
       LspDiagnostic.fromFileUrl := LspDiagnostic.fromFileUrl quietDenops;
       LspDiagnostic.addIconAndHighlight :=
         LspDiagnostic.addIconAndHighlight quietDenops;
       LspDiagnostic.unknownClientName :=
         LspDiagnostic.unknownClientName quietDenops |} in
  let out := [LspDiagnostic.cocToDdu raw] in
  Forall (λ d, is_Some (LspDiagnostic.DduDiagnostic.bufNr d)
               ∨ is_Some (LspDiagnostic.DduDiagnostic.path d)) out
  ∧ (LspDiagnostic.coc_nvim = LspDiagnostic.nvim_lsp →
     Forall (λ d, is_Some (LspDiagnostic.DduDiagnostic.bufNr d)) out)
  ∧ (LspDiagnostic.coc_nvim ≠ LspDiagnostic.nvim_lsp →
     Forall (λ d, is_Some (LspDiagnostic.DduDiagnostic.path d)) out).
Proof.
  intros raw denops out.
  apply (adapters_set_bufNr_or_path LspDiagnostic.coc_nvim denops (Some 7) out).
  reflexivity.
Defined.

(** ** The sanitizer *)

Lemma pick_lookup (object : gmap string JsValue) (keys : list string) (key : string) :
  LspDiagnostic.pick object keys !! key
  = if decide (key ∈ keys) then object !! key else None.
Proof.
  induction keys as [|k keys IH].
  - unfold LspDiagnostic.pick. cbn [foldr]. rewrite lookup_empty.
    rewrite decide_False; [done|]. apply not_elem_of_nil.
  - change (LspDiagnostic.pick object (k :: keys))
      with (match object !! k with
            | Some v => <[k:=v]> (LspDiagnostic.pick object keys)
            | None => LspDiagnostic.pick object keys
            end).
    destruct (decide (key = k)) as [->|Hne].
    + rewrite decide_True by apply list_elem_of_here.
      destruct (object !! k) as [v|] eqn:Hk.
      * by rewrite lookup_insert_eq.
      * rewrite IH. by destruct (decide (k ∈ keys)).
    + assert (LspDiagnostic.pick object keys !! key
              = match object !! k with
                | Some v => <[k:=v]> (LspDiagnostic.pick object keys)
                | None => LspDiagnostic.pick object keys
                end !! key) as <-.
      { destruct (object !! k); [by rewrite lookup_insert_ne|done]. }
      rewrite IH.
      destruct (decide (key ∈ keys)) as [Hin|Hin].
      * rewrite decide_True; [done|]. by apply list_elem_of_further.
      * rewrite decide_False; [done|].
        intros [?|?]%elem_of_cons; done.
Qed.

(** C9, as stated, fails: [getProperDiagnostics] awaits the adapter
    outside of any [try], so that it fails when the adapter does.  On a
    vim host with the nvim-lsp client it throws the error of the
    adapter. *)
Lemma getProperDiagnostics_counterexample :
  let denops :=
    {| LspDiagnostic.meta_host := LspDiagnostic.vim;
       LspDiagnostic.vim_diagnostic_get := λ _, Ok (Some [sampleNvimRaw]);
       LspDiagnostic.CocAction_diagnosticList :=
         LspDiagnostic.CocAction_diagnosticList sampleDenops;
       LspDiagnostic.get_all_diagnostics_grouped_by_server_for_uri :=
         LspDiagnostic.get_all_diagnostics_grouped_by_server_for_uri sampleDenops;
       LspDiagnostic.get_all_diagnostics_grouped_by_uri_and_server :=
         LspDiagnostic.get_all_diagnostics_grouped_by_uri_and_server sampleDenops;
       LspDiagnostic.bufNrToFileUri := LspDiagnostic.bufNrToFileUri sampleDenops;
       LspDiagnostic.fromFileUrl := LspDiagnostic.fromFileUrl sampleDenops;
       LspDiagnostic.addIconAndHighlight :=
         LspDiagnostic.addIconAndHighlight sampleDenops;
       LspDiagnostic.unknownClientName :=
         LspDiagnostic.unknownClientName sampleDenops |} in
  LspDiagnostic.getProperDiagnostics LspDiagnostic.nvim_lsp denops (Some 7)
  = Throw "Client 'nvim-lsp' is not available in vim".
Proof. reflexivity. Qed.

(** C9, amended: [getProperDiagnostics] fails exactly when the adapter
    fails, with the error of the adapter.  When it returns, it returns one
    record for each diagnostic of the adapter, in order (none when the
    adapter has no list), and each record, whatever the clients have added
    to the diagnostic, has the properties [range], [severity], [code],
    [codeDescription], [source], [message], [tags], [relatedInformation]
    and [data] that the diagnostic has, with their values, and no other
    property: neither [bufNr], nor [path], nor any other. *)
Theorem getProperDiagnostics_proper
    (clientName : LspDiagnostic.ClientName) (denops : LspDiagnostic.Denops)
    (bufNr : option Z) :
  let protocol : list string :=
    ["range"; "severity"; "code"; "codeDescription"; "source"; "message";
     "tags"; "relatedInformation"; "data"]%string in
  (∀ e, LspDiagnostic.getProperDiagnostics clientName denops bufNr = Throw e
        ↔ LspDiagnostic.getDiagnostic clientName denops bufNr = Throw e)
  ∧ (∀ propers,
       LspDiagnostic.getProperDiagnostics clientName denops bufNr = Ok propers →
       ∃ found,
         LspDiagnostic.getDiagnostic clientName denops bufNr = Ok found
         ∧ Forall2
             (λ (d : LspDiagnostic.DduDiagnostic.t) (proper : gmap string JsValue),
                (∀ key, key ∈ protocol →
                   proper !! key = LspDiagnostic.DduDiagnostic_object d !! key)
                ∧ (∀ key, key ∉ protocol → proper !! key = None)
                ∧ proper !! ("bufNr" : string) = None
                ∧ proper !! ("path" : string) = None)
             (default [] found) propers).
Proof.
  intros protocol. unfold LspDiagnostic.getProperDiagnostics. split.
  - intros e.
    destruct (LspDiagnostic.getDiagnostic clientName denops bufNr) as [found|e'];
      [split; discriminate|].
    split; by intros [= <-].
  - intros propers (found & Hfound & [= <-])%bind_Ok.
    exists found. split; [done|].
    destruct found as [diagnostics|]; [|constructor].
    change (Forall2
              (λ d (proper : gmap string JsValue),
                 (∀ key, key ∈ protocol →
                    proper !! key = LspDiagnostic.DduDiagnostic_object d !! key)
                 ∧ (∀ key, key ∉ protocol → proper !! key = None)
                 ∧ proper !! ("bufNr" : string) = None
                 ∧ proper !! ("path" : string) = None)
              diagnostics
              ((λ d, LspDiagnostic.pick (LspDiagnostic.DduDiagnostic_object d)
                       LspDiagnostic.properKeys) <$> diagnostics)).
    apply Forall2_fmap_r, Forall_Forall2_diag, Forall_forall.
    intros d _. unfold compose.
    assert (∀ key, key ∉ protocol →
              LspDiagnostic.pick (LspDiagnostic.DduDiagnostic_object d)
                LspDiagnostic.properKeys !! key = None) as Hout.
    { intros key Hkey. by rewrite pick_lookup, decide_False. }
    split_and!.
    + intros key Hkey. by rewrite pick_lookup, decide_True.
    + exact Hout.
    + apply Hout. by apply (bool_decide_unpack _).
    + apply Hout. by apply (bool_decide_unpack _).
Qed.

Lemma getProperDiagnostics_proper_witness :
  let protocol : list string :=
    ["range"; "severity"; "code"; "codeDescription"; "source"; "message";
     "tags"; "relatedInformation"; "data"]%string in
  let proper : gmap string JsValue :=
    <["range" := jsRange (Range.mk (Position.mk 2 0) (Position.mk 2 4))]>
      (<["severity" := JsNumber 2]>
         (<["source" := JsString "tsserver"]>
            (<["message" := JsString "M1"]> ∅))) in
  ∃ found,
    LspDiagnostic.getDiagnostic LspDiagnostic.coc_nvim sampleDenops (Some 7)
    = Ok found
    ∧ Forall2
        (λ (d : LspDiagnostic.DduDiagnostic.t) (proper : gmap string JsValue),
           (∀ key, key ∈ protocol →
              proper !! key = LspDiagnostic.DduDiagnostic_object d !! key)
           ∧ (∀ key, key ∉ protocol → proper !! key = None)
           ∧ proper !! ("bufNr" : string) = None
           ∧ proper !! ("path" : string) = None)
        (default [] found) [proper].
Proof.
  intros protocol proper.
  apply (getProperDiagnostics_proper LspDiagnostic.coc_nvim sampleDenops (Some 7)).
  vm_compute. reflexivity.
Defined.

(** ** Failures of the adapters *)

Lemma gatherItems_adapter_failure
    (denops : LspDiagnostic.Denops) (context : LspDiagnostic.Context)
    (sourceParams : LspDiagnostic.Params) (client : LspDiagnostic.ClientName) :
  LspDiagnostic.assertClientName denops (LspDiagnostic.clientName sourceParams) = Ok client →
  Exists (λ buffer, ∃ e,
            LspDiagnostic.getDiagnostic client denops
              (LspDiagnostic.resolveBuffer context buffer) = Throw e)
    (LspDiagnostic.scopeBuffers (LspDiagnostic.buffer sourceParams)) →
  ∃ buffer e,
    buffer ∈ LspDiagnostic.scopeBuffers (LspDiagnostic.buffer sourceParams)
    ∧ LspDiagnostic.getDiagnostic client denops
        (LspDiagnostic.resolveBuffer context buffer) = Throw e
    ∧ LspDiagnostic.gatherItems denops context sourceParams = Throw e.
Proof.
  intros Hclient Hfail.
  unfold LspDiagnostic.gatherItems, LspDiagnostic.asyncFlatMap.
  rewrite Hclient. cbn [bind].
  destruct (flatMapM_Throw_elem
              (λ buffer,
                 let* found :=
                   LspDiagnostic.getDiagnostic client denops
                     (LspDiagnostic.resolveBuffer context buffer) in
                 Ok (default [] found))
              (LspDiagnostic.scopeBuffers (LspDiagnostic.buffer sourceParams)))
    as (buffer & e & Hbuffer & He & Hall).
  - eapply Exists_impl; [exact Hfail|]. intros buffer [e He].
    exists e. by rewrite He.
  - exists buffer, e. rewrite Hall. split_and!; [done| |done].
    cbn beta in He.
    by destruct (LspDiagnostic.getDiagnostic client denops
                   (LspDiagnostic.resolveBuffer context buffer))
      as [found|e'] eqn:Hcall; [|injection He as ->].
Qed.

(** C8: on a vim host the nvim-lsp adapter throws an error that names the
    client and the host; whenever an adapter call of [gather] throws,
    [gather] enqueues no chunk, reports to [printError] one error, which
    is the error that the adapter threw for one of the buffers of the
    scope, and closes the stream; for the nvim-lsp client on a vim host the
    reported error is that of the adapter. *)
Theorem gather_catches_adapter_failure
    (denops : LspDiagnostic.Denops) (context : LspDiagnostic.Context)
    (sourceParams : LspDiagnostic.Params) (client : LspDiagnostic.ClientName) :
  LspDiagnostic.assertClientName denops (LspDiagnostic.clientName sourceParams) = Ok client →
  (LspDiagnostic.meta_host denops = LspDiagnostic.vim →
   ∀ bufNr, LspDiagnostic.getNvimLspDiagnostics denops bufNr
            = Throw "Client 'nvim-lsp' is not available in vim")
  ∧ (Exists (λ buffer, ∃ e,
               LspDiagnostic.getDiagnostic client denops
                 (LspDiagnostic.resolveBuffer context buffer) = Throw e)
       (LspDiagnostic.scopeBuffers (LspDiagnostic.buffer sourceParams)) →
     ∃ buffer e,
       buffer ∈ LspDiagnostic.scopeBuffers (LspDiagnostic.buffer sourceParams)
       ∧ LspDiagnostic.getDiagnostic client denops
           (LspDiagnostic.resolveBuffer context buffer) = Throw e
       ∧ LspDiagnostic.gather denops context sourceParams
         = {| LspDiagnostic.chunks := [];
              LspDiagnostic.printError_calls := [(e, "lsp_diagnostic"%string)];
              LspDiagnostic.closed := true |})
  ∧ (LspDiagnostic.meta_host denops = LspDiagnostic.vim →
     client = LspDiagnostic.nvim_lsp →
     LspDiagnostic.scopeBuffers (LspDiagnostic.buffer sourceParams) ≠ [] →
     LspDiagnostic.gather denops context sourceParams
     = {| LspDiagnostic.chunks := [];
          LspDiagnostic.printError_calls :=
            [("Client 'nvim-lsp' is not available in vim"%string,
              "lsp_diagnostic"%string)];
          LspDiagnostic.closed := true |}).
Proof.
  intros Hclient. split_and!.
  - intros Hvim bufNr. unfold LspDiagnostic.getNvimLspDiagnostics. by rewrite Hvim.
  - intros Hfail.
    destruct (gatherItems_adapter_failure denops context sourceParams client
                Hclient Hfail) as (buffer & e & Hbuffer & Hcall & He).
    exists buffer, e. unfold LspDiagnostic.gather. by rewrite He.
  - intros Hvim -> Hbuffers.
    unfold LspDiagnostic.gather, LspDiagnostic.gatherItems.
    rewrite Hclient. cbn [bind].
    destruct (LspDiagnostic.scopeBuffers (LspDiagnostic.buffer sourceParams))
      as [|buffer buffers]; [done|].
    unfold LspDiagnostic.asyncFlatMap, LspDiagnostic.flatMapM.
    cbn [mapRes LspDiagnostic.getDiagnostic].
    unfold LspDiagnostic.getNvimLspDiagnostics. rewrite Hvim. reflexivity.
Qed.

Lemma gather_catches_adapter_failure_witness :
  let denops :=
    {| LspDiagnostic.meta_host := LspDiagnostic.vim;
       LspDiagnostic.vim_diagnostic_get := LspDiagnostic.vim_diagnostic_get quietDenops;
       LspDiagnostic.CocAction_diagnosticList :=
         LspDiagnostic.CocAction_diagnosticList quietDenops;
       LspDiagnostic.get_all_diagnostics_grouped_by_server_for_uri :=
         LspDiagnostic.get_all_diagnostics_grouped_by_server_for_uri quietDenops;
       LspDiagnostic.get_all_diagnostics_grouped_by_uri_and_server :=
         LspDiagnostic.get_all_diagnostics_grouped_by_uri_and_server quietDenops;
       LspDiagnostic.bufNrToFileUri := LspDiagnostic.bufNrToFileUri quietDenops;
       LspDiagnostic.fromFileUrl := LspDiagnostic.fromFileUrl quietDenops;
       LspDiagnostic.addIconAndHighlight :=
         LspDiagnostic.addIconAndHighlight quietDenops;
       LspDiagnostic.unknownClientName :=
         LspDiagnostic.unknownClientName quietDenops |} in
  let context := {| LspDiagnostic.context_bufNr := 7 |} in
  let sourceParams :=
    {| LspDiagnostic.clientName := "nvim-lsp";
       LspDiagnostic.buffer := LspDiagnostic.BufferMany [0; 4] |} in
  LspDiagnostic.gather denops context sourceParams
  = {| LspDiagnostic.chunks := [];
       LspDiagnostic.printError_calls :=
         [("Client 'nvim-lsp' is not available in vim"%string,
           "lsp_diagnostic"%string)];
       LspDiagnostic.closed := true |}.
Proof.
  intros denops context sourceParams.
  apply (gather_catches_adapter_failure denops context sourceParams
           LspDiagnostic.nvim_lsp);
    [reflexivity|reflexivity|reflexivity|discriminate].
Defined.

(** ** One issue through the three adapters *)











(** ** The scope of the coc.nvim adapter *)

(** C6, as stated, fails: for the buffer number 0 the adapter resolves no
    URI and returns the records of every file, and so it does when the
    URI resolved for the buffer is the empty string. *)
Lemma getCocDiagnostics_scope_counterexample :
  (LspDiagnostic.bufNrToFileUri sampleDenops 0 = Ok "file:///buffer/0"%string
   ∧ Location.uri (LspDiagnostic.CocDiagnostic.location sampleCocRaw)
     ≠ "file:///buffer/0"%string
   ∧ LspDiagnostic.getCocDiagnostics sampleDenops (Some 0)
     = Ok (Some [LspDiagnostic.cocToDdu sampleCocRaw]))
  ∧ (LspDiagnostic.bufNrToFileUri unnamedDenops 7 = Ok EmptyString
     ∧ Location.uri (LspDiagnostic.CocDiagnostic.location sampleCocRaw)
       ≠ EmptyString
     ∧ LspDiagnostic.getCocDiagnostics unnamedDenops (Some 7)
       = Ok (Some [LspDiagnostic.cocToDdu sampleCocRaw])).
Proof. vm_compute. repeat split; discriminate. Qed.

(** C6, amended: without scope the coc.nvim adapter returns a diagnostic
    for every raw record; for a buffer number other than 0 whose resolved
    URI is not the empty string it returns one for exactly the raw records
    whose [location.uri] is that URI, in their order.  Each of them has
    the severity that the table gives for the name in the raw record, the
    raw [file] as [path] and the raw [location.range] as [range]. *)
Theorem getCocDiagnostics_scope
    (denops : LspDiagnostic.Denops) (raw : list LspDiagnostic.CocDiagnostic.t) :
  LspDiagnostic.CocAction_diagnosticList denops = Ok (Some raw) →
  (∃ out, LspDiagnostic.getCocDiagnostics denops None = Ok (Some out)
          ∧ Forall2 cocConverted raw out)
  ∧ (∀ n uri,
       n ≠ 0 → LspDiagnostic.bufNrToFileUri denops n = Ok uri → uri ≠ EmptyString →
       ∃ out, LspDiagnostic.getCocDiagnostics denops (Some n) = Ok (Some out)
              ∧ Forall2 cocConverted
                  (filter (λ diag,
                     Location.uri (LspDiagnostic.CocDiagnostic.location diag) = uri)
                     raw)
                  out).
Proof.
  intros Hraw.
  assert (∀ raws, Forall2 cocConverted raws (List.map LspDiagnostic.cocToDdu raws))
    as Hconv.
  { induction raws; constructor; [by repeat split|done]. }
  split.
  - exists (List.map LspDiagnostic.cocToDdu raw). split; [|done].
    apply getCocDiagnostics_Ok. exists None, (Some raw).
    split_and!; [done..|]. simpl. do 2 f_equal.
    clear. induction raw as [|diag raw IH]; simpl; [done|]. by f_equal.
  - intros n uri Hn Huri Hne.
    eexists. split.
    + apply getCocDiagnostics_Ok. exists (Some uri), (Some raw).
      split_and!; [|done..].
      unfold LspDiagnostic.scopeUri. rewrite decide_False by done.
      by rewrite Huri.
    + assert (List.filter (LspDiagnostic.cocInScope (Some uri)) raw
              = filter (λ diag,
                  Location.uri (LspDiagnostic.CocDiagnostic.location diag) = uri)
                  raw) as ->; [|apply Hconv].
      clear -Hne. induction raw as [|diag raw IH]; [done|].
      rewrite filter_cons. simpl. rewrite IH.
      rewrite (bool_decide_false (uri = EmptyString)) by done. simpl.
      rewrite bool_decide_decide. by destruct (decide _).
Qed.

Lemma getCocDiagnostics_scope_witness :
  (∃ out, LspDiagnostic.getCocDiagnostics sampleDenops None = Ok (Some out)
          ∧ Forall2 cocConverted [sampleCocRaw] out)
  ∧ (∀ n uri,
       n ≠ 0 → LspDiagnostic.bufNrToFileUri sampleDenops n = Ok uri →
       uri ≠ EmptyString →
       ∃ out, LspDiagnostic.getCocDiagnostics sampleDenops (Some n) = Ok (Some out)
              ∧ Forall2 cocConverted
                  (filter (λ diag,
                     Location.uri (LspDiagnostic.CocDiagnostic.location diag) = uri)
                     [sampleCocRaw])
                  out).
Proof. apply (getCocDiagnostics_scope sampleDenops [sampleCocRaw]). reflexivity. Defined.

(** * Properties of nvim_lsp.ts *)

Lemma prefix_cons a p b s :
  String.prefix (String a p) (String b s) = bool_decide (a = b) && String.prefix p s.
Proof. cbn [String.prefix]. destruct (ascii_dec a b); by case_bool_decide. Qed.

Lemma prefix_empty s : String.prefix "" s = true.
Proof. by destruct s. Qed.

(** A line terminator that begins within [mid] ends within [mid] when the
    text goes on with [%]. *)
Lemma atLineTerminator_app c mid rest :
  NvimLsp.atLineTerminator (String c mid +:+ "%" +:+ rest)
  = NvimLsp.atLineTerminator (String c mid).
Proof.
  unfold NvimLsp.atLineTerminator, startsWith, LS, PS.
  assert (Hcons : ∀ a s t, String a s +:+ t = String a (s +:+ t)) by done.
  assert (Hnil : ∀ t, "" +:+ t = t) by done.
  destruct mid as [|c1 [|c2 mid]]; rewrite !Hcons, ?Hnil;
    rewrite !prefix_cons, ?prefix_empty; cbn [String.prefix];
    repeat case_bool_decide; subst; done.
Qed.

Lemma anyThenFragment_app mid fragment rest :
  fragment ∈ blockedFragments → containsLineTerminator mid = false →
  NvimLsp.anyThenFragment (mid +:+ "%23" +:+ fragment +:+ rest) = true.
Proof.
  intros Hfragment. induction mid as [|c mid IH]; intros Hmid.
  - unfold blockedFragments in Hfragment.
    repeat (apply elem_of_cons in Hfragment as [->|Hfragment];
            [simpl; unfold NvimLsp.fragmentAt, startsWith; simpl;
             rewrite ?String.prefix_correct; destruct rest; reflexivity|]).
    by apply elem_of_nil in Hfragment.
  - cbn [containsLineTerminator] in Hmid. apply orb_false_iff in Hmid as [Hc Hmid].
    change (NvimLsp.anyThenFragment (String c mid +:+ "%23" +:+ fragment +:+ rest))
      with (NvimLsp.fragmentAt (String c mid +:+ "%23" +:+ fragment +:+ rest)
            || (if NvimLsp.atLineTerminator
                     (String c mid +:+ "%" +:+ ("23" +:+ fragment +:+ rest))
                then false
                else NvimLsp.anyThenFragment (mid +:+ "%23" +:+ fragment +:+ rest))).
    rewrite atLineTerminator_app, Hc, IH by done. apply orb_true_r.
Qed.

Lemma definitionHandler_Ok runtime response items :
  NvimLsp.definitionHandler runtime response = Ok items ↔
  ∃ locations,
    NvimLsp.definitionLocations response = Ok locations
    ∧ Forall2 (λ location item, NvimLsp.locationToItem runtime location = Ok item)
        (List.filter (λ location, negb (NvimLsp.isDenoUriWithFragment location))
           locations)
        items.
Proof.
  unfold NvimLsp.definitionHandler. rewrite bind_Ok.
  by setoid_rewrite mapRes_Ok.
Qed.

Lemma referencesHandler_Ok runtime response items :
  NvimLsp.referencesHandler runtime response = Ok items ↔
  ∃ locations,
    NvimLsp.referencesLocations response = Ok locations
    ∧ Forall2 (λ location item, NvimLsp.locationToItem runtime location = Ok item)
        (List.filter (λ location, negb (NvimLsp.isDenoUriWithFragment location))
           locations)
        items.
Proof.
  unfold NvimLsp.referencesHandler. rewrite bind_Ok.
  by setoid_rewrite mapRes_Ok.
Qed.

(** C5, as stated, fails: the [.] of the pattern does not match a line
    terminator, so that a [deno:] URI in which a line feed stands before
    the [%23%5E] is not taken for blocked, and its item is emitted. *)
Lemma deno_filter_counterexample :
  let uri := ("deno:/foo" +:+ String LF "%23%5Efragment")%string in
  let range := Range.mk (Position.mk 0 0) (Position.mk 0 3) in
  let location := NvimLsp.LocationOrLink.mk (Some uri) (Some range) None None in
  startsWith uri "deno:" = true
  ∧ uri = ("deno:" +:+ ("/foo" +:+ String LF EmptyString) +:+ "%23" +:+ "%5E"
           +:+ "fragment")%string
  ∧ NvimLsp.isDenoUriWithFragment location = false
  ∧ NvimLsp.chunks
      (NvimLsp.gather (answering (NvimLsp.ResultMany [location])) sampleRuntime
         {| NvimLsp.context_bufNr := 1; NvimLsp.context_winId := 1000 |}
         "textDocument/definition")
    = [[NvimLsp.Item.mk uri (uri +:+ ":1:1") (NvimLsp.ActionData.mk uri 1 1)]].
Proof. vm_compute. repeat split. Qed.

(** The same holds of the other line terminators: a [uri] that has U+2028
    before the [%23%5E] is not taken for blocked either. *)
Lemma deno_filter_line_separator :
  let uri := ("deno:/a" +:+ LS +:+ "%23%5E")%string in
  let range := Range.mk (Position.mk 0 0) (Position.mk 0 3) in
  let location := NvimLsp.LocationOrLink.mk (Some uri) (Some range) None None in
  NvimLsp.isDenoUriWithFragment location = false
  ∧ NvimLsp.chunks
      (NvimLsp.gather (answering (NvimLsp.ResultMany [location])) sampleRuntime
         {| NvimLsp.context_bufNr := 1; NvimLsp.context_winId := 1000 |}
         "textDocument/definition")
    = [[NvimLsp.Item.mk uri (uri +:+ ":1:1") (NvimLsp.ActionData.mk uri 1 1)]].
Proof. vm_compute. split; reflexivity. Qed.

(** C5, amended: an entry that has [uri] and [range] resolves to itself,
    any other entry that has [targetUri] and [targetSelectionRange]
    resolves to these two as [uri] and [range]; a location whose [uri] is
    [deno:], then characters none of which is a line terminator, then
    [%23] and one of [%5E], [%7E], [%3C], [%3D], is taken for blocked; and
    for every method, the items of an emitted chunk are, one for one and in
    order, the items of the locations of the response that are not taken
    for blocked. *)
Theorem locations_resolved_and_filtered (runtime : NvimLsp.Runtime) :
  (∀ loc u r,
     NvimLsp.LocationOrLink.uri loc = Some u →
     NvimLsp.LocationOrLink.range loc = Some r →
     NvimLsp.toLocation loc = loc)
  ∧ (∀ loc u r,
       NvimLsp.LocationOrLink.uri loc = None
       ∨ NvimLsp.LocationOrLink.range loc = None →
       NvimLsp.LocationOrLink.targetUri loc = Some u →
       NvimLsp.LocationOrLink.targetSelectionRange loc = Some r →
       NvimLsp.toLocation loc = NvimLsp.LocationOrLink.mk (Some u) (Some r) None None)
  ∧ (∀ location mid fragment rest,
       fragment ∈ blockedFragments →
       containsLineTerminator mid = false →
       NvimLsp.LocationOrLink.uri location
       = Some ("deno:" +:+ mid +:+ "%23" +:+ fragment +:+ rest)%string →
       NvimLsp.isDenoUriWithFragment location = true)
  ∧ (∀ denops context method chunk,
       chunk ∈ NvimLsp.chunks (NvimLsp.gather denops runtime context method) →
       ∃ response locations,
         NvimLsp.request denops method (NvimLsp.context_bufNr context)
           (NvimLsp.context_winId context) = Ok (Some response)
         ∧ locationsOf method response = Ok locations
         ∧ Forall2
             (λ location item, NvimLsp.locationToItem runtime location = Ok item)
             (List.filter
                (λ location, negb (NvimLsp.isDenoUriWithFragment location))
                locations)
             chunk).
Proof.
  split_and!.
  - intros loc u r Hu Hr. unfold NvimLsp.toLocation. by rewrite Hu, Hr.
  - intros loc u r Hmissing Hu Hr. unfold NvimLsp.toLocation.
    rewrite Hu, Hr.
    destruct Hmissing as [-> | ->]; [done|].
    by destruct (NvimLsp.LocationOrLink.uri loc).
  - intros location mid fragment rest Hfragment Hmid Huri.
    unfold NvimLsp.isDenoUriWithFragment. rewrite Huri.
    by apply anyThenFragment_app.
  - intros denops context method chunk.
    unfold NvimLsp.gather, locationsOf.
    destruct (negb (NvimLsp.isSupportedMethod method));
      [by intros ?%elem_of_nil|].
    destruct (NvimLsp.request denops method _ _) as [[response|]|e];
      [|by intros ?%elem_of_nil..].
    destruct (bool_decide (method = "textDocument/references")).
    + destruct (NvimLsp.referencesHandler runtime response) as [items|e] eqn:E;
        [|by intros ?%elem_of_nil].
      intros ->%list_elem_of_singleton.
      apply referencesHandler_Ok in E as (locations & Hl & Hitems). eauto.
    + destruct (NvimLsp.definitionHandler runtime response) as [items|e] eqn:E;
        [|by intros ?%elem_of_nil].
      intros ->%list_elem_of_singleton.
      apply definitionHandler_Ok in E as (locations & Hl & Hitems). eauto.
Qed.

Lemma locations_resolved_and_filtered_witness :
  let blocked :=
    NvimLsp.LocationOrLink.mk (Some "deno:/foo%23%5Efragment"%string)
      (Some (Range.mk (Position.mk 0 0) (Position.mk 0 3))) None None in
  NvimLsp.isDenoUriWithFragment blocked = true
  ∧ NvimLsp.chunks
      (NvimLsp.gather (answering (NvimLsp.ResultMany [blocked])) sampleRuntime
         {| NvimLsp.context_bufNr := 1; NvimLsp.context_winId := 1000 |}
         "textDocument/references") = [[]].
Proof.
  intros blocked. split; [|reflexivity].
  destruct (locations_resolved_and_filtered sampleRuntime) as (_ & _ & H & _).
  apply (H blocked "/foo"%string "%5E"%string "fragment"%string);
    [by apply (bool_decide_unpack _)|reflexivity|reflexivity].
Defined.

(** * Items *)

(** The first piece of [split_LF] is the text before the first line
    feed. *)
Lemma split_LF_head (s : string) :
  ∃ word rest,
    head (split_LF s) = Some word
    ∧ s = (word +:+ rest)%string
    ∧ containsChar LF word = false
    ∧ (rest = EmptyString ∨ ∃ rest', rest = String LF rest').
Proof.
  induction s as [|c s (word & rest & Hhead & Hs & Hword & Hrest)].
  - exists EmptyString, EmptyString. simpl. split_and!; [done..|by left].
  - cbn [split_LF]. destruct (Ascii.eqb c LF) eqn:Hc.
    + apply Ascii.eqb_eq in Hc as ->.
      exists EmptyString, (String LF s). simpl.
      split_and!; [done..|]. right. by eexists.
    + destruct (split_LF s) as [|piece pieces]; [done|].
      injection Hhead as ->.
      exists (String c word), rest. split_and!.
      * done.
      * subst s. reflexivity.
      * simpl. by rewrite Hc, Hword.
      * done.
Qed.

(** C7: the word of the item of a diagnostic is its message up to the
    first line feed ("foo" for "foo\nbar"), and the action has the start
    line and the start character of the range, each plus one.  The item
    of the link to [file:///x.ts] at line 4, character 1 has the action
    [{path: "/x.ts", lineNr: 5, col: 2}]; the item of a location shows
    the path of its URL when the [uri] starts with [file:], the [uri]
    itself otherwise, followed by [:line:col], counted from 1.  The path
    of the URL is not decoded: for [file:///dir%20a/x.ts], of which the
    URL has the path [/dir%20a/x.ts], the item names [/dir%20a/x.ts] and
    not the file [/dir a/x.ts]. *)
Theorem items_built (runtime : NvimLsp.Runtime) :
  NvimLsp.URL_pathname runtime "file:///x.ts" = Ok "/x.ts"%string →
  (∀ diagnostic,
     let item := LspDiagnostic.diagnosticToItem diagnostic in
     (∃ rest,
        LspDiagnostic.DduDiagnostic.message diagnostic
        = (LspDiagnostic.ItemDiagnostic.word item +:+ rest)%string
        ∧ containsChar LF (LspDiagnostic.ItemDiagnostic.word item) = false
        ∧ (rest = EmptyString ∨ ∃ rest', rest = String LF rest'))
     ∧ LspDiagnostic.item_lineNr item
       = Position.line (Range.start (LspDiagnostic.DduDiagnostic.range diagnostic)) + 1
     ∧ LspDiagnostic.ActionData.col (LspDiagnostic.ItemDiagnostic.action item)
       = Position.character
           (Range.start (LspDiagnostic.DduDiagnostic.range diagnostic)) + 1)
  ∧ (∀ diagnostic,
       LspDiagnostic.DduDiagnostic.message diagnostic
       = ("foo" +:+ String LF "bar")%string →
       LspDiagnostic.ItemDiagnostic.word (LspDiagnostic.diagnosticToItem diagnostic)
       = "foo"%string)
  ∧ (∀ end_,
       NvimLsp.locationToItem runtime
         (NvimLsp.toLocation
            (NvimLsp.LocationOrLink.mk None None (Some "file:///x.ts"%string)
               (Some (Range.mk (Position.mk 4 1) end_))))
       = Ok (NvimLsp.Item.mk "/x.ts" "/x.ts:5:2" (NvimLsp.ActionData.mk "/x.ts" 5 2)))
  ∧ (∀ uri range targetUri targetSelectionRange,
       let lineNr := Position.line (Range.start range) + 1 in
       let col := Position.character (Range.start range) + 1 in
       let location :=
         NvimLsp.LocationOrLink.mk (Some uri) (Some range) targetUri
           targetSelectionRange in
       (startsWith uri "file:" = true →
        ∀ path, NvimLsp.URL_pathname runtime uri = Ok path →
          NvimLsp.locationToItem runtime location
          = Ok (NvimLsp.Item.mk path
                  (path +:+ ":" +:+ pretty lineNr +:+ ":" +:+ pretty col)
                  (NvimLsp.ActionData.mk path lineNr col)))
       ∧ (startsWith uri "file:" = false →
          NvimLsp.locationToItem runtime location
          = Ok (NvimLsp.Item.mk uri
                  (uri +:+ ":" +:+ pretty lineNr +:+ ":" +:+ pretty col)
                  (NvimLsp.ActionData.mk uri lineNr col))))
  ∧ (NvimLsp.URL_pathname runtime "file:///dir%20a/x.ts" = Ok "/dir%20a/x.ts"%string →
     ∀ range, ∃ item,
       NvimLsp.locationToItem runtime
         (NvimLsp.LocationOrLink.mk (Some "file:///dir%20a/x.ts"%string)
            (Some range) None None) = Ok item
       ∧ NvimLsp.ActionData.path (NvimLsp.Item.action item) = "/dir%20a/x.ts"%string
       ∧ NvimLsp.Item.word item = "/dir%20a/x.ts"%string
       ∧ percentDecode "/dir%20a/x.ts" = "/dir a/x.ts"%string
       ∧ NvimLsp.ActionData.path (NvimLsp.Item.action item)
         ≠ percentDecode "/dir%20a/x.ts").
Proof.
  intros Hx. split_and!.
  - intros diagnostic item. split_and!; [|reflexivity..].
    destruct (split_LF_head (LspDiagnostic.DduDiagnostic.message diagnostic))
      as (word & rest & Hhead & Hs & Hword & Hrest).
    exists rest. subst item. unfold LspDiagnostic.diagnosticToItem.
    cbn [LspDiagnostic.ItemDiagnostic.word]. rewrite Hhead. cbn [default].
    auto.
  - intros diagnostic Hmessage. unfold LspDiagnostic.diagnosticToItem.
    cbn [LspDiagnostic.ItemDiagnostic.word]. by rewrite Hmessage.
  - intros end_. unfold NvimLsp.toLocation, NvimLsp.locationToItem.
    cbn [NvimLsp.LocationOrLink.uri NvimLsp.LocationOrLink.range
         NvimLsp.LocationOrLink.targetUri
         NvimLsp.LocationOrLink.targetSelectionRange].
    change (startsWith "file:///x.ts" "file:") with true.
    cbn match. rewrite Hx. reflexivity.
  - intros uri range targetUri targetSelectionRange lineNr col location.
    subst location. unfold NvimLsp.locationToItem.
    cbn [NvimLsp.LocationOrLink.uri NvimLsp.LocationOrLink.range].
    split.
    + intros -> path ->. reflexivity.
    + intros ->. reflexivity.
  - intros Hdir range. eexists. unfold NvimLsp.locationToItem.
    cbn [NvimLsp.LocationOrLink.uri NvimLsp.LocationOrLink.range].
    change (startsWith "file:///dir%20a/x.ts" "file:") with true.
    cbn match. rewrite Hdir. cbn [bind].
    split_and!; [reflexivity..|by vm_compute].
Qed.

Lemma items_built_witness :
  (NvimLsp.locationToItem sampleRuntime
     (NvimLsp.toLocation
        (NvimLsp.LocationOrLink.mk None None (Some "file:///x.ts"%string)
           (Some (Range.mk (Position.mk 4 1) (Position.mk 4 9)))))
   = Ok (NvimLsp.Item.mk "/x.ts" "/x.ts:5:2" (NvimLsp.ActionData.mk "/x.ts" 5 2)))
  ∧ ∃ item,
      NvimLsp.locationToItem sampleRuntime
        (NvimLsp.LocationOrLink.mk (Some "file:///dir%20a/x.ts"%string)
           (Some (Range.mk (Position.mk 4 1) (Position.mk 4 9))) None None)
      = Ok item
      ∧ NvimLsp.ActionData.path (NvimLsp.Item.action item) = "/dir%20a/x.ts"%string
      ∧ NvimLsp.Item.word item = "/dir%20a/x.ts"%string
      ∧ percentDecode "/dir%20a/x.ts" = "/dir a/x.ts"%string
      ∧ NvimLsp.ActionData.path (NvimLsp.Item.action item)
        ≠ percentDecode "/dir%20a/x.ts".
Proof.
  destruct (items_built sampleRuntime) as (_ & _ & Hx & _ & Hdir); [reflexivity|].
  split; [apply Hx|apply Hdir; reflexivity].
Defined.

(** * Further properties of lsp_diagnostic.ts *)

(** ** The comparator and the sort *)

(** X1: items none of which has a [bufNr] come out of the sort in the
    reverse of the order they went in. *)
Theorem sortItemDiagnostic_reverses_unnumbered
    (items : list LspDiagnostic.ItemDiagnostic.t) (curBufNr : Z) :
  Forall (λ item, LspDiagnostic.item_bufNr item = None) items →
  LspDiagnostic.sortItemDiagnostic items curBufNr = reverse items.
Proof.
  intros Hnone. unfold LspDiagnostic.sortItemDiagnostic.
  apply sort_descending. intros x y Hx.
  rewrite Forall_forall in Hnone. rewrite compareItems_spec, (Hnone x Hx). lia.
Qed.

Lemma sortItemDiagnostic_reverses_unnumbered_witness :
  LspDiagnostic.sortItemDiagnostic
    [sampleItem "A" None (Some 1) 1; sampleItem "B" None (Some 2) 2;
     sampleItem "C" None None 3] 7
  = reverse [sampleItem "A" None (Some 1) 1; sampleItem "B" None (Some 2) 2;
             sampleItem "C" None None 3].
Proof.
  apply sortItemDiagnostic_reverses_unnumbered.
  repeat constructor.
Defined.

(** X2: an item compares as equal to itself exactly when it has a
    [bufNr] and this is not a 0 that is also the current buffer; any other
    item compares as less than itself. *)
Theorem compareItems_self (curBufNr : Z) (a : LspDiagnostic.ItemDiagnostic.t) :
  (LspDiagnostic.compareItems curBufNr a a = 0
   ∨ LspDiagnostic.compareItems curBufNr a a = -1)
  ∧ (LspDiagnostic.compareItems curBufNr a a = 0 ↔
     ∃ n, LspDiagnostic.item_bufNr a = Some n ∧ ¬ (n = 0 ∧ curBufNr = 0)).
Proof.
  rewrite compareItems_spec.
  destruct (LspDiagnostic.item_bufNr a) as [n|].
  - repeat case_decide; try tauto; split; try (left; lia); try (right; lia).
    all: split; [intros ?; exists n; split; [done|lia]
                |intros (m & [= <-] & Hm); lia].
  - split; [by right|]. split; [lia|]. by intros (n & [=] & _).
Qed.

(** X3: between two items that have a [bufNr], the current buffer not
    being 0, the comparator gives opposite signs to the two orders. *)
Theorem compareItems_antisymmetric (curBufNr : Z)
    (a b : LspDiagnostic.ItemDiagnostic.t) :
  is_Some (LspDiagnostic.item_bufNr a) →
  is_Some (LspDiagnostic.item_bufNr b) →
  curBufNr ≠ 0 →
  (LspDiagnostic.compareItems curBufNr a b < 0
   ↔ 0 < LspDiagnostic.compareItems curBufNr b a)
  ∧ (LspDiagnostic.compareItems curBufNr a b = 0
     ↔ LspDiagnostic.compareItems curBufNr b a = 0).
Proof.
  intros [na Ha] [nb Hb] Hcur. rewrite !compareItems_spec, Ha, Hb.
  repeat case_decide;
    repeat match goal with
    | H : LspDiagnostic.item_severity _ = LspDiagnostic.item_severity _ |- _ =>
        first [rewrite H in * | rewrite <- H in *]; clear H
    end;
    try lia; try congruence.
Qed.

Lemma compareItems_antisymmetric_witness :
  (LspDiagnostic.compareItems 7 (sampleItem "A" (Some 7) None 5)
     (sampleItem "B" (Some 3) (Some 1) 2) < 0
   ↔ 0 < LspDiagnostic.compareItems 7 (sampleItem "B" (Some 3) (Some 1) 2)
           (sampleItem "A" (Some 7) None 5))
  ∧ (LspDiagnostic.compareItems 7 (sampleItem "A" (Some 7) None 5)
       (sampleItem "B" (Some 3) (Some 1) 2) = 0
     ↔ LspDiagnostic.compareItems 7 (sampleItem "B" (Some 3) (Some 1) 2)
         (sampleItem "A" (Some 7) None 5) = 0).
Proof.
  apply compareItems_antisymmetric; [by eexists|by eexists|lia].
Defined.

(** X4: on the items of the records that Neovim reports with a severity
    and a buffer number other than 0, the comparator is a consistent one,
    whatever the current buffer: sorting them gives the one stable sorted
    order. *)
Theorem nvim_items_consistent
    (raw : list LspDiagnostic.NvimLspDiagnostic.t) (curBufNr : Z) :
  Forall (λ diag, is_Some (LspDiagnostic.NvimLspDiagnostic.severity diag)
                  ∧ LspDiagnostic.NvimLspDiagnostic.bufnr diag ≠ 0) raw →
  ConsistentOn (LspDiagnostic.compareItems curBufNr)
    (List.map (λ diag, LspDiagnostic.diagnosticToItem
                         (LspDiagnostic.nvimLspToDdu diag)) raw).
Proof.
  intros Hraw. apply fullItems_consistent.
  apply Forall_forall. intros item (diag & -> & Hdiag)%list_elem_of_fmap.
  rewrite Forall_forall in Hraw. destruct (Hraw diag Hdiag) as [[s Hs] Hn].
  exists (LspDiagnostic.NvimLspDiagnostic.bufnr diag).
  split_and!; [done..|]. by exists s.
Qed.

Lemma nvim_items_consistent_witness :
  ConsistentOn (LspDiagnostic.compareItems 3)
    (List.map (λ diag, LspDiagnostic.diagnosticToItem
                         (LspDiagnostic.nvimLspToDdu diag))
       [sampleNvimRaw; sampleNvimRaw]).
Proof.
  apply nvim_items_consistent.
  repeat constructor; (by eexists) || (simpl; lia).
Defined.

(** ** The scope of [gather] *)

Section MapRes.
Context {T U : Type}.

Lemma mapRes_ext (f g : T → Res U) values :
  (∀ v, v ∈ values → f v = g v) → mapRes f values = mapRes g values.
Proof.
  induction values as [|v values IH]; intros Hfg; [done|].
  cbn [mapRes]. rewrite (Hfg v) by apply list_elem_of_here.
  rewrite IH; [done|]. intros w Hw. by apply Hfg, list_elem_of_further.
Qed.

Lemma mapRes_app (f : T → Res U) l1 l2 r1 r2 :
  mapRes f l1 = Ok r1 → mapRes f l2 = Ok r2 →
  mapRes f (l1 ++ l2) = Ok (r1 ++ r2).
Proof.
  rewrite !mapRes_Ok. apply Forall2_app.
Qed.

Lemma mapRes_app_inv (f : T → Res U) l1 l2 r :
  mapRes f (l1 ++ l2) = Ok r →
  ∃ r1 r2, mapRes f l1 = Ok r1 ∧ mapRes f l2 = Ok r2 ∧ r = r1 ++ r2.
Proof.
  rewrite mapRes_Ok. intros (r1 & r2 & H1 & H2 & ->)%Forall2_app_inv_l.
  exists r1, r2. by rewrite !mapRes_Ok.
Qed.
End MapRes.

Lemma mapRes_map {S T U : Type} (g : S → T) (f : T → Res U) values :
  mapRes f (List.map g values) = mapRes (λ v, f (g v)) values.
Proof.
  induction values as [|v values IH]; [done|].
  cbn [mapRes List.map]. by rewrite IH.
Qed.

Lemma resolveBuffer_zero (context : LspDiagnostic.Context) (n : Z) :
  LspDiagnostic.resolveBuffer context
    (Some (if decide (n = 0) then LspDiagnostic.context_bufNr context else n))
  = LspDiagnostic.resolveBuffer context (Some n).
Proof.
  unfold LspDiagnostic.resolveBuffer.
  destruct (decide (n = 0)) as [->|Hn].
  - by destruct (decide (LspDiagnostic.context_bufNr context = 0)).
  - by rewrite decide_False.
Qed.

Lemma gatherItems_scope
    (denops : LspDiagnostic.Denops) (context : LspDiagnostic.Context)
    (clientName : string) (scope1 scope2 : LspDiagnostic.BufferParam) :
  List.map (LspDiagnostic.resolveBuffer context) (LspDiagnostic.scopeBuffers scope1)
  = List.map (LspDiagnostic.resolveBuffer context) (LspDiagnostic.scopeBuffers scope2) →
  LspDiagnostic.gatherItems denops context
    {| LspDiagnostic.clientName := clientName; LspDiagnostic.buffer := scope1 |}
  = LspDiagnostic.gatherItems denops context
      {| LspDiagnostic.clientName := clientName; LspDiagnostic.buffer := scope2 |}.
Proof.
  intros Hscope.
  unfold LspDiagnostic.gatherItems, LspDiagnostic.asyncFlatMap,
    LspDiagnostic.flatMapM.
  cbn [LspDiagnostic.clientName LspDiagnostic.buffer].
  destruct (LspDiagnostic.assertClientName denops clientName) as [client|e]; [|done].
  cbn [bind].
  match goal with
  | |- context [mapRes ?F (LspDiagnostic.scopeBuffers scope1)] =>
      assert (∀ l, mapRes F l
                   = mapRes (λ bufNr,
                       let* found :=
                         LspDiagnostic.getDiagnostic client denops bufNr in
                       Ok (default [] found))
                       (List.map (LspDiagnostic.resolveBuffer context) l)) as HF
        by (intros l; symmetry; apply mapRes_map)
  end.
  by rewrite !HF, Hscope.
Qed.

(** X5: in the scope of [gather], the buffer number 0 stands for the
    current buffer: writing the number of the current buffer in its place,
    in a list or alone, gives the same stream. *)
Theorem gather_zero_is_current
    (denops : LspDiagnostic.Denops) (context : LspDiagnostic.Context)
    (clientName : string) :
  (∀ buffers,
     LspDiagnostic.gather denops context
       {| LspDiagnostic.clientName := clientName;
          LspDiagnostic.buffer := LspDiagnostic.BufferMany buffers |}
     = LspDiagnostic.gather denops context
         {| LspDiagnostic.clientName := clientName;
            LspDiagnostic.buffer :=
              LspDiagnostic.BufferMany
                (List.map (λ n, if decide (n = 0)
                                then LspDiagnostic.context_bufNr context else n)
                   buffers) |})
  ∧ LspDiagnostic.gather denops context
      {| LspDiagnostic.clientName := clientName;
         LspDiagnostic.buffer := LspDiagnostic.BufferOne 0 |}
    = LspDiagnostic.gather denops context
        {| LspDiagnostic.clientName := clientName;
           LspDiagnostic.buffer :=
             LspDiagnostic.BufferOne (LspDiagnostic.context_bufNr context) |}
  ∧ (∀ n,
       LspDiagnostic.gather denops context
         {| LspDiagnostic.clientName := clientName;
            LspDiagnostic.buffer := LspDiagnostic.BufferOne n |}
       = LspDiagnostic.gather denops context
           {| LspDiagnostic.clientName := clientName;
              LspDiagnostic.buffer := LspDiagnostic.BufferMany [n] |}).
Proof.
  split_and!.
  - intros buffers. unfold LspDiagnostic.gather.
    rewrite (gatherItems_scope denops context clientName
               (LspDiagnostic.BufferMany buffers)
               (LspDiagnostic.BufferMany
                  (List.map (λ n, if decide (n = 0)
                                  then LspDiagnostic.context_bufNr context else n)
                     buffers))); [done|].
    cbn [LspDiagnostic.scopeBuffers]. rewrite !map_map.
    apply map_ext. intros n. by rewrite resolveBuffer_zero.
  - unfold LspDiagnostic.gather.
    rewrite (gatherItems_scope denops context clientName
               (LspDiagnostic.BufferOne 0)
               (LspDiagnostic.BufferOne (LspDiagnostic.context_bufNr context)));
      [done|].
    cbn [LspDiagnostic.scopeBuffers List.map]. f_equal.
    pose proof (resolveBuffer_zero context 0) as H.
    by rewrite decide_True in H.
  - done.
Qed.

Lemma gatherItems_Ok
    (denops : LspDiagnostic.Denops) (context : LspDiagnostic.Context)
    (sourceParams : LspDiagnostic.Params) items :
  LspDiagnostic.gatherItems denops context sourceParams = Ok items ↔
  ∃ client diagnostics decorated,
    LspDiagnostic.assertClientName denops (LspDiagnostic.clientName sourceParams) = Ok client
    ∧ scopeDiagnostics client denops context (LspDiagnostic.buffer sourceParams)
      = Ok diagnostics
    ∧ mapRes (decoratedItem denops) diagnostics = Ok decorated
    ∧ items = LspDiagnostic.sortItemDiagnostic decorated
                (LspDiagnostic.context_bufNr context).
Proof.
  unfold LspDiagnostic.gatherItems, scopeDiagnostics. rewrite bind_Ok. split.
  - intros (client & Hclient & (diagnostics & Hd
                                & (decorated & Hdec & [= <-])%bind_Ok)%bind_Ok).
    by exists client, diagnostics, decorated.
  - intros (client & diagnostics & decorated & Hclient & Hd & Hdec & ->).
    exists client. split; [done|]. apply bind_Ok. exists diagnostics.
    split; [done|]. apply bind_Ok. by exists decorated.
Qed.

Lemma gather_Ok
    (denops : LspDiagnostic.Denops) (context : LspDiagnostic.Context)
    (sourceParams : LspDiagnostic.Params) items :
  LspDiagnostic.gatherItems denops context sourceParams = Ok items ↔
  LspDiagnostic.gather denops context sourceParams = oneChunk items.
Proof.
  unfold LspDiagnostic.gather, oneChunk.
  destruct (LspDiagnostic.gatherItems denops context sourceParams); split;
    congruence.
Qed.

Lemma scopeDiagnostics_Ok client denops context scope diagnostics :
  scopeDiagnostics client denops context scope = Ok diagnostics ↔
  ∃ found,
    Forall2 (λ buffer f,
               LspDiagnostic.getDiagnostic client denops
                 (LspDiagnostic.resolveBuffer context buffer) = Ok f)
      (LspDiagnostic.scopeBuffers scope) found
    ∧ diagnostics = List.concat (List.map (default []) found).
Proof.
  unfold scopeDiagnostics, LspDiagnostic.asyncFlatMap. rewrite flatMapM_Ok. split.
  - intros (lists & Hlists & ->).
    induction Hlists as [|b us bs lists (f & Hf & [= <-])%bind_Ok _
                           (found & Hfound & Heq)].
    + exists []. split; [constructor|done].
    + exists (f :: found). split; [by constructor|]. simpl. by rewrite Heq.
  - intros (found & Hfound & ->). exists (List.map (default []) found).
    split; [|done].
    induction Hfound as [|b f bs found Hf _ IH]; constructor; [|done].
    apply bind_Ok. by exists f.
Qed.

(** X6: when the scope holds no buffer, or the backend answers [null] for
    each buffer of the scope, [gather] enqueues one empty chunk and reports
    no error: an answer that is missing is not a failure. *)
Theorem gather_null_is_empty
    (denops : LspDiagnostic.Denops) (context : LspDiagnostic.Context)
    (sourceParams : LspDiagnostic.Params) (client : LspDiagnostic.ClientName) :
  LspDiagnostic.assertClientName denops (LspDiagnostic.clientName sourceParams) = Ok client →
  Forall (λ buffer,
            LspDiagnostic.getDiagnostic client denops
              (LspDiagnostic.resolveBuffer context buffer) = Ok None)
    (LspDiagnostic.scopeBuffers (LspDiagnostic.buffer sourceParams)) →
  LspDiagnostic.gather denops context sourceParams = oneChunk [].
Proof.
  intros Hclient Hnull. apply gather_Ok, gatherItems_Ok.
  exists client, [], []. split_and!; [done| |done..].
  apply scopeDiagnostics_Ok.
  exists (List.map (λ _, None)
            (LspDiagnostic.scopeBuffers (LspDiagnostic.buffer sourceParams))).
  split.
  - induction Hnull; constructor; done.
  - clear. induction (LspDiagnostic.scopeBuffers _) as [|b bs IH]; [done|].
    exact IH.
Qed.

Lemma gather_null_is_empty_witness :
  let denops :=
    {| LspDiagnostic.meta_host := LspDiagnostic.vim;
       LspDiagnostic.vim_diagnostic_get := LspDiagnostic.vim_diagnostic_get quietDenops;
       LspDiagnostic.CocAction_diagnosticList := Ok None;
       LspDiagnostic.get_all_diagnostics_grouped_by_server_for_uri :=
         LspDiagnostic.get_all_diagnostics_grouped_by_server_for_uri quietDenops;
       LspDiagnostic.get_all_diagnostics_grouped_by_uri_and_server :=
         LspDiagnostic.get_all_diagnostics_grouped_by_uri_and_server quietDenops;
       LspDiagnostic.bufNrToFileUri := LspDiagnostic.bufNrToFileUri quietDenops;
       LspDiagnostic.fromFileUrl := LspDiagnostic.fromFileUrl quietDenops;
       LspDiagnostic.addIconAndHighlight :=
         LspDiagnostic.addIconAndHighlight quietDenops;
       LspDiagnostic.unknownClientName :=
         LspDiagnostic.unknownClientName quietDenops |} in
  LspDiagnostic.gather denops {| LspDiagnostic.context_bufNr := 7 |}
    {| LspDiagnostic.clientName := "coc.nvim";
       LspDiagnostic.buffer := LspDiagnostic.BufferMany [0; 4] |}
  = oneChunk [].
Proof.
  intros denops.
  apply (gather_null_is_empty denops _ _ LspDiagnostic.coc_nvim);
    [reflexivity|repeat constructor].
Defined.

(** X7: the diagnostics of a list of buffers are those of its parts, put
    together: when [gather] succeeds for two lists of buffers, it succeeds
    for the two in a row, and its items are the items of the one and the
    items of the other, in some order; nothing is dropped for being there
    twice. *)
Theorem gatherItems_scope_app
    (denops : LspDiagnostic.Denops) (context : LspDiagnostic.Context)
    (clientName : string) (buffers1 buffers2 : list Z)
    (items1 items2 : list LspDiagnostic.ItemDiagnostic.t) :
  LspDiagnostic.gatherItems denops context
    {| LspDiagnostic.clientName := clientName;
       LspDiagnostic.buffer := LspDiagnostic.BufferMany buffers1 |} = Ok items1 →
  LspDiagnostic.gatherItems denops context
    {| LspDiagnostic.clientName := clientName;
       LspDiagnostic.buffer := LspDiagnostic.BufferMany buffers2 |} = Ok items2 →
  ∃ items,
    LspDiagnostic.gatherItems denops context
      {| LspDiagnostic.clientName := clientName;
         LspDiagnostic.buffer := LspDiagnostic.BufferMany (buffers1 ++ buffers2) |}
    = Ok items
    ∧ items ≡ₚ items1 ++ items2.
Proof.
  intros (client & d1 & dec1 & Hclient & (f1 & Hf1 & ->)%scopeDiagnostics_Ok
          & Hdec1 & ->)%gatherItems_Ok.
  intros (client' & d2 & dec2 & Hclient' & (f2 & Hf2 & ->)%scopeDiagnostics_Ok
          & Hdec2 & ->)%gatherItems_Ok.
  cbn [LspDiagnostic.clientName LspDiagnostic.buffer] in *.
  assert (client' = client) as -> by congruence.
  eexists. split.
  - apply gatherItems_Ok. exists client. eexists _, (dec1 ++ dec2).
    cbn [LspDiagnostic.clientName LspDiagnostic.buffer].
    split_and!; [done| | |done].
    + apply scopeDiagnostics_Ok. exists (f1 ++ f2). split; [|done].
      cbn [LspDiagnostic.scopeBuffers] in *. rewrite map_app.
      by apply Forall2_app.
    + rewrite map_app, concat_app. by apply mapRes_app.
  - by rewrite !sortItemDiagnostic_perm.
Qed.

Lemma gatherItems_scope_app_witness :
  ∃ items,
    LspDiagnostic.gatherItems sampleDenops {| LspDiagnostic.context_bufNr := 7 |}
      {| LspDiagnostic.clientName := "nvim-lsp";
         LspDiagnostic.buffer := LspDiagnostic.BufferMany ([7] ++ [7]) |}
    = Ok items
    ∧ items ≡ₚ [LspDiagnostic.diagnosticToItem (LspDiagnostic.nvimLspToDdu sampleNvimRaw)]
               ++ [LspDiagnostic.diagnosticToItem
                     (LspDiagnostic.nvimLspToDdu sampleNvimRaw)].
Proof.
  apply (gatherItems_scope_app sampleDenops {| LspDiagnostic.context_bufNr := 7 |}
           "nvim-lsp" [7] [7]); reflexivity.
Defined.






(** ** The adapters, further *)

Lemma stampPath_flattens denops groups out :
  LspDiagnostic.flatMapM (LspDiagnostic.stampPath denops) groups = Ok out →
  ∃ paths,
    Forall2 (λ group path,
               LspDiagnostic.fromFileUrl denops
                 (LspDiagnostic.VimLspDiagnostic.params_uri group) = Ok path)
      groups paths
    ∧ out = List.concat
              (zip_with (λ group path,
                           List.map (λ diag,
                                       LspDiagnostic.DduDiagnostic.mk diag None
                                         (Some path))
                             (LspDiagnostic.VimLspDiagnostic.params_diagnostics group))
                 groups paths)
    ∧ List.map LspDiagnostic.DduDiagnostic.diagnostic out
      = List.concat
          (List.map LspDiagnostic.VimLspDiagnostic.params_diagnostics groups).
Proof.
  intros (lists & Hlists & ->)%flatMapM_Ok.
  induction Hlists as [|g us gs lists Hg _ (paths & Hpaths & Hout & Hdiag)].
  - exists []. split_and!; [constructor|done..].
  - apply stampPath_Ok in Hg as (path & Hpath & ->).
    exists (path :: paths). split_and!.
    + by constructor.
    + simpl. by rewrite Hout.
    + simpl. rewrite map_app, Hdiag. f_equal.
      rewrite map_map. simpl. apply map_id.
Qed.

(** X9: the vim-lsp adapter returns the diagnostics of the groups it
    fetched, all of them, unchanged and in the order of the groups, each
    with the path that [fromFileUrl] gives for the URI of its group.  The
    groups are those of all URIs when the scope is [null] or 0, and those
    of the URI of the buffer otherwise. *)
Theorem getVimLspDiagnostics_flattens
    (denops : LspDiagnostic.Denops) (bufNr : option Z)
    (out : list LspDiagnostic.DduDiagnostic.t) :
  LspDiagnostic.getVimLspDiagnostics denops bufNr = Ok out →
  ∃ groups paths,
    ((bufNr = None ∨ bufNr = Some 0)
     ∧ (∃ all,
          LspDiagnostic.get_all_diagnostics_grouped_by_uri_and_server denops = Ok all
          ∧ groups = vimLspGroups all)
     ∨ (∃ n uri fetched,
          bufNr = Some n ∧ n ≠ 0
          ∧ LspDiagnostic.bufNrToFileUri denops n = Ok uri
          ∧ LspDiagnostic.get_all_diagnostics_grouped_by_server_for_uri denops uri
            = Ok fetched
          ∧ groups = List.map snd fetched))
    ∧ Forall2 (λ group path,
                 LspDiagnostic.fromFileUrl denops
                   (LspDiagnostic.VimLspDiagnostic.params_uri group) = Ok path)
        groups paths
    ∧ out = List.concat
              (zip_with (λ group path,
                           List.map (λ diag,
                                       LspDiagnostic.DduDiagnostic.mk diag None
                                         (Some path))
                             (LspDiagnostic.VimLspDiagnostic.params_diagnostics group))
                 groups paths)
    ∧ List.map LspDiagnostic.DduDiagnostic.diagnostic out
      = List.concat
          (List.map LspDiagnostic.VimLspDiagnostic.params_diagnostics groups).
Proof.
  unfold LspDiagnostic.getVimLspDiagnostics.
  destruct bufNr as [n|]; [destruct (decide (n = 0)) as [->|Hn]|].
  - intros (all & Hall & (paths & H1 & H2 & H3)%stampPath_flattens)%bind_Ok.
    exists (vimLspGroups all), paths. split_and!; [|done..].
    left. split; [by right|by exists all].
  - intros (uri & Huri
            & (fetched & Hf & (paths & H1 & H2 & H3)%stampPath_flattens)%bind_Ok)
      %bind_Ok.
    exists (List.map snd fetched), paths. split_and!; [|done..].
    right. by exists n, uri, fetched.
  - intros (all & Hall & (paths & H1 & H2 & H3)%stampPath_flattens)%bind_Ok.
    exists (vimLspGroups all), paths. split_and!; [|done..].
    left. split; [by left|by exists all].
Qed.

Lemma getVimLspDiagnostics_flattens_witness :
  ∃ groups paths,
    ((Some 7 = None ∨ Some 7 = Some 0)
     ∧ (∃ all,
          LspDiagnostic.get_all_diagnostics_grouped_by_uri_and_server sampleDenops
          = Ok all
          ∧ groups = vimLspGroups all)
     ∨ (∃ n uri fetched,
          Some 7 = Some n ∧ n ≠ 0
          ∧ LspDiagnostic.bufNrToFileUri sampleDenops n = Ok uri
          ∧ LspDiagnostic.get_all_diagnostics_grouped_by_server_for_uri
              sampleDenops uri = Ok fetched
          ∧ groups = List.map snd fetched))
    ∧ Forall2 (λ group path,
                 LspDiagnostic.fromFileUrl sampleDenops
                   (LspDiagnostic.VimLspDiagnostic.params_uri group) = Ok path)
        groups paths
    ∧ [LspDiagnostic.DduDiagnostic.mk sampleVimLspRaw None (Some "/a"%string)]
      = List.concat
          (zip_with (λ group path,
                       List.map (λ diag,
                                   LspDiagnostic.DduDiagnostic.mk diag None
                                     (Some path))
                         (LspDiagnostic.VimLspDiagnostic.params_diagnostics group))
             groups paths)
    ∧ List.map LspDiagnostic.DduDiagnostic.diagnostic
        [LspDiagnostic.DduDiagnostic.mk sampleVimLspRaw None (Some "/a"%string)]
      = List.concat
          (List.map LspDiagnostic.VimLspDiagnostic.params_diagnostics groups).
Proof.
  apply (getVimLspDiagnostics_flattens sampleDenops (Some 7)). reflexivity.
Defined.

(** X10: the coc.nvim adapter returns diagnostics for some of the raw
    records, in the order of the records, and never more than there are
    records; when the URI of the buffer cannot be resolved, or the list
    cannot be had, the adapter throws that error. *)
Theorem getCocDiagnostics_sublist
    (denops : LspDiagnostic.Denops) (raw : list LspDiagnostic.CocDiagnostic.t) :
  LspDiagnostic.CocAction_diagnosticList denops = Ok (Some raw) →
  (∀ bufNr out,
     LspDiagnostic.getCocDiagnostics denops bufNr = Ok out →
     ∃ kept, out = Some (List.map LspDiagnostic.cocToDdu kept)
             ∧ kept `sublist_of` raw
             ∧ (length kept ≤ length raw)%nat)
  ∧ (∀ n e, n ≠ 0 → LspDiagnostic.bufNrToFileUri denops n = Throw e →
       LspDiagnostic.getCocDiagnostics denops (Some n) = Throw e).
Proof.
  intros Hraw. split.
  - intros bufNr out (uri & result & _ & Hresult & ->)%getCocDiagnostics_Ok.
    rewrite Hraw in Hresult. injection Hresult as <-.
    exists (List.filter (LspDiagnostic.cocInScope uri) raw).
    assert (List.filter (LspDiagnostic.cocInScope uri) raw `sublist_of` raw) as Hsub.
    { clear. induction raw as [|diag raw IH]; simpl; [done|].
      destruct (LspDiagnostic.cocInScope uri diag).
      - by apply sublist_skip.
      - by apply sublist_cons. }
    split_and!; [done..|]. by apply sublist_length.
  - intros n e Hn He. unfold LspDiagnostic.getCocDiagnostics, LspDiagnostic.scopeUri.
    rewrite decide_False by done. by rewrite He.
Qed.

Lemma getCocDiagnostics_sublist_witness :
  (∀ bufNr out,
     LspDiagnostic.getCocDiagnostics sampleDenops bufNr = Ok out →
     ∃ kept, out = Some (List.map LspDiagnostic.cocToDdu kept)
             ∧ kept `sublist_of` [sampleCocRaw]
             ∧ (length kept ≤ length [sampleCocRaw])%nat)
  ∧ (∀ n e, n ≠ 0 → LspDiagnostic.bufNrToFileUri sampleDenops n = Throw e →
       LspDiagnostic.getCocDiagnostics sampleDenops (Some n) = Throw e).
Proof. apply (getCocDiagnostics_sublist sampleDenops [sampleCocRaw]). reflexivity. Defined.


(** ** The sanitizer after the Neovim adapter *)

Lemma lookup_setOptional_ne key value (object : gmap string JsValue) key' :
  key ≠ key' → LspDiagnostic.setOptional key value object !! key' = object !! key'.
Proof.
  intros Hne. unfold LspDiagnostic.setOptional.
  destruct value; [by rewrite lookup_insert_ne|done].
Qed.

Lemma lookup_setOptional_Some key v (object : gmap string JsValue) :
  LspDiagnostic.setOptional key (Some v) object !! key = Some v.
Proof. unfold LspDiagnostic.setOptional. by rewrite lookup_insert_eq. Qed.

Ltac object_lookup :=
  unfold LspDiagnostic.DduDiagnostic_object, LspDiagnostic.Diagnostic_object;
  repeat first
    [ rewrite lookup_setOptional_ne by done
    | rewrite lookup_insert_ne by done ].

(** X12: the record that the sanitizer makes of a diagnostic of Neovim has
    the message of the raw record, the range made of its four offsets and
    its severity when it has one; the offsets and the buffer number that
    the adapter carried along as properties of their own are in the
    diagnostic of the adapter and are gone from the sanitized record. *)
Theorem proper_nvim_diagnostic (raw : LspDiagnostic.NvimLspDiagnostic.t) :
  let diagnostic := LspDiagnostic.DduDiagnostic_object (LspDiagnostic.nvimLspToDdu raw) in
  let proper := LspDiagnostic.pick diagnostic LspDiagnostic.properKeys in
  proper !! ("message" : string)
    = Some (JsString (LspDiagnostic.NvimLspDiagnostic.message raw))
  ∧ proper !! ("range" : string)
    = Some (jsRange
              (Range.mk
                 (Position.mk (LspDiagnostic.NvimLspDiagnostic.lnum raw)
                    (LspDiagnostic.NvimLspDiagnostic.col raw))
                 (Position.mk (LspDiagnostic.NvimLspDiagnostic.end_lnum raw)
                    (LspDiagnostic.NvimLspDiagnostic.end_col raw))))
  ∧ (∀ s, LspDiagnostic.NvimLspDiagnostic.severity raw = Some s →
          proper !! ("severity" : string) = Some (JsNumber s))
  ∧ diagnostic !! ("lnum" : string)
    = Some (JsNumber (LspDiagnostic.NvimLspDiagnostic.lnum raw))
  ∧ diagnostic !! ("bufNr" : string)
    = Some (JsNumber (LspDiagnostic.NvimLspDiagnostic.bufnr raw))
  ∧ Forall (λ key, proper !! key = None)
      ["lnum"; "end_lnum"; "col"; "end_col"; "bufnr"; "bufNr"; "path"]%string.
Proof.
  intros diagnostic proper. subst proper.
  assert (∀ key, key ∈ LspDiagnostic.properKeys →
                 LspDiagnostic.pick diagnostic LspDiagnostic.properKeys !! key
                 = diagnostic !! key) as Hkept.
  { intros key Hkey. by rewrite pick_lookup, decide_True. }
  assert (∀ key, key ∉ LspDiagnostic.properKeys →
                 LspDiagnostic.pick diagnostic LspDiagnostic.properKeys !! key
                 = None) as Hdropped.
  { intros key Hkey. by rewrite pick_lookup, decide_False. }
  split_and!.
  - rewrite Hkept by (by apply (bool_decide_unpack _)).
    subst diagnostic. object_lookup. by rewrite lookup_insert_eq.
  - rewrite Hkept by (by apply (bool_decide_unpack _)).
    subst diagnostic. object_lookup. by rewrite lookup_insert_eq.
  - intros s Hs. rewrite Hkept by (by apply (bool_decide_unpack _)).
    subst diagnostic. object_lookup.
    cbn [LspDiagnostic.nvimLspToDdu LspDiagnostic.DduDiagnostic.diagnostic
         LspDiagnostic.Diagnostic.severity].
    rewrite Hs. apply lookup_setOptional_Some.
  - subst diagnostic. object_lookup.
    cbn [LspDiagnostic.nvimLspToDdu LspDiagnostic.DduDiagnostic.diagnostic
         LspDiagnostic.DduDiagnostic.path LspDiagnostic.DduDiagnostic.bufNr
         LspDiagnostic.Diagnostic.extra LspDiagnostic.Diagnostic.severity
         LspDiagnostic.Diagnostic.code LspDiagnostic.Diagnostic.codeDescription
         LspDiagnostic.Diagnostic.source LspDiagnostic.Diagnostic.tags
         LspDiagnostic.Diagnostic.relatedInformation LspDiagnostic.Diagnostic.data].
    object_lookup. by rewrite lookup_insert_eq.
  - subst diagnostic. unfold LspDiagnostic.DduDiagnostic_object.
    apply lookup_setOptional_Some.
  - repeat constructor; apply Hdropped; by apply (bool_decide_unpack _).
Qed.

(** ** The word of an item *)

Lemma split_LF_single_line (s : string) :
  containsChar LF s = false → split_LF s = [s].
Proof.
  induction s as [|c s IH]; [done|]. cbn [containsChar split_LF].
  intros [Hc Hs]%orb_false_elim. rewrite Hc, (IH Hs). done.
Qed.

(** X13: a message is the word of its item as it is exactly when it holds
    no line feed, and the word of an item, taken for a message, is the
    word of the item of that message: cutting at the first line feed again
    changes nothing. *)
Theorem diagnosticToItem_single_line (diagnostic : LspDiagnostic.DduDiagnostic.t) :
  let word := LspDiagnostic.ItemDiagnostic.word (LspDiagnostic.diagnosticToItem diagnostic) in
  (word = LspDiagnostic.DduDiagnostic.message diagnostic
   ↔ containsChar LF (LspDiagnostic.DduDiagnostic.message diagnostic) = false)
  ∧ (∀ again,
       LspDiagnostic.DduDiagnostic.message again = word →
       LspDiagnostic.ItemDiagnostic.word (LspDiagnostic.diagnosticToItem again) = word)
  ∧ (String.length word
     ≤ String.length (LspDiagnostic.DduDiagnostic.message diagnostic))%nat.
Proof.
  intros word. subst word.
  cbn [LspDiagnostic.diagnosticToItem LspDiagnostic.ItemDiagnostic.word].
  destruct (split_LF_head (LspDiagnostic.DduDiagnostic.message diagnostic))
    as (word & rest & Hhead & Hmessage & Hword & Hrest).
  rewrite Hhead. cbn [default from_option id]. split_and!.
  - split.
    + by intros <-.
    + intros Hsingle. apply split_LF_single_line in Hsingle.
      rewrite Hsingle in Hhead. by injection Hhead.
  - intros again Hagain.
    cbn [LspDiagnostic.diagnosticToItem LspDiagnostic.ItemDiagnostic.word].
    by rewrite Hagain, (split_LF_single_line word Hword).
  - rewrite Hmessage. clear. induction word as [|c word IH]; simpl; lia.
Qed.

(** ** What [gather] catches *)

Lemma gatherItems_decoration_failure
    (denops : LspDiagnostic.Denops) (context : LspDiagnostic.Context)
    (sourceParams : LspDiagnostic.Params) client diagnostics :
  LspDiagnostic.assertClientName denops (LspDiagnostic.clientName sourceParams) = Ok client →
  scopeDiagnostics client denops context (LspDiagnostic.buffer sourceParams)
  = Ok diagnostics →
  Exists (λ diagnostic, ∃ e, decoratedItem denops diagnostic = Throw e) diagnostics →
  ∃ e, LspDiagnostic.gatherItems denops context sourceParams = Throw e.
Proof.
  intros Hclient Hdiagnostics [e He]%mapRes_Throw.
  unfold LspDiagnostic.gatherItems. rewrite Hclient. cbn [bind].
  unfold scopeDiagnostics in Hdiagnostics. rewrite Hdiagnostics. cbn [bind].
  unfold decoratedItem in He. rewrite He. by exists e.
Qed.

(** X14: whatever happens in [gather], the stream is closed, and either
    one chunk was enqueued and no error reported, or no chunk was enqueued
    and one error reported under the name of the source.  When the client
    name is refused, the error of the refusal is the one reported, whatever
    the editor answers; and when the decoration of one item fails, no item
    at all is enqueued. *)
Theorem gather_all_or_nothing
    (denops : LspDiagnostic.Denops) (context : LspDiagnostic.Context)
    (sourceParams : LspDiagnostic.Params) :
  let stream := LspDiagnostic.gather denops context sourceParams in
  LspDiagnostic.closed stream = true
  ∧ ((∃ items, stream = oneChunk items)
     ∨ (∃ e, LspDiagnostic.chunks stream = []
             ∧ LspDiagnostic.printError_calls stream
               = [(e, "lsp_diagnostic"%string)]))
  ∧ (∀ e,
       LspDiagnostic.assertClientName denops (LspDiagnostic.clientName sourceParams)
       = Throw e →
       LspDiagnostic.chunks stream = []
       ∧ LspDiagnostic.printError_calls stream = [(e, "lsp_diagnostic"%string)])
  ∧ (∀ client diagnostics,
       LspDiagnostic.assertClientName denops (LspDiagnostic.clientName sourceParams)
       = Ok client →
       scopeDiagnostics client denops context (LspDiagnostic.buffer sourceParams)
       = Ok diagnostics →
       Exists (λ diagnostic, ∃ e, decoratedItem denops diagnostic = Throw e)
         diagnostics →
       LspDiagnostic.chunks stream = []).
Proof.
  intros stream. subst stream. split_and!.
  - unfold LspDiagnostic.gather. by destruct LspDiagnostic.gatherItems.
  - unfold LspDiagnostic.gather, oneChunk.
    destruct LspDiagnostic.gatherItems as [items|e]; [left|right]; eauto.
  - intros e He. unfold LspDiagnostic.gather, LspDiagnostic.gatherItems.
    by rewrite He.
  - intros client diagnostics Hclient Hdiagnostics Hfail.
    destruct (gatherItems_decoration_failure denops context sourceParams client
                diagnostics Hclient Hdiagnostics Hfail) as [e He].
    unfold LspDiagnostic.gather. by rewrite He.
Qed.


(** * Further properties of nvim_lsp.ts *)

(** ** The pattern of the blocked locations *)

Lemma prefix_inv (p s : string) :
  String.prefix p s = true → ∃ rest, s = (p +:+ rest)%string.
Proof.
  revert s. induction p as [|c p IH]; intros s; [by exists s|].
  destruct s as [|c' s]; [done|]. cbn [String.prefix].
  destruct (Ascii.ascii_dec c c') as [<-|]; [|done].
  intros [rest ->]%IH. by exists rest.
Qed.

Lemma fragmentAt_inv (s : string) :
  NvimLsp.fragmentAt s = true →
  ∃ fragment rest,
    fragment ∈ blockedFragments ∧ s = ("%23" +:+ fragment +:+ rest)%string.
Proof.
  unfold NvimLsp.fragmentAt, startsWith, blockedFragments.
  rewrite !orb_true_iff.
  intros [[[[rest ->]%prefix_inv|[rest ->]%prefix_inv]|[rest ->]%prefix_inv]
         |[rest ->]%prefix_inv].
  - exists "%5E"%string, rest. split; [|done]. repeat constructor.
  - exists "%7E"%string, rest. split; [|done]. repeat constructor.
  - exists "%3C"%string, rest. split; [|done]. repeat constructor.
  - exists "%3D"%string, rest. split; [|done]. repeat constructor.
Qed.

Lemma anyThenFragment_step (s : string) :
  NvimLsp.anyThenFragment s
  = NvimLsp.fragmentAt s
    || match s with
       | EmptyString => false
       | String _ s' =>
           if NvimLsp.atLineTerminator s then false else NvimLsp.anyThenFragment s'
       end.
Proof. by destruct s. Qed.

Lemma anyThenFragment_inv (s : string) :
  NvimLsp.anyThenFragment s = true →
  ∃ mid fragment rest,
    fragment ∈ blockedFragments
    ∧ containsLineTerminator mid = false
    ∧ s = (mid +:+ "%23" +:+ fragment +:+ rest)%string.
Proof.
  induction s as [|c s IH]; rewrite anyThenFragment_step;
    intros [Hhere|Hlater]%orb_true_iff.
  - done.
  - done.
  - apply fragmentAt_inv in Hhere as (fragment & rest & Hfragment & Hs).
    by exists EmptyString, fragment, rest.
  - destruct (NvimLsp.atLineTerminator (String c s)) eqn:Hc; [done|].
    apply IH in Hlater as (mid & fragment & rest & Hfragment & Hmid & ->).
    exists (String c mid), fragment, rest. split_and!; [done| |done].
    cbn [containsLineTerminator].
    change (String c (mid +:+ "%23" +:+ fragment +:+ rest))
      with (String c mid +:+ "%" +:+ ("23" +:+ fragment +:+ rest)) in Hc.
    rewrite atLineTerminator_app in Hc. by rewrite Hc, Hmid.
Qed.

Lemma denoFragmentRegExp_test_inv (s : string) :
  NvimLsp.denoFragmentRegExp_test s = true →
  ∃ rest, s = ("deno:" +:+ rest)%string ∧ NvimLsp.anyThenFragment rest = true.
Proof.
  unfold NvimLsp.denoFragmentRegExp_test.
  destruct s as [|[[] [] [] [] [] [] [] []] s]; try done.
  destruct s as [|[[] [] [] [] [] [] [] []] s]; try done.
  destruct s as [|[[] [] [] [] [] [] [] []] s]; try done.
  destruct s as [|[[] [] [] [] [] [] [] []] s]; try done.
  destruct s as [|[[] [] [] [] [] [] [] []] s]; try done.
  intros Hrest. by exists s.
Qed.

(** X15: a location is taken for blocked exactly when its [uri] is
    [deno:], then characters none of which is a line terminator, then
    [%23] and one of [%5E], [%7E], [%3C], [%3D], then anything: no entry
    without [uri] and no URI of another scheme is ever dropped. *)
Theorem isDenoUriWithFragment_iff (location : NvimLsp.LocationOrLink.t) :
  NvimLsp.isDenoUriWithFragment location = true
  ↔ ∃ mid fragment rest,
      NvimLsp.LocationOrLink.uri location
      = Some ("deno:" +:+ mid +:+ "%23" +:+ fragment +:+ rest)%string
      ∧ fragment ∈ blockedFragments
      ∧ containsLineTerminator mid = false.
Proof.
  unfold NvimLsp.isDenoUriWithFragment. split.
  - destruct (NvimLsp.LocationOrLink.uri location) as [uri|]; [|done].
    cbn [default from_option id].
    intros (tail & -> & Htail)%denoFragmentRegExp_test_inv.
    apply anyThenFragment_inv in Htail
      as (mid & fragment & rest & Hfragment & Hmid & ->).
    by exists mid, fragment, rest.
  - intros (mid & fragment & rest & -> & Hfragment & Hmid).
    by apply anyThenFragment_app.
Qed.

(** ** The stream of [gather] *)

Lemma isSupportedMethod_elem (method : string) :
  NvimLsp.isSupportedMethod method = true ↔ method ∈ NvimLsp.SUPPORTED_METHODS.
Proof.
  unfold NvimLsp.isSupportedMethod. rewrite existsb_exists. split.
  - intros (m & Hm%list_elem_of_In & ->%bool_decide_eq_true). done.
  - intros Hm. exists method. split; [by apply list_elem_of_In|].
    by apply bool_decide_eq_true.
Qed.

Lemma gather_supported denops runtime context (method : string) :
  method ∈ NvimLsp.SUPPORTED_METHODS →
  NvimLsp.gather denops runtime context method
  = match NvimLsp.request denops method (NvimLsp.context_bufNr context)
            (NvimLsp.context_winId context) with
    | Throw e => erroredStream e
    | Ok None =>
        {| NvimLsp.chunks := []; NvimLsp.console_log := [];
           NvimLsp.closed := true; NvimLsp.errored := None |}
    | Ok (Some response) =>
        match handlerOf method runtime response with
        | Ok items =>
            {| NvimLsp.chunks := [items]; NvimLsp.console_log := [];
               NvimLsp.closed := true; NvimLsp.errored := None |}
        | Throw e => erroredStream e
        end
    end.
Proof.
  intros Hmethod%isSupportedMethod_elem. unfold NvimLsp.gather.
  by rewrite Hmethod.
Qed.

(** X16: a method is supported exactly when it is one of the five names.
    For any other method [gather] asks the editor nothing, writes one line
    to the console, enqueues nothing and closes the stream.  For a
    supported method it writes nothing to the console; it enqueues at most
    one chunk; the stream is closed exactly when [start] did not throw,
    and a [start] that threw enqueued nothing; a request that fails is
    the failure of the stream, not caught, and a response that is [null]
    closes the stream with no chunk. *)
Theorem gather_stream_shape
    (denops : NvimLsp.Denops) (runtime : NvimLsp.Runtime)
    (context : NvimLsp.Context) (method : string) :
  let stream := NvimLsp.gather denops runtime context method in
  (NvimLsp.isSupportedMethod method = true ↔ method ∈ NvimLsp.SUPPORTED_METHODS)
  ∧ (method ∉ NvimLsp.SUPPORTED_METHODS →
     stream = {| NvimLsp.chunks := [];
                 NvimLsp.console_log := [("Unsupported method: " +:+ method)%string];
                 NvimLsp.closed := true; NvimLsp.errored := None |})
  ∧ (method ∈ NvimLsp.SUPPORTED_METHODS → NvimLsp.console_log stream = [])
  ∧ (length (NvimLsp.chunks stream) ≤ 1)%nat
  ∧ (NvimLsp.closed stream = true ↔ NvimLsp.errored stream = None)
  ∧ (is_Some (NvimLsp.errored stream) → NvimLsp.chunks stream = [])
  ∧ (method ∈ NvimLsp.SUPPORTED_METHODS →
     ∀ e, NvimLsp.request denops method (NvimLsp.context_bufNr context)
            (NvimLsp.context_winId context) = Throw e →
          stream = erroredStream e)
  ∧ (method ∈ NvimLsp.SUPPORTED_METHODS →
     NvimLsp.request denops method (NvimLsp.context_bufNr context)
       (NvimLsp.context_winId context) = Ok None →
     stream = {| NvimLsp.chunks := []; NvimLsp.console_log := [];
                 NvimLsp.closed := true; NvimLsp.errored := None |}).
Proof.
  intros stream. subst stream.
  assert (∀ P : NvimLsp.Stream → Prop,
            (method ∉ NvimLsp.SUPPORTED_METHODS →
             P {| NvimLsp.chunks := [];
                  NvimLsp.console_log := [("Unsupported method: " +:+ method)%string];
                  NvimLsp.closed := true; NvimLsp.errored := None |}) →
            (∀ e, P (erroredStream e)) →
            P {| NvimLsp.chunks := []; NvimLsp.console_log := [];
                 NvimLsp.closed := true; NvimLsp.errored := None |} →
            (∀ items, P {| NvimLsp.chunks := [items]; NvimLsp.console_log := [];
                           NvimLsp.closed := true; NvimLsp.errored := None |}) →
            P (NvimLsp.gather denops runtime context method)) as Hcases.
  { intros P Hunsupported Herrored Hnull Hitems.
    destruct (decide (method ∈ NvimLsp.SUPPORTED_METHODS)) as [Hmethod|Hmethod].
    - rewrite gather_supported by done.
      destruct NvimLsp.request as [[response|]|e]; [|done..].
      by destruct handlerOf.
    - unfold NvimLsp.gather.
      destruct (NvimLsp.isSupportedMethod method) eqn:Hsupported.
      + by apply isSupportedMethod_elem in Hsupported.
      + by apply Hunsupported. }
  split_and!.
  - apply isSupportedMethod_elem.
  - intros Hmethod. unfold NvimLsp.gather.
    destruct (NvimLsp.isSupportedMethod method) eqn:Hsupported; [|done].
    by apply isSupportedMethod_elem in Hsupported.
  - intros Hmethod. apply Hcases; done.
  - apply Hcases; intros; simpl; lia.
  - apply Hcases; intros; simpl; split; done.
  - apply Hcases; simpl; done.
  - intros Hmethod e He. rewrite gather_supported by done. by rewrite He.
  - intros Hmethod Hnull. rewrite gather_supported by done. by rewrite Hnull.
Qed.

(** ** The two handlers *)

Lemma toLocation_isLocation (entry : NvimLsp.LocationOrLink.t) :
  isLocation entry → NvimLsp.toLocation entry = entry.
Proof.
  intros [[uri Huri] [range Hrange]]. unfold NvimLsp.toLocation.
  by rewrite Huri, Hrange.
Qed.

Lemma map_toLocation_isLocation (entries : list NvimLsp.LocationOrLink.t) :
  Forall isLocation entries → List.map NvimLsp.toLocation entries = entries.
Proof.
  induction 1 as [|entry entries Hentry _ IH]; [done|].
  cbn [List.map]. by rewrite toLocation_isLocation, IH.
Qed.

(** X17: on a response in which the entries of every array are locations,
    the handler of the definitions and the handler of the references do
    the same: they return the same items or throw the same error. *)
Theorem handlers_agree_on_locations
    (runtime : NvimLsp.Runtime) (response : list NvimLsp.ResponseEntry) :
  arraysOfLocations response →
  NvimLsp.definitionHandler runtime response
  = NvimLsp.referencesHandler runtime response.
Proof.
  intros Hresponse.
  unfold NvimLsp.definitionHandler, NvimLsp.referencesHandler,
    NvimLsp.definitionLocations, NvimLsp.referencesLocations.
  f_equal. f_equal. apply mapRes_ext. intros r Hr.
  unfold arraysOfLocations in Hresponse. rewrite Forall_forall in Hresponse.
  specialize (Hresponse r Hr).
  destruct (NvimLsp.result r) as [|location|entries]; [done..|].
  by rewrite map_toLocation_isLocation by by apply Hresponse.
Qed.

Lemma handlers_agree_on_locations_witness :
  arraysOfLocations
    [{| NvimLsp.clientId := 1;
        NvimLsp.result :=
          NvimLsp.ResultMany
            [NvimLsp.LocationOrLink.mk (Some "deno:/x.ts"%string)
               (Some (Range.mk (Position.mk 4 1) (Position.mk 4 2))) None None] |}]
  ∧ NvimLsp.definitionHandler sampleRuntime
      [{| NvimLsp.clientId := 1;
          NvimLsp.result :=
            NvimLsp.ResultMany
              [NvimLsp.LocationOrLink.mk (Some "deno:/x.ts"%string)
                 (Some (Range.mk (Position.mk 4 1) (Position.mk 4 2))) None None] |}]
    = NvimLsp.referencesHandler sampleRuntime
        [{| NvimLsp.clientId := 1;
            NvimLsp.result :=
              NvimLsp.ResultMany
                [NvimLsp.LocationOrLink.mk (Some "deno:/x.ts"%string)
                   (Some (Range.mk (Position.mk 4 1) (Position.mk 4 2))) None None] |}].
Proof.
  assert (arraysOfLocations
    [{| NvimLsp.clientId := 1;
        NvimLsp.result :=
          NvimLsp.ResultMany
            [NvimLsp.LocationOrLink.mk (Some "deno:/x.ts"%string)
               (Some (Range.mk (Position.mk 4 1) (Position.mk 4 2))) None None] |}])
    as Hresponse.
  { apply Forall_cons. split; [|apply Forall_nil_2].
    intros entries [= <-]. apply Forall_cons. split; [|apply Forall_nil_2].
    split; by eexists. }
  split; [exact Hresponse|].
  apply (handlers_agree_on_locations sampleRuntime _ Hresponse).
Defined.

Lemma referencesLocations_elem response locations r entries entry :
  NvimLsp.referencesLocations response = Ok locations →
  r ∈ response → NvimLsp.result r = NvimLsp.ResultMany entries →
  entry ∈ entries → entry ∈ locations.
Proof.
  unfold NvimLsp.referencesLocations.
  intros (flat & Hflat%mapRes_Ok & [= <-])%bind_Ok Hr Hresult Hentry.
  induction Hflat as [|r' entries' response flat Hr' _ IH]; [by inversion Hr|].
  cbn [concat]. apply elem_of_app.
  apply elem_of_cons in Hr as [<-|Hr]; [left|right; by apply IH].
  rewrite Hresult in Hr'. by injection Hr' as <-.
Qed.

(** X18: an entry without [uri] in an array, as a link is, makes the
    handler of the references throw, whatever else the response holds:
    the stream of [textDocument/references] for such a response ends in
    an error, with no chunk, and is not closed. *)
Theorem referencesHandler_rejects_links
    (denops : NvimLsp.Denops) (runtime : NvimLsp.Runtime)
    (context : NvimLsp.Context) (response : list NvimLsp.ResponseEntry) :
  holdsLink response →
  (∃ e, NvimLsp.referencesHandler runtime response = Throw e)
  ∧ (NvimLsp.request denops "textDocument/references"
       (NvimLsp.context_bufNr context) (NvimLsp.context_winId context)
     = Ok (Some response) →
     ∃ e, NvimLsp.gather denops runtime context "textDocument/references"
          = erroredStream e).
Proof.
  intros Hlink.
  assert (∃ e, NvimLsp.referencesHandler runtime response = Throw e) as [e He].
  { unfold NvimLsp.referencesHandler.
    destruct (NvimLsp.referencesLocations response) as [locations|e] eqn:Hlocations;
      [|by exists e].
    cbn [bind]. apply mapRes_Throw.
    apply Exists_exists in Hlink as (r & Hr & entries & Hresult & Hentries).
    apply Exists_exists in Hentries as (entry & Hentry & Huri).
    apply Exists_exists. exists entry. split.
    - apply list_elem_of_In, filter_In. split.
      + apply list_elem_of_In.
        by apply (referencesLocations_elem response locations r entries).
      + unfold NvimLsp.isDenoUriWithFragment. by rewrite Huri.
    - unfold NvimLsp.locationToItem. rewrite Huri. by eexists. }
  split; [by exists e|].
  intros Hrequest. exists e.
  rewrite gather_supported by (by apply isSupportedMethod_elem).
  rewrite Hrequest. unfold handlerOf.
  rewrite bool_decide_eq_true_2 by done. by rewrite He.
Qed.

Lemma referencesHandler_rejects_links_witness :
  holdsLink
    [{| NvimLsp.clientId := 1;
        NvimLsp.result :=
          NvimLsp.ResultMany
            [NvimLsp.LocationOrLink.mk None None (Some "file:///x.ts"%string)
               (Some (Range.mk (Position.mk 4 1) (Position.mk 4 2)))] |}]
  ∧ (∃ e, NvimLsp.referencesHandler sampleRuntime
            [{| NvimLsp.clientId := 1;
                NvimLsp.result :=
                  NvimLsp.ResultMany
                    [NvimLsp.LocationOrLink.mk None None (Some "file:///x.ts"%string)
                       (Some (Range.mk (Position.mk 4 1) (Position.mk 4 2)))] |}]
          = Throw e)
  ∧ NvimLsp.definitionHandler sampleRuntime
      [{| NvimLsp.clientId := 1;
          NvimLsp.result :=
            NvimLsp.ResultMany
              [NvimLsp.LocationOrLink.mk None None (Some "file:///x.ts"%string)
                 (Some (Range.mk (Position.mk 4 1) (Position.mk 4 2)))] |}]
    = Ok [NvimLsp.Item.mk "/x.ts" "/x.ts:5:2" (NvimLsp.ActionData.mk "/x.ts" 5 2)].
Proof.
  assert (holdsLink
    [{| NvimLsp.clientId := 1;
        NvimLsp.result :=
          NvimLsp.ResultMany
            [NvimLsp.LocationOrLink.mk None None (Some "file:///x.ts"%string)
               (Some (Range.mk (Position.mk 4 1) (Position.mk 4 2)))] |}])
    as Hlink.
  { apply Exists_cons_hd. eexists. split; [reflexivity|].
    by apply Exists_cons_hd. }
  split; [exact Hlink|]. split; [|reflexivity].
  apply (referencesHandler_rejects_links
           (answering NvimLsp.ResultNull) sampleRuntime
           {| NvimLsp.context_bufNr := 1; NvimLsp.context_winId := 1000 |}
           _ Hlink).
Defined.

(** ** The items of a chunk *)

Lemma locationToItem_Ok runtime location item :
  NvimLsp.locationToItem runtime location = Ok item →
  NvimLsp.Item.word item = NvimLsp.ActionData.path (NvimLsp.Item.action item)
  ∧ NvimLsp.Item.display item
    = (NvimLsp.Item.word item
       +:+ ":" +:+ pretty (NvimLsp.ActionData.lineNr (NvimLsp.Item.action item))
       +:+ ":" +:+ pretty (NvimLsp.ActionData.col (NvimLsp.Item.action item)))%string
  ∧ ∃ uri,
      NvimLsp.LocationOrLink.uri location = Some uri
      ∧ (startsWith uri "file:" = false → NvimLsp.Item.word item = uri)
      ∧ (startsWith uri "file:" = true →
         NvimLsp.URL_pathname runtime uri = Ok (NvimLsp.Item.word item)).
Proof.
  unfold NvimLsp.locationToItem.
  destruct (NvimLsp.LocationOrLink.uri location) as [uri|]; [|done].
  intros (path & Hpath & Hitem)%bind_Ok.
  destruct (NvimLsp.LocationOrLink.range location) as [range|]; [|done].
  injection Hitem as <-. cbn. split_and!; [done..|].
  exists uri. split; [done|].
  destruct (startsWith uri "file:"); split; intros; congruence.
Qed.

Lemma Forall2_elem_r {X Y : Type} (R : X → Y → Prop) xs ys y :
  Forall2 R xs ys → y ∈ ys → ∃ x, x ∈ xs ∧ R x y.
Proof.
  induction 1 as [|x y' xs ys Hxy _ IH]; [by inversion 1|].
  intros [->|Hy]%elem_of_cons.
  - exists x. split; [apply list_elem_of_here|done].
  - destruct (IH Hy) as (x' & Hx' & Hxy'). exists x'.
    split; [by apply list_elem_of_further|done].
Qed.

(** X19: in every chunk that [gather] enqueues, for whatever method and
    response, the word of an item is the path of its action, and what it
    displays is that path, the line and the column of the action, with
    colons between; and every item comes of a URI that the pattern of the
    blocked locations does not match: its word is that URI, or the path
    that the runtime gives for it when it starts with [file:]. *)
Theorem gather_items_wellformed
    (denops : NvimLsp.Denops) (runtime : NvimLsp.Runtime)
    (context : NvimLsp.Context) (method : string) :
  Forall
    (Forall (λ item,
       NvimLsp.Item.word item = NvimLsp.ActionData.path (NvimLsp.Item.action item)
       ∧ NvimLsp.Item.display item
         = (NvimLsp.Item.word item
            +:+ ":" +:+ pretty (NvimLsp.ActionData.lineNr (NvimLsp.Item.action item))
            +:+ ":" +:+ pretty (NvimLsp.ActionData.col (NvimLsp.Item.action item)))%string
       ∧ ∃ uri,
           NvimLsp.denoFragmentRegExp_test uri = false
           ∧ (startsWith uri "file:" = false → NvimLsp.Item.word item = uri)
           ∧ (startsWith uri "file:" = true →
              NvimLsp.URL_pathname runtime uri = Ok (NvimLsp.Item.word item))))
    (NvimLsp.chunks (NvimLsp.gather denops runtime context method)).
Proof.
  assert (∀ locations items,
            Forall2 (λ location item, NvimLsp.locationToItem runtime location = Ok item)
              (List.filter (λ location, negb (NvimLsp.isDenoUriWithFragment location))
                 locations) items →
            Forall (λ item,
              NvimLsp.Item.word item = NvimLsp.ActionData.path (NvimLsp.Item.action item)
              ∧ NvimLsp.Item.display item
                = (NvimLsp.Item.word item
                   +:+ ":" +:+ pretty (NvimLsp.ActionData.lineNr (NvimLsp.Item.action item))
                   +:+ ":" +:+ pretty (NvimLsp.ActionData.col (NvimLsp.Item.action item)))%string
              ∧ ∃ uri,
                  NvimLsp.denoFragmentRegExp_test uri = false
                  ∧ (startsWith uri "file:" = false → NvimLsp.Item.word item = uri)
                  ∧ (startsWith uri "file:" = true →
                     NvimLsp.URL_pathname runtime uri = Ok (NvimLsp.Item.word item)))
              items) as Hitems.
  { intros locations items Hall. apply Forall_forall. intros item Hitem.
    destruct (Forall2_elem_r _ _ _ _ Hall Hitem) as (location & Hlocation & Hok).
    apply list_elem_of_In, filter_In in Hlocation as [_ Hkept].
    apply locationToItem_Ok in Hok as (Hword & Hdisplay & uri & Huri & Hplain & Hfile).
    split_and!; [done..|]. exists uri. split_and!; [|done..].
    unfold NvimLsp.isDenoUriWithFragment in Hkept. rewrite Huri in Hkept.
    by apply negb_true_iff in Hkept. }
  unfold NvimLsp.gather.
  destruct (negb (NvimLsp.isSupportedMethod method)); [constructor|].
  destruct NvimLsp.request as [[response|]|e]; [|constructor..].
  destruct (bool_decide (method = "textDocument/references")).
  - destruct (NvimLsp.referencesHandler runtime response) as [items|e] eqn:Hhandler;
      [|constructor].
    apply referencesHandler_Ok in Hhandler as (locations & _ & Hall).
    repeat constructor. by apply (Hitems locations).
  - destruct (NvimLsp.definitionHandler runtime response) as [items|e] eqn:Hhandler;
      [|constructor].
    apply definitionHandler_Ok in Hhandler as (locations & _ & Hall).
    repeat constructor. by apply (Hitems locations).
Qed.

(** ** The responses of several clients *)

Lemma flatMapM_app {T U : Type} (f : T → Res (list U)) l1 l2 out :
  LspDiagnostic.flatMapM f (l1 ++ l2) = Ok out
  ↔ ∃ out1 out2,
      LspDiagnostic.flatMapM f l1 = Ok out1
      ∧ LspDiagnostic.flatMapM f l2 = Ok out2
      ∧ out = out1 ++ out2.
Proof.
  rewrite flatMapM_Ok. split.
  - intros (lists & (lists1 & lists2 & H1 & H2 & ->)%Forall2_app_inv_l & ->).
    exists (concat lists1), (concat lists2).
    rewrite !flatMapM_Ok, concat_app. naive_solver.
  - intros (out1 & out2 & (lists1 & H1 & ->)%flatMapM_Ok
            & (lists2 & H2 & ->)%flatMapM_Ok & ->).
    exists (lists1 ++ lists2). rewrite concat_app.
    split; [by apply Forall2_app|done].
Qed.

Lemma filtered_items_app runtime (locations1 locations2 : list NvimLsp.LocationOrLink.t)
    items :
  mapRes (NvimLsp.locationToItem runtime)
    (List.filter (λ location, negb (NvimLsp.isDenoUriWithFragment location))
       (locations1 ++ locations2)) = Ok items
  ↔ ∃ items1 items2,
      mapRes (NvimLsp.locationToItem runtime)
        (List.filter (λ location, negb (NvimLsp.isDenoUriWithFragment location))
           locations1) = Ok items1
      ∧ mapRes (NvimLsp.locationToItem runtime)
          (List.filter (λ location, negb (NvimLsp.isDenoUriWithFragment location))
             locations2) = Ok items2
      ∧ items = items1 ++ items2.
Proof.
  rewrite List.filter_app. split.
  - apply mapRes_app_inv.
  - intros (items1 & items2 & H1 & H2 & ->). by apply mapRes_app.
Qed.

Lemma definitionLocations_app response1 response2 locations :
  NvimLsp.definitionLocations (response1 ++ response2) = Ok locations
  ↔ ∃ locations1 locations2,
      NvimLsp.definitionLocations response1 = Ok locations1
      ∧ NvimLsp.definitionLocations response2 = Ok locations2
      ∧ locations = locations1 ++ locations2.
Proof. apply (flatMapM_app _ response1 response2 locations). Qed.

Lemma referencesLocations_app response1 response2 locations :
  NvimLsp.referencesLocations (response1 ++ response2) = Ok locations
  ↔ ∃ locations1 locations2,
      NvimLsp.referencesLocations response1 = Ok locations1
      ∧ NvimLsp.referencesLocations response2 = Ok locations2
      ∧ locations = locations1 ++ locations2.
Proof. apply (flatMapM_app _ response1 response2 locations). Qed.

(** X20: the items of the responses of several clients are the items of
    each, in the order of the clients: a handler returns for two lists of
    responses in a row exactly when it returns for each, and the items are
    then those of the first followed by those of the second. *)
Theorem handlers_concatenate
    (runtime : NvimLsp.Runtime) (response1 response2 : list NvimLsp.ResponseEntry)
    (items : list NvimLsp.Item.t) :
  (NvimLsp.definitionHandler runtime (response1 ++ response2) = Ok items
   ↔ ∃ items1 items2,
       NvimLsp.definitionHandler runtime response1 = Ok items1
       ∧ NvimLsp.definitionHandler runtime response2 = Ok items2
       ∧ items = items1 ++ items2)
  ∧ (NvimLsp.referencesHandler runtime (response1 ++ response2) = Ok items
     ↔ ∃ items1 items2,
         NvimLsp.referencesHandler runtime response1 = Ok items1
         ∧ NvimLsp.referencesHandler runtime response2 = Ok items2
         ∧ items = items1 ++ items2).
Proof.
  split.
  - unfold NvimLsp.definitionHandler. rewrite bind_Ok. split.
    + intros (locations & (l1 & l2 & H1 & H2 & ->)%definitionLocations_app
              & (items1 & items2 & Hi1 & Hi2 & ->)%filtered_items_app).
      exists items1, items2. split_and!; [| |done]; apply bind_Ok; eauto.
    + intros (items1 & items2 & (l1 & H1 & Hi1)%bind_Ok & (l2 & H2 & Hi2)%bind_Ok
              & ->).
      exists (l1 ++ l2). split.
      * apply definitionLocations_app. eauto 10.
      * apply filtered_items_app. eauto 10.
  - unfold NvimLsp.referencesHandler. rewrite bind_Ok. split.
    + intros (locations & (l1 & l2 & H1 & H2 & ->)%referencesLocations_app
              & (items1 & items2 & Hi1 & Hi2 & ->)%filtered_items_app).
      exists items1, items2. split_and!; [| |done]; apply bind_Ok; eauto.
    + intros (items1 & items2 & (l1 & H1 & Hi1)%bind_Ok & (l2 & H2 & Hi2)%bind_Ok
              & ->).
      exists (l1 ++ l2). split.
      * apply referencesLocations_app. eauto 10.
      * apply filtered_items_app. eauto 10.
Qed.
